(** * AI Studio simulator: the utility modules, embedded and verified

  The development follows the three utility modules of the application:

  - [ImageUtils]   ([validateImageFile], [downscaleImage]),
  - [StorageUtils] ([saveGeneration], [getHistory], [clearHistory],
                    [removeFromHistory]),
  - [ApiUtils]     ([mockApiCall], [retryWithBackoff]).

  JavaScript numbers are modelled by [Z] where the code only handles
  integers (sizes, pixel counts, attempt counters) and by [Q] where it
  divides or scales (aspect ratios, delays, [Math.random]).  The
  arithmetic of the model is exact and the rounding of IEEE doubles is not
  modelled; where a statement bounds a number that the code computes in
  doubles, the bound is a closed one, which the rounded number meets as
  well.  The numbers of a stored JSON text are kept apart as finite,
  negative zero and infinite, since [JSON.stringify] does not write them
  alike. *)

From Stdlib Require Import ZArith QArith Qround Qabs Qpower Lqa.
From Stdlib Require Import String Ascii List Bool Lia.
Import ListNotations.

Set Implicit Arguments.
Set Warnings "-register-all".

(* ================================================================= *)
(** ** Values shared by the modules *)

Module Js.
Local Open Scope string_scope.

(** A value that has been thrown (or with which a promise has been
    rejected).  The code inspects three things of such a value: whether it
    is an instance of [DOMException], its [name] and its [message]; a
    property is [None] when it is [undefined]. *)
Record Error : Type := mkError {
  isDOMException : bool;
  name : option string;
  message : option string
}.

(** The values the code throws itself or that the runtime throws under it. *)
Definition newError (msg : string) : Error :=
  mkError false (Some "Error") (Some msg).
Definition newDOMException (msg nm : string) : Error :=
  mkError true (Some nm) (Some msg).
Definition TypeError (msg : string) : Error :=
  mkError false (Some "TypeError") (Some msg).
Definition SyntaxError (msg : string) : Error :=
  mkError false (Some "SyntaxError") (Some msg).

(** What can be thrown: an object as above, or [undefined]. *)
Inductive Thrown : Type :=
| Undefined
| Obj (e : Error).

(** The state in which a promise settles. *)
Inductive Settled (T : Type) : Type :=
| Fulfilled (v : T)
| Rejected (reason : Thrown).
Arguments Fulfilled {T} v.
Arguments Rejected {T} reason.

(** [String.prototype.includes]: [includes needle hay] holds when [needle]
    occurs in [hay] as a contiguous substring. *)
Fixpoint includes (needle hay : string) : bool :=
  String.prefix needle hay ||
  match hay with
  | EmptyString => false
  | String _ rest => includes needle rest
  end.

(** [Math.round]: the nearest integer, halves rounded towards +infinity. *)
Definition Math_round (x : Q) : Z := Qfloor (x + (1 # 2)).

(** [x > y] on numbers. *)
Definition Qgt_bool (x y : Q) : bool := negb (Qle_bool x y).

End Js.

(* ================================================================= *)
(** ** imageUtils *)

Module ImageUtils.
Import Js.
Local Open Scope string_scope.

Definition MAX_FILE_SIZE : Z := 10 * 1024 * 1024.
Definition MAX_IMAGE_DIMENSION : Z := 1920.

(** The two properties of a [File] that the validator reads. *)
Record File : Type := mkFile {
  type : string;
  size : Z
}.

(** [/^image\/(png|jpeg|jpg)$/]: the whole string is [image/] followed by
    one of the three alternatives. *)
Definition matches_image_type (s : string) : bool :=
  existsb (fun alt => String.eqb s ("image/" ++ alt)) ["png"; "jpeg"; "jpg"].

(** [validateImageFile]: [None] is [null] (the file is accepted), [Some msg]
    the validation error. *)
Definition validateImageFile (file : File) : option string :=
  if negb (matches_image_type (type file)) then
    Some "Please upload a PNG or JPG file"
  else if (size file >? MAX_FILE_SIZE)%Z then
    Some "File size must be less than 10MB"
  else
    None.

(** The canvas the image is drawn on; a fresh canvas is 300 by 150. *)
Record Canvas : Type := mkCanvas {
  width : Z;
  height : Z
}.
Definition newCanvas : Canvas := mkCanvas 300 150.

(** What the browser contributes to one call of [downscaleImage]: whether a
    2d context can be had, the dimensions of the decoded image ([None] when
    decoding fails and [onerror] fires), and the length of the data URL the
    canvas encodes to. *)
Record Browser : Type := mkBrowser {
  hasContext : bool;
  decoded : option (Z * Z);
  dataUrlLength : Canvas -> Z
}.

(** The body of [img.onload] up to the sizing of the canvas.  The quotient
    [width / height] and the scaled edge are exact here; the code computes
    them in doubles, which can move an edge that is scaled to a half, or to
    within a rounding error of a half, to the neighbouring integer. *)
Definition targetDimensions (w h maxDim : Z) : Z * Z :=
  if ((w >? maxDim) || (h >? maxDim))%Z then
    let aspectRatio : Q := inject_Z w / inject_Z h in
    if (w >? h)%Z then
      (maxDim, Math_round (inject_Z maxDim / aspectRatio))
    else
      (Math_round (inject_Z maxDim * aspectRatio), maxDim)
  else (w, h).

(** [downscaleImage]: the canvas as the call leaves it, and the state in
    which the returned promise settles; the data URL is represented by its
    length, the only thing the code reads of it.  A call that leaves
    [maxDim] out passes [MAX_IMAGE_DIMENSION]. *)
Definition downscaleImage (b : Browser) (maxDim : Z) : Canvas * Settled Z :=
  if negb (hasContext b) then
    (newCanvas, Rejected (Obj (newError "Cannot get canvas context")))
  else
    match decoded b with
    | None => (newCanvas, Rejected (Obj (newError "Failed to load image")))
    | Some (w, h) =>
        let (newWidth, newHeight) := targetDimensions w h maxDim in
        let canvas := mkCanvas newWidth newHeight in
        let dataUrl := dataUrlLength b canvas in
        let estimatedSize : Q := inject_Z dataUrl * (3 # 4) in
        if Qgt_bool estimatedSize (inject_Z MAX_FILE_SIZE) then
          (canvas,
           Rejected (Obj (newError
             "Processed image is still too large. Please use a smaller image.")))
        else
          (canvas, Fulfilled dataUrl)
    end.

End ImageUtils.

(* ================================================================= *)
(** ** storageUtils *)

Module StorageUtils.
Import Js.
Local Open Scope string_scope.

Definition MAX_HISTORY_ITEMS : nat := 5.

Record Generation : Type := mkGeneration {
  id : string;
  imageUrl : string;
  prompt : string;
  style : string;
  createdAt : string
}.

(** A number as [JSON.parse] reads it: a finite number; the negative zero,
    read from [-0]; or an infinity, read from a literal beyond the range of
    the doubles, such as [1e400]. *)
Inductive Number : Type :=
| Finite (q : Q)
| NegativeZero
| Infinity (negative : bool).

(** The values [JSON.parse] produces.  An object is the list of its
    properties, each key once. *)
Inductive Json : Type :=
| JNull
| JBool (b : bool)
| JNumber (n : Number)
| JString (s : string)
| JArray (items : list Json)
| JObject (fields : list (string * Json)).

(** A [Generation] as a JavaScript value. *)
Definition toJson (g : Generation) : Json :=
  JObject [ ("id", JString (id g));
            ("imageUrl", JString (imageUrl g));
            ("prompt", JString (prompt g));
            ("style", JString (style g));
            ("createdAt", JString (createdAt g)) ].

(** A string held by [localStorage], as far as the code can tell strings
    apart: the empty string, a string [JSON.parse] rejects, or a string that
    parses to the given value. *)
Inductive Text : Type :=
| Blank
| Malformed
| Encodes (j : Json).

(** What [JSON.parse] reads from the text that [JSON.stringify] writes for
    a value: an infinity is written [null] and the negative zero [0], inside
    arrays and objects as well; every other value is read back as it was. *)
Fixpoint written (j : Json) : Json :=
  match j with
  | JNumber NegativeZero => JNumber (Finite 0)
  | JNumber (Infinity _) => JNull
  | JArray items => JArray (map written items)
  | JObject fields => JObject (map (fun '(k, v) => (k, written v)) fields)
  | _ => j
  end.

(** [JSON.stringify] yields a string that parses, to the value as it is
    written. *)
Definition JSON_stringify (j : Json) : Text := Encodes (written j).

(** The storage area and the console.  [item] is what is stored under
    [STORAGE_KEY] ([None]: the key is absent).  [accessDenied] and
    [quotaExceeded] describe the failures of the storage layer: a storage
    area that may not be accessed at all, and values it has no room for. *)
Record Store : Type := mkStore {
  item : option Text;
  accessDenied : bool;
  quotaExceeded : Text -> bool;
  console : list (string * Error)
}.

Definition SecurityError : Error :=
  newDOMException "The operation is insecure." "SecurityError".
Definition QuotaExceededError : Error :=
  newDOMException "The quota has been exceeded." "QuotaExceededError".

(** *** Computations that read and write the store and may throw *)

Inductive Completion (A : Type) : Type :=
| Normal (a : A)
| Throw (e : Error).
Arguments Normal {A} a.
Arguments Throw {A} e.

Definition M (A : Type) : Type := Store -> Completion A * Store.

Definition ret {A} (a : A) : M A := fun s => (Normal a, s).
Definition throw {A} (e : Error) : M A := fun s => (Throw e, s).
Definition bind {A B} (m : M A) (k : A -> M B) : M B :=
  fun s =>
    match m s with
    | (Normal a, s') => k a s'
    | (Throw e, s') => (Throw e, s')
    end.
(** [try { body } catch (error) { handler }]: what the body did to the store
    before it threw stays done. *)
Definition try_catch {A} (body : M A) (handler : Error -> M A) : M A :=
  fun s =>
    match body s with
    | (Normal a, s') => (Normal a, s')
    | (Throw e, s') => handler e s'
    end.

Notation "x <- m ;; k" := (bind m (fun x => k))
  (at level 61, m at next level, right associativity).
Notation "m ;;; k" := (bind m (fun _ => k))
  (at level 61, right associativity).

(** *** The browser functions the module calls *)

Definition localStorage_getItem : M (option Text) :=
  fun s => if accessDenied s then (Throw SecurityError, s)
           else (Normal (item s), s).

Definition localStorage_setItem (value : Text) : M unit :=
  fun s =>
    if accessDenied s then (Throw SecurityError, s)
    else if quotaExceeded s value then (Throw QuotaExceededError, s)
    else (Normal tt,
          mkStore (Some value) (accessDenied s) (quotaExceeded s) (console s)).

Definition localStorage_removeItem : M unit :=
  fun s =>
    if accessDenied s then (Throw SecurityError, s)
    else (Normal tt,
          mkStore None (accessDenied s) (quotaExceeded s) (console s)).

Definition console_error (msg : string) (error : Error) : M unit :=
  fun s =>
    (Normal tt,
     mkStore (item s) (accessDenied s) (quotaExceeded s)
             (console s ++ [(msg, error)])).

Definition JSON_parse (t : Text) : M Json :=
  match t with
  | Encodes j => ret j
  | Blank | Malformed => throw (SyntaxError "Unexpected end of JSON input")
  end.

(** The truth value of [stored] in [stored ? ... : ...]: [null] and the
    empty string are false. *)
Definition truthy (stored : option Text) : bool :=
  match stored with
  | None | Some Blank => false
  | Some _ => true
  end.

(** [item.id]: reading a property of [null] throws; every other value has
    the property or yields [undefined] ([None]). *)
Fixpoint lookup (key : string) (fields : list (string * Json)) : option Json :=
  match fields with
  | [] => None
  | (k, v) :: rest => if String.eqb k key then Some v else lookup key rest
  end.

Definition get_id (it : Json) : M (option Json) :=
  match it with
  | JNull => throw (TypeError "Cannot read properties of null (reading 'id')")
  | JObject fields => ret (lookup "id" fields)
  | _ => ret None
  end.

(** [v !== s] for a string [s]. *)
Definition strict_neq (v : option Json) (s : string) : bool :=
  match v with
  | Some (JString s') => negb (String.eqb s' s)
  | _ => true
  end.

(** [history.filter(callback)]: only an array has the method (and [null]
    has no properties at all); the callback runs on the elements in order
    and the first throw ends the call. *)
Fixpoint filter_items (callback : Json -> M bool) (items : list Json)
  : M (list Json) :=
  match items with
  | [] => ret []
  | it :: rest =>
      keep <- callback it ;;
      kept <- filter_items callback rest ;;
      ret (if keep then it :: kept else kept)
  end.

Definition Array_filter (history : Json) (callback : Json -> M bool)
  : M (list Json) :=
  match history with
  | JArray items => filter_items callback items
  | JNull => throw (TypeError "Cannot read properties of null (reading 'filter')")
  | _ => throw (TypeError "history.filter is not a function")
  end.

(** [filteredHistory.slice(0, n)] *)
Definition slice0 (n : nat) (l : list Json) : list Json := firstn n l.

(** *** The module *)

Definition getHistory : M Json :=
  try_catch
    (stored <- localStorage_getItem ;;
     if truthy stored then
       match stored with
       | Some t => JSON_parse t
       | None => ret (JArray [])
       end
     else ret (JArray []))
    (fun error =>
       console_error "Failed to load history from localStorage:" error ;;;
       ret (JArray [])).

Definition saveGeneration (generation : Generation) : M unit :=
  try_catch
    (existingHistory <- getHistory ;;
     filteredHistory <-
       Array_filter existingHistory
         (fun it => v <- get_id it ;; ret (strict_neq v (id generation))) ;;
     let newHistory :=
       toJson generation :: slice0 (MAX_HISTORY_ITEMS - 1) filteredHistory in
     localStorage_setItem (JSON_stringify (JArray newHistory)))
    (fun error =>
       console_error "Failed to save generation to localStorage:" error).

Definition clearHistory : M unit :=
  try_catch
    localStorage_removeItem
    (fun error => console_error "Failed to clear history:" error).

Definition removeFromHistory (id0 : string) : M unit :=
  try_catch
    (history <- getHistory ;;
     filteredHistory <-
       Array_filter history
         (fun it => v <- get_id it ;; ret (strict_neq v id0)) ;;
     localStorage_setItem (JSON_stringify (JArray filteredHistory)))
    (fun error =>
       console_error "Failed to remove item from history:" error).

(** Recording a sequence of generations, one call after the other. *)
Fixpoint saveAll (gs : list Generation) : M unit :=
  match gs with
  | [] => ret tt
  | g :: rest => saveGeneration g ;;; saveAll rest
  end.

(** *** Reading a store *)

(** The entries of the stored history, when an array is stored. *)
Definition stored_entries (s : Store) : option (list Json) :=
  match item s with
  | Some (Encodes (JArray items)) => Some items
  | _ => None
  end.

(** The array [getHistory] reads from a stored value: every value that is
    absent, empty or does not parse reads as the empty array, and a value
    that parses to something else than an array is no array. *)
Definition history_of (stored : option Text) : option (list Json) :=
  match stored with
  | None | Some Blank | Some Malformed => Some []
  | Some (Encodes (JArray items)) => Some items
  | Some (Encodes _) => None
  end.

Definition is_null (it : Json) : bool :=
  match it with JNull => true | _ => false end.

(** [it.id] of an element that is not [null]. *)
Definition id_of (it : Json) : option Json :=
  match it with
  | JObject fields => lookup "id" fields
  | _ => None
  end.

(** The element carries the identifier [i]. *)
Definition has_id (i : string) (it : Json) : bool :=
  negb (strict_neq (id_of it) i).

(** A stored value the module can extend: it reads as an array none of
    whose elements is [null]. *)
Definition holds_history (stored : option Text) : Prop :=
  exists items,
    history_of stored = Some items /\ existsb is_null items = false.

(** The element is [null] once it is written: it is [null], or an
    infinity. *)
Definition writes_null (it : Json) : bool := is_null (written it).

(** A stored value the module can extend time and again: it reads as an
    array none of whose elements is [null] or is written as [null]. *)
Definition holds_entries (stored : option Text) : Prop :=
  exists items,
    history_of stored = Some items /\ existsb writes_null items = false.

(** The storage layer works: access is granted and there is room for every
    value. *)
Definition working (s : Store) : Prop :=
  accessDenied s = false /\ forall t, quotaExceeded s t = false.

(** One record of the history, as [saveGeneration] computes it from the
    array it read. *)
Definition recorded (g : Generation) (items : list Json) : list Json :=
  toJson g ::
  firstn (MAX_HISTORY_ITEMS - 1)
    (filter (fun it => strict_neq (id_of it) (id g)) items).

(** A generation with the given identifier and prompt. *)
Definition sample (i p : string) : Generation :=
  mkGeneration i "https://example.org/image.jpeg" p "Editorial"
    "2025-01-01T00:00:00.000Z".

(** Six generations with the identifiers [a] to [f]. *)
Definition six_samples : list Generation :=
  [sample "a" "1"; sample "b" "2"; sample "c" "3";
   sample "d" "4"; sample "e" "5"; sample "f" "6"].

End StorageUtils.

(* ================================================================= *)
(** ** apiUtils *)

Module ApiUtils.
Import Js.
Local Open Scope string_scope.
Local Open Scope Q_scope.

Definition MOCK_IMAGES : list string :=
  [ "https://images.pexels.com/photos/1167021/pexels-photo-1167021.jpeg?auto=compress&cs=tinysrgb&w=800";
    "https://images.pexels.com/photos/2310641/pexels-photo-2310641.jpeg?auto=compress&cs=tinysrgb&w=800";
    "https://images.pexels.com/photos/3861972/pexels-photo-3861972.jpeg?auto=compress&cs=tinysrgb&w=800";
    "https://images.pexels.com/photos/1108572/pexels-photo-1108572.jpeg?auto=compress&cs=tinysrgb&w=800";
    "https://images.pexels.com/photos/2346091/pexels-photo-2346091.jpeg?auto=compress&cs=tinysrgb&w=800" ].

Record ApiRequest : Type := mkRequest {
  imageDataUrl : string;
  prompt : string;
  style : string
}.

(** The response.  [id] keeps the two values the identifier string is
    formatted from ([Date.now()] and a [Math.random()] draw), [createdAt] the
    time the ISO string is formatted from; [imageUrl] is [None] when the
    index falls outside [MOCK_IMAGES]. *)
Record ApiResponse : Type := mkResponse {
  id : Q * Q;
  imageUrl : option string;
  res_prompt : string;
  res_style : string;
  createdAt : Q
}.

(** The [ApiError] object of an overloaded model: a plain object with a
    [message] and nothing else. *)
Definition overloaded : Error :=
  mkError false None (Some "Model overloaded. Please try again.").

(** *** The event loop as the module sees it

    [clock] is the time in milliseconds.  [abortAt] is the time at which the
    [AbortController] of the flow is aborted ([None]: never).  [drawn]
    counts the calls of [Math.random()] made so far. *)
Record Env : Type := mkEnv {
  clock : Q;
  abortAt : option Q;
  drawn : nat
}.

(** The flow resumes [ms] milliseconds later, respectively at time [t]. *)
Definition elapse (ms : Q) (env : Env) : Env :=
  mkEnv (Qred (clock env + ms)) (abortAt env) (drawn env).
Definition resume_at (t : Q) (env : Env) : Env :=
  mkEnv (Qred t) (abortAt env) (drawn env).

Definition Qlt_bool (x y : Q) : bool := negb (Qle_bool y x).

(** The signal is already aborted at time [t]. *)
Definition aborted_by (t : Q) (env : Env) : bool :=
  match abortAt env with
  | Some ta => Qle_bool ta t
  | None => false
  end.

(** The ['abort'] event is dispatched strictly between [t0] and [t1]: the
    time at which a listener added at [t0] runs, if it runs before [t1]. *)
Definition abort_event_between (t0 t1 : Q) (env : Env) : option Q :=
  match abortAt env with
  | Some ta => if Qlt_bool t0 ta && Qlt_bool ta t1 then Some ta else None
  | None => None
  end.

(** *** The thunk and the log of a run *)

(** An attempt thunk [fn : () => Promise<T>]: called for the [k]-th time
    (counting from 0) in an environment, it settles and leaves the
    environment in which its promise settled.  What the thunk does may
    depend on how often it has been called, on the time, on the signal and
    on the numbers it draws; a promise that never settles is not modelled. *)
Definition Thunk (T : Type) : Type := nat -> Env -> Settled T * Env.

(** What a run did, in order: it called the thunk (at which attempt, when,
    and how the promise settled), or it waited on a timer (after which
    attempt, from when, and for how long). *)
Inductive Event (T : Type) : Type :=
| Invoked (attempt : Z) (time : Q) (outcome : Settled T)
| Waited (attempt : Z) (from : Q) (ms : Q).
Arguments Waited {T} attempt from ms.

Record Run (T : Type) : Type := mkRun {
  result : Settled T;
  log : list (Event T);
  final : Env
}.

Definition after {T} (events : list (Event T)) (r : option (Run T))
  : option (Run T) :=
  match r with
  | Some run => Some (mkRun (result run) (events ++ log run) (final run))
  | None => None
  end.

(** [error instanceof DOMException && error.name === 'AbortError'] *)
Definition isAbortError (error : Thrown) : bool :=
  match error with
  | Obj e =>
      isDOMException e &&
      match name e with
      | Some n => String.eqb n "AbortError"
      | None => false
      end
  | Undefined => false
  end.

(** [lastError.message?.includes('Model overloaded')], [undefined] read as
    false the way [!] reads it. *)
Definition isRetryableError (e : Error) : bool :=
  match message e with
  | Some m => includes "Model overloaded" m
  | None => false
  end.

Section WithRandom.

(** The numbers [Math.random()] returns, in the order of the calls. *)
Variable random : nat -> Q.

Definition Math_random (env : Env) : Q * Env :=
  (random (drawn env), mkEnv (clock env) (abortAt env) (S (drawn env))).

(** [mockApiCall request signal]; [signal] tells whether the optional
    [AbortSignal] is passed.  The listener is added when the call is made, so
    it runs only for an abort that comes after that and, to have an effect,
    before the timer has settled the promise.  The delay is exact here; the
    code computes it in doubles, where it is at least 1000 and at most
    2000. *)
Definition mockApiCall (request : ApiRequest) (signal : bool) (env : Env)
  : Settled ApiResponse * Env :=
  let started := clock env in
  let (r, env) := Math_random env in
  let delay := 1000 + r * 1000 in
  match (if signal then abort_event_between started (started + delay) env
         else None) with
  | Some ta =>
      (Rejected (Obj (newDOMException "Request aborted" "AbortError")),
       resume_at ta env)
  | None =>
      let env := elapse delay env in
      let (r, env) := Math_random env in
      if Qlt_bool r (2 # 10) then (Rejected (Obj overloaded), env)
      else
        let (r_id, env) := Math_random env in
        let (r_img, env) := Math_random env in
        (Fulfilled
           (mkResponse (clock env, r_id)
              (nth_error MOCK_IMAGES
                 (Z.to_nat (Qfloor (r_img * inject_Z (Z.of_nat (length MOCK_IMAGES))))))
              (prompt request) (style request) (clock env)),
         env)
  end.

(** *** The retry loop *)

(** The [for] loop from the test of its condition on.  [fuel] bounds the
    number of times the condition is tested; [maxRetries] is an integer.  At
    attempt [attempt] the thunk has been called [attempt - 1] times before.
    A timer fires exactly when it is due.  The delay and the jitter are
    exact here; the code computes them and their sum in doubles. *)
Fixpoint attempts {T} (fn : Thunk T) (maxRetries : Z) (baseDelay maxJitter : Q)
    (fuel : nat) (attempt : Z) (lastError : Thrown) (env : Env)
  : option (Run T) :=
  match fuel with
  | O => None
  | S fuel' =>
      if (attempt <=? maxRetries)%Z then
        let started := clock env in
        let (settled, env) := fn (Z.to_nat (attempt - 1)) env in
        match settled with
        | Fulfilled v =>
            Some (mkRun (Fulfilled v) [Invoked attempt started settled] env)
        | Rejected error =>
            let lastError := error in
            if isAbortError error then
              Some (mkRun (Rejected error) [Invoked attempt started settled] env)
            else
              match lastError with
              | Undefined =>
                  Some (mkRun
                    (Rejected (Obj (TypeError
                       "Cannot read properties of undefined (reading 'message')")))
                    [Invoked attempt started settled] env)
              | Obj e =>
                  if negb (isRetryableError e) || (attempt =? maxRetries)%Z then
                    Some (mkRun (Rejected lastError)
                            [Invoked attempt started settled] env)
                  else
                    let delay := baseDelay * 2 ^ (attempt - 1) in
                    let (r, env) := Math_random env in
                    let jitter := r * maxJitter in
                    let waiting := clock env in
                    let env := elapse (delay + jitter) env in
                    after [Invoked attempt started settled;
                           Waited attempt waiting (delay + jitter)]
                      (attempts fn maxRetries baseDelay maxJitter
                         fuel' (attempt + 1) lastError env)
              end
        end
      else
        Some (mkRun (Rejected lastError) [] env)
  end.

Definition retryWithBackoff {T} (fn : Thunk T) (maxRetries : Z)
    (baseDelay maxJitter : Q) (env : Env) : option (Run T) :=
  attempts fn maxRetries baseDelay maxJitter
    (S (Z.to_nat maxRetries)) 1 Undefined env.

End WithRandom.

(** The default values of the parameters. *)
Definition default_maxRetries : Z := 3.
Definition default_baseDelay : Q := 500.
Definition default_maxJitter : Q := 100.

(** *** Reading a log *)

Definition is_call {T} (ev : Event T) : bool :=
  match ev with Invoked _ _ _ => true | Waited _ _ _ => false end.

(** How often the thunk was invoked, and the timers that were waited on. *)
Definition invocations {T} (l : list (Event T)) : nat :=
  length (filter is_call l).

Fixpoint waits {T} (l : list (Event T)) : list (Z * Q) :=
  match l with
  | [] => []
  | Waited n _ ms :: rest => (n, ms) :: waits rest
  | Invoked _ _ _ :: rest => waits rest
  end.

(** The last thing the run did was to wait. *)
Fixpoint ends_with_wait {T} (l : list (Event T)) : bool :=
  match l with
  | [] => false
  | ev :: rest =>
      match rest with
      | [] => negb (is_call ev)
      | _ :: _ => ends_with_wait rest
      end
  end.

(** The thunk was invoked at a time later than [t]. *)
Definition invoked_after {T} (t : Q) (l : list (Event T)) : bool :=
  existsb (fun ev => match ev with
                     | Invoked _ time _ => Qlt_bool t time
                     | Waited _ _ _ => false
                     end) l.

(** The log read against the thunk: a run that starts in [env] and does
    what the log says ends in [final].  Every call in the log is the call
    of the thunk that its attempt number stands for, made in the
    environment reached so far, at the time recorded, and settled as
    recorded; every wait starts at the time recorded, draws one number and
    lets the time pass that it says. *)
Fixpoint replays {T} (random : nat -> Q) (fn : Thunk T)
    (events : list (Event T)) (env final : Env) : Prop :=
  match events with
  | [] => final = env
  | Invoked attempt time outcome :: rest =>
      time = clock env /\
      exists env1,
        fn (Z.to_nat (attempt - 1)) env = (outcome, env1) /\
        replays random fn rest env1 final
  | Waited attempt from ms :: rest =>
      from = clock env /\
      replays random fn rest (elapse ms (snd (Math_random random env))) final
  end.

(** *** The classes of errors

    The loop tells three kinds of thrown objects apart, by the two tests it
    makes and in the order in which it makes them. *)

(** An overload: not an abort, and the message has the sentinel. *)
Definition overload (e : Error) : bool :=
  negb (isAbortError (Obj e)) && isRetryableError e.


(** The [k]-th call of the thunk rejects with an object of the given kind,
    respectively fulfils with [v], in whatever environment it is made. *)
Definition rejects_with {T} (fn : Thunk T) (k : nat) (kind : Error -> bool)
  : Prop :=
  forall env, exists e env',
    fn k env = (Rejected (Obj e), env') /\ kind e = true.


(** *** A generation flow that is cancelled during the first backoff

    The thunk of the application, [() => mockApiCall(request, signal)], with
    a model that answers after 1500ms, is overloaded the first time, and
    a user who aborts at 1800ms. *)
Definition flow_thunk (random : nat -> Q) (request : ApiRequest)
  : Thunk ApiResponse :=
  fun _ env => mockApiCall random request true env.

Definition cancelled_random : nat -> Q :=
  fun i => nth i [1 # 2; 1 # 10; 1 # 2; 1 # 2; 1 # 2; 1 # 4; 3 # 4] (1 # 2).

Definition cancelled_env : Env := mkEnv 0 (Some 1800) 0.

Definition cancelled_request : ApiRequest :=
  mkRequest "data:image/jpeg;base64,AAAA" "warm portrait" "Editorial".

(** The same flow with a user who aborts at 700ms, while the first request
    is in flight. *)
Definition cancelled_early_env : Env := mkEnv 0 (Some 700) 0.

(** Thunks for the examples: one that is always overloaded, one that is
    overloaded twice and then answers, one that fails for good, and one that
    is aborted with the sentinel in the message of the [DOMException]. *)
Definition always_overloaded : Thunk nat :=
  fun _ env => (Rejected (Obj overloaded), elapse 1200 env).

Definition third_time_lucky : Thunk nat :=
  fun k env =>
    if (k <? 2)%nat then (Rejected (Obj overloaded), elapse 1200 env)
    else (Fulfilled 7%nat, elapse 1200 env).


Definition aborted_overloaded : Error :=
  newDOMException "Model overloaded" "AbortError".

Definition aborting : Thunk nat :=
  fun k env =>
    if (k <? 1)%nat then (Rejected (Obj overloaded), elapse 1200 env)
    else (Rejected (Obj aborted_overloaded), elapse 10 env).

End ApiUtils.

(* ================================================================= *)
(** ** Sequences of history operations *)

Module HistoryOps.
Import Js StorageUtils.
Local Open Scope string_scope.
Local Open Scope nat_scope.

(** The calls a user of the module can make. *)
Inductive Op : Type :=
| Save (g : Generation)
| Remove (i : string)
| Clear
| Load.

Definition perform (op : Op) : M unit :=
  match op with
  | Save g => saveGeneration g
  | Remove i => removeFromHistory i
  | Clear => clearHistory
  | Load => getHistory ;;; ret tt
  end.

Fixpoint performAll (ops : list Op) : M unit :=
  match ops with
  | [] => ret tt
  | op :: rest => perform op ;;; performAll rest
  end.

(** The stored history, if an array is stored, has at most
    [MAX_HISTORY_ITEMS] entries. *)
Definition bounded (s : Store) : Prop :=
  match stored_entries s with
  | Some items => length items <= MAX_HISTORY_ITEMS
  | None => True
  end.

(** The callback of the two filters, on elements that are not [null]. *)
Definition other_than (i : string) (it : Json) : bool :=
  strict_neq (id_of it) i.

(** How many entries carry the identifier [i]. *)
Definition count_id (i : string) (items : list Json) : nat :=
  length (filter (has_id i) items).

(** [handleClearHistory] of the history panel, once the user has answered
    the confirmation: [clearHistory()] and then [onHistoryUpdate()], which
    shows what [getHistory()] returns. *)
Definition handleClearHistory (confirmed : bool) : M (option Json) :=
  if confirmed then
    clearHistory ;;;
    shown <- getHistory ;;
    ret (Some shown)
  else ret None.

End HistoryOps.

(* ================================================================= *)
(** ** More ways to read the log of a run *)

Module ApiLog.
Import Js ApiUtils.
Local Open Scope Q_scope.

(** The attempt numbers of the calls, in order. *)
Fixpoint attempt_numbers {T} (l : list (Event T)) : list Z :=
  match l with
  | [] => []
  | Invoked n _ _ :: rest => n :: attempt_numbers rest
  | Waited _ _ _ :: rest => attempt_numbers rest
  end.

(** The [k] numbers from [a] on. *)
Fixpoint count_from (a : Z) (k : nat) : list Z :=
  match k with
  | O => []
  | S k' => a :: count_from (a + 1) k'
  end.

(** The time spent waiting on timers. *)
Fixpoint total_wait (ws : list (Z * Q)) : Q :=
  match ws with
  | [] => 0
  | (_, ms) :: rest => ms + total_wait rest
  end.

(** What the loop makes of the promise of the call it stops at. *)
Definition surfaced {T} (settled : Settled T) : Settled T :=
  match settled with
  | Fulfilled v => Fulfilled v
  | Rejected Undefined =>
      Rejected (Obj (TypeError
        "Cannot read properties of undefined (reading 'message')"))
  | Rejected (Obj e) => Rejected (Obj e)
  end.

(** The call was overloaded. *)
Definition is_overloaded_call {T} (ev : Event T) : bool :=
  match ev with
  | Invoked _ _ (Rejected (Obj e)) => overload e
  | _ => false
  end.

(** What [mockApiCall] rejects with when its listener runs. *)
Definition requestAborted : Error :=
  newDOMException "Request aborted" "AbortError".

End ApiLog.

(* ================================================================= *)
(** ** FileUpload: handleFile *)

Module FileUpload.
Import Js ImageUtils.
Local Open Scope string_scope.

(** The calls [handleFile] makes on the state of the component and on its
    [onImageUpload] property; a data URL is represented by its length, as
    in [downscaleImage]. *)
Inductive Call : Type :=
| SetError (error : option string)
| SetProcessing (processing : bool)
| OnImageUpload (dataUrl : Z).

(** The truth value of [validationError] in [if (validationError)]. *)
Definition truthy (validationError : option string) : bool :=
  match validationError with
  | None => false
  | Some EmptyString => false
  | Some _ => true
  end.

Section WithInstanceOf.

(** [err instanceof Error], which the thrown objects of this development
    do not record; [undefined] is no instance. *)
Variable instanceofError : Error -> bool.

Definition errorMessage (err : Thrown) (fallback : string) : option string :=
  match err with
  | Obj e => if instanceofError e then message e else Some fallback
  | Undefined => Some fallback
  end.

(** [handleFile file]; [b] is what the browser does with the file when
    [downscaleImage] is called. *)
Definition handleFile (file : File) (b : Browser) : list Call :=
  let validationError := validateImageFile file in
  if truthy validationError then [SetError validationError]
  else
    [SetError None; SetProcessing true]
    ++ match snd (downscaleImage b MAX_IMAGE_DIMENSION) with
       | Fulfilled dataUrl => [OnImageUpload dataUrl]
       | Rejected err =>
           [SetError
              (errorMessage err "Failed to process image. Please try again.")]
       end
    ++ [SetProcessing false].

End WithInstanceOf.

End FileUpload.

(* ================================================================= *)
(** * Properties *)

(** ** imageUtils *)

Module ImageUtilsSpec.
Import Js ImageUtils.
Local Open Scope Z_scope.

(** *** [Math.round] *)

Lemma Math_round_near (x : Q) :
  (Qabs (inject_Z (Math_round x) - x) <= 1 # 2)%Q.
Proof.
  unfold Math_round.
  pose proof (Qfloor_le (x + (1 # 2))) as Hlo.
  pose proof (Qlt_floor (x + (1 # 2))) as Hhi.
  rewrite inject_Z_plus in Hhi. change (inject_Z 1) with 1%Q in Hhi.
  set (k := inject_Z (Qfloor (x + (1 # 2)))) in *.
  apply Qabs_Qle_condition. split; lra.
Qed.

Lemma Math_round_le (x : Q) (n : Z) :
  (x <= inject_Z n)%Q -> Math_round x <= n.
Proof.
  intros Hx. unfold Math_round.
  assert (Hn : Qfloor (inject_Z n + (1 # 2)) = n).
  { pose proof (Qfloor_le (inject_Z n + (1 # 2))) as Hlo.
    pose proof (Qlt_floor (inject_Z n + (1 # 2))) as Hhi.
    set (k := Qfloor (inject_Z n + (1 # 2))) in *.
    rewrite inject_Z_plus in Hhi. change (inject_Z 1) with 1%Q in Hhi.
    assert (H1 : (inject_Z k < inject_Z (n + 1))%Q)
      by (rewrite inject_Z_plus; change (inject_Z 1) with 1%Q; lra).
    assert (H2 : (inject_Z n < inject_Z (k + 1))%Q)
      by (rewrite inject_Z_plus; change (inject_Z 1) with 1%Q; lra).
    rewrite <- Zlt_Qlt in H1, H2. lia. }
  rewrite <- Hn. apply Qfloor_resp_le. lra.
Qed.

(** Scaling the shorter edge by [maxDim / longer] stays below [maxDim]. *)
Lemma scaled_le (maxDim short long : Z) :
  0 <= maxDim -> 0 < long -> short <= long ->
  (inject_Z maxDim * inject_Z short / inject_Z long <= inject_Z maxDim)%Q.
Proof.
  intros Hm Hl Hs.
  apply Qle_shift_div_r.
  - rewrite Zlt_Qlt in Hl. exact Hl.
  - rewrite <- !inject_Z_mult, <- Zle_Qle. nia.
Qed.

(** *** [targetDimensions] *)

Lemma targetDimensions_within (w h maxDim : Z) :
  w <= maxDim -> h <= maxDim -> targetDimensions w h maxDim = (w, h).
Proof.
  intros Hw Hh. unfold targetDimensions.
  destruct (Z.gtb_spec w maxDim); [ lia | ].
  destruct (Z.gtb_spec h maxDim); [ lia | ]. reflexivity.
Qed.

Lemma targetDimensions_landscape (w h maxDim : Z) :
  0 < h -> h < w -> maxDim < w -> 0 <= maxDim ->
  exists nh,
    targetDimensions w h maxDim = (maxDim, nh) /\ nh <= maxDim /\
    (Qabs (inject_Z nh - inject_Z maxDim * inject_Z h / inject_Z w) <= 1 # 2)%Q.
Proof.
  intros Hh Hwh Hw Hm. unfold targetDimensions.
  destruct (Z.gtb_spec w maxDim); [ | lia ]. cbn [orb].
  destruct (Z.gtb_spec w h); [ | lia ].
  assert (Hq : (inject_Z maxDim / (inject_Z w / inject_Z h)
                == inject_Z maxDim * inject_Z h / inject_Z w)%Q).
  { assert (~ (inject_Z w == 0)%Q)
      by (intros E; apply (inject_Z_injective w 0) in E; lia).
    assert (~ (inject_Z h == 0)%Q)
      by (intros E; apply (inject_Z_injective h 0) in E; lia).
    field. split; assumption. }
  eexists. split; [ reflexivity | ]. split.
  - apply Math_round_le. rewrite Hq. apply scaled_le; lia.
  - pose proof (Math_round_near
                  (inject_Z maxDim / (inject_Z w / inject_Z h))) as Hn.
    apply Qabs_diff_Qle_condition. apply Qabs_diff_Qle_condition in Hn.
    destruct Hn as [Hn1 Hn2]. split; lra.
Qed.

Lemma targetDimensions_portrait (w h maxDim : Z) :
  0 < w -> w <= h -> maxDim < h -> 0 <= maxDim ->
  exists nw,
    targetDimensions w h maxDim = (nw, maxDim) /\ nw <= maxDim /\
    (Qabs (inject_Z nw - inject_Z maxDim * inject_Z w / inject_Z h) <= 1 # 2)%Q.
Proof.
  intros Hw Hwh Hh Hm. unfold targetDimensions.
  destruct (Z.gtb_spec h maxDim); [ | lia ]. rewrite orb_true_r.
  destruct (Z.gtb_spec w h); [ lia | ].
  assert (Hq : (inject_Z maxDim * (inject_Z w / inject_Z h)
                == inject_Z maxDim * inject_Z w / inject_Z h)%Q).
  { assert (~ (inject_Z h == 0)%Q)
      by (intros E; apply (inject_Z_injective h 0) in E; lia).
    field. assumption. }
  eexists. split; [ reflexivity | ]. split.
  - apply Math_round_le. rewrite Hq. apply scaled_le; lia.
  - pose proof (Math_round_near
                  (inject_Z maxDim * (inject_Z w / inject_Z h))) as Hn.
    apply Qabs_diff_Qle_condition. apply Qabs_diff_Qle_condition in Hn.
    destruct Hn as [Hn1 Hn2]. split; lra.
Qed.

(** When the promise is fulfilled the canvas has the target dimensions. *)
Lemma downscaleImage_fulfilled (b : Browser) (maxDim : Z) (c : Canvas) (url : Z) :
  downscaleImage b maxDim = (c, Fulfilled url) ->
  exists w h, decoded b = Some (w, h) /\
              targetDimensions w h maxDim = (width c, height c).
Proof.
  unfold downscaleImage. intros H.
  destruct (hasContext b); cbn [negb] in H; [ | discriminate ].
  destruct (decoded b) as [[w h] | ]; [ | discriminate ].
  exists w, h. split; [ reflexivity | ].
  destruct (targetDimensions w h maxDim) as [nw nh].
  destruct (Qgt_bool _ _); inversion H; reflexivity.
Qed.

(** *** [validateImageFile] *)

Lemma matches_image_type_spec (s : string) :
  matches_image_type s = true <->
  s = "image/png"%string \/ s = "image/jpeg"%string \/ s = "image/jpg"%string.
Proof.
  unfold matches_image_type. cbn [existsb].
  rewrite !orb_true_iff, !String.eqb_eq. cbn. intuition discriminate.
Qed.

(** C9, as amended.  [validateImageFile] returns [null] exactly for the
    files whose type is [image/png], [image/jpeg] or [image/jpg] and whose
    size is at most 10 MiB, the ceiling included; every other file gets a
    message. *)
Theorem validateImageFile_accepts (file : File) :
  (validateImageFile file = None <->
   (type file = "image/png"%string \/ type file = "image/jpeg"%string \/
    type file = "image/jpg"%string) /\
   size file <= 10 * 1024 * 1024) /\
  (validateImageFile file = None \/
   validateImageFile file = Some "Please upload a PNG or JPG file"%string \/
   validateImageFile file = Some "File size must be less than 10MB"%string).
Proof.
  split.
  - rewrite <- matches_image_type_spec. unfold validateImageFile.
    change (10 * 1024 * 1024) with MAX_FILE_SIZE.
    destruct (matches_image_type (type file)); cbn [negb].
    + destruct (Z.gtb_spec (size file) MAX_FILE_SIZE); split;
        try discriminate; try lia; intuition.
    + split; [ discriminate | intros [H _]; discriminate ].
  - unfold validateImageFile.
    destruct (matches_image_type (type file)); cbn [negb]; [ | auto ].
    destruct (size file >? MAX_FILE_SIZE); auto.
Qed.

Lemma validateImageFile_accepts_witness :
  validateImageFile (mkFile "image/jpeg" (10 * 1024 * 1024)) = None.
Proof.
  apply (proj1 (validateImageFile_accepts
                  (mkFile "image/jpeg" (10 * 1024 * 1024)))).
  split; [ right; left; reflexivity | cbn; lia ].
Defined.

(** C9, as stated, fails at the ceiling: a PNG file of exactly 10485760
    bytes is not under the ceiling and is accepted all the same. *)
Lemma validateImageFile_accepts_counterexample :
  ~ (forall file : File,
        validateImageFile file = None <->
        matches_image_type (type file) = true /\ size file < MAX_FILE_SIZE).
Proof.
  intros H.
  destruct (H (mkFile "image/png" 10485760)) as [Hacc _].
  specialize (Hacc eq_refl). destruct Hacc as [_ Hsize].
  cbn in Hsize. discriminate Hsize.
Qed.

(** C8.  For an image of positive dimensions whose downscaling succeeds: if
    the longer edge is at most 1920 the canvas has the dimensions of the
    image; if it is longer, the longer edge of the canvas is exactly 1920,
    on the axis on which the image is longer, and the other edge differs
    from the exactly scaled one by at most one pixel. *)
Theorem downscaleImage_output_dimensions
    (b : Browser) (w h : Z) (c : Canvas) (url : Z) :
  0 < w -> 0 < h ->
  decoded b = Some (w, h) ->
  downscaleImage b MAX_IMAGE_DIMENSION = (c, Fulfilled url) ->
  (Z.max w h <= 1920 -> width c = w /\ height c = h) /\
  (1920 < Z.max w h ->
   Z.max (width c) (height c) = 1920 /\
   (h < w ->
    width c = 1920 /\
    (Qabs (inject_Z (height c) - 1920 * inject_Z h / inject_Z w) <= 1)%Q) /\
   (w <= h ->
    height c = 1920 /\
    (Qabs (inject_Z (width c) - 1920 * inject_Z w / inject_Z h) <= 1)%Q)).
Proof.
  intros Hw Hh Hdec Hrun.
  destruct (downscaleImage_fulfilled _ _ Hrun) as (w' & h' & Hdec' & Hdim).
  rewrite Hdec in Hdec'. inversion Hdec'; subst w' h'. clear Hdec'.
  unfold MAX_IMAGE_DIMENSION in Hdim. split.
  - intros Hmax. rewrite targetDimensions_within in Hdim by lia.
    inversion Hdim. split; reflexivity.
  - intros Hmax. destruct (Z.lt_ge_cases h w) as [Hlt | Hge].
    + destruct (targetDimensions_landscape (w:=w) (h:=h) (maxDim:=1920))
        as (nh & E & Hle & Hnear); try lia.
      rewrite E in Hdim. inversion Hdim. subst.
      split; [ lia | ]. split; [ | intros; lia ].
      intros _. split; [ reflexivity | ].
      eapply Qle_trans; [ exact Hnear | ]. discriminate.
    + destruct (targetDimensions_portrait (w:=w) (h:=h) (maxDim:=1920))
        as (nw & E & Hle & Hnear); try lia.
      rewrite E in Hdim. inversion Hdim. subst.
      split; [ lia | ]. split; [ intros; lia | ].
      intros _. split; [ reflexivity | ].
      eapply Qle_trans; [ exact Hnear | ]. discriminate.
Qed.

Lemma downscaleImage_output_dimensions_witness :
  (Z.max 5000 3000 <= 1920 -> 1920 = 5000 /\ 1152 = 3000) /\
  (1920 < Z.max 5000 3000 ->
   Z.max 1920 1152 = 1920 /\
   (3000 < 5000 ->
    1920 = 1920 /\
    (Qabs (inject_Z 1152 - 1920 * inject_Z 3000 / inject_Z 5000) <= 1)%Q) /\
   (5000 <= 3000 ->
    1152 = 1920 /\
    (Qabs (inject_Z 1920 - 1920 * inject_Z 5000 / inject_Z 3000) <= 1)%Q)).
Proof.
  apply (@downscaleImage_output_dimensions
           (mkBrowser true (Some (5000, 3000)) (fun _ => 1000))
           5000 3000 (mkCanvas 1920 1152) 1000);
    [ lia | lia | reflexivity | reflexivity ].
Defined.

End ImageUtilsSpec.

(** ** storageUtils *)

Module StorageUtilsSpec.
Import Js StorageUtils.
Local Open Scope string_scope.
Local Open Scope nat_scope.

(** *** What is written *)

(** Induction on a value, with the property at hand for the elements of an
    array and for the values of the properties of an object. *)
Lemma Json_nested_ind (P : Json -> Prop) :
  P JNull ->
  (forall b, P (JBool b)) ->
  (forall n, P (JNumber n)) ->
  (forall s, P (JString s)) ->
  (forall items, Forall P items -> P (JArray items)) ->
  (forall fields, Forall (fun kv => P (snd kv)) fields -> P (JObject fields)) ->
  forall j, P j.
Proof.
  intros Hnull Hbool Hnum Hstr Harr Hobj.
  fix IH 1. intros [ | b | n | s | items | fields].
  - exact Hnull.
  - apply Hbool.
  - apply Hnum.
  - apply Hstr.
  - apply Harr. induction items as [ | it rest IHl]; constructor;
      [ apply IH | exact IHl ].
  - apply Hobj. induction fields as [ | [k v] rest IHl]; constructor;
      [ apply IH | exact IHl ].
Qed.

(** Writing what has been written changes nothing more. *)
Lemma written_idempotent (j : Json) : written (written j) = written j.
Proof.
  induction j as [ | b | n | s | items IH | fields IH] using Json_nested_ind.
  - reflexivity.
  - reflexivity.
  - destruct n as [q | | negative]; reflexivity.
  - reflexivity.
  - cbn [written]. f_equal. rewrite map_map.
    induction IH as [ | it rest Hit _ IHrest]; [ reflexivity | ].
    cbn [map]. rewrite Hit, IHrest. reflexivity.
  - cbn [written]. f_equal. rewrite map_map.
    induction IH as [ | [k v] rest Hv _ IHrest]; [ reflexivity | ].
    cbn [map snd] in *. rewrite Hv, IHrest. reflexivity.
Qed.

Lemma map_written_idempotent (items : list Json) :
  map written (map written items) = map written items.
Proof.
  rewrite map_map.
  apply (map_ext (fun it => written (written it)) written).
  intros it. apply written_idempotent.
Qed.

(** A generation is written as it is. *)
Lemma written_toJson (g : Generation) : written (toJson g) = toJson g.
Proof. reflexivity. Qed.

Lemma map_written_toJson (gs : list Generation) :
  map written (map toJson gs) = map toJson gs.
Proof.
  rewrite map_map.
  apply (map_ext (fun g => written (toJson g)) toJson).
  intros g. apply written_toJson.
Qed.

Lemma lookup_written (key : string) (fields : list (string * Json)) :
  lookup key (map (fun '(k, v) => (k, written v)) fields)
  = option_map written (lookup key fields).
Proof.
  induction fields as [ | [k v] rest IH]; [ reflexivity | ].
  cbn [map lookup]. destruct (String.eqb k key); [ reflexivity | exact IH ].
Qed.

(** Writing an element does not change whether its [id] is a given
    string. *)
Lemma strict_neq_written (i : string) (it : Json) :
  strict_neq (id_of (written it)) i = strict_neq (id_of it) i.
Proof.
  destruct it as [ | b | n | s | items | fields]; try reflexivity.
  - destruct n as [q | | negative]; reflexivity.
  - cbn [written id_of]. rewrite lookup_written.
    destruct (lookup "id" fields) as [v | ]; [ | reflexivity ].
    destruct v as [ | b | n | s | items | fields']; try reflexivity.
    destruct n as [q | | negative]; reflexivity.
Qed.

Lemma has_id_written (i : string) (it : Json) :
  has_id i (written it) = has_id i it.
Proof. unfold has_id. rewrite strict_neq_written. reflexivity. Qed.

(** A filter that does not tell an element from the element as it is
    written can be run before the writing or after it. *)
Lemma filter_map_written (p : Json -> bool) (items : list Json) :
  (forall it, p (written it) = p it) ->
  filter p (map written items) = map written (filter p items).
Proof.
  intros Hp. induction items as [ | it rest IH]; [ reflexivity | ].
  cbn [map filter]. rewrite Hp.
  destruct (p it); cbn [map]; rewrite IH; reflexivity.
Qed.

Lemma existsb_map (A B : Type) (p : B -> bool) (f : A -> B) (l : list A) :
  existsb p (map f l) = existsb (fun x => p (f x)) l.
Proof.
  induction l as [ | x rest IH]; [ reflexivity | ].
  cbn [map existsb]. rewrite IH. reflexivity.
Qed.

(** The elements that are [null] once the array is written. *)
Lemma is_null_map_written (items : list Json) :
  existsb is_null (map written items) = existsb writes_null items.
Proof. exact (existsb_map is_null written items). Qed.

Lemma writes_null_written (it : Json) :
  writes_null (written it) = writes_null it.
Proof. unfold writes_null. rewrite written_idempotent. reflexivity. Qed.

Lemma writes_null_map_written (items : list Json) :
  existsb writes_null (map written items) = existsb writes_null items.
Proof.
  rewrite existsb_map.
  induction items as [ | it rest IH]; [ reflexivity | ].
  cbn [existsb]. rewrite writes_null_written, IH. reflexivity.
Qed.

Lemma is_null_writes_null (it : Json) :
  is_null it = true -> writes_null it = true.
Proof. destruct it; try discriminate. reflexivity. Qed.

Lemma no_writes_null_no_null (items : list Json) :
  existsb writes_null items = false -> existsb is_null items = false.
Proof.
  induction items as [ | it rest IH]; [ reflexivity | ].
  cbn [existsb]. intros H. apply orb_false_iff in H. destruct H as [Hit Hrest].
  rewrite (IH Hrest), orb_false_r.
  destruct (is_null it) eqn:E; [ | reflexivity ].
  rewrite (is_null_writes_null _ E) in Hit. discriminate Hit.
Qed.

Lemma existsb_filter_false (A : Type) (p f : A -> bool) (l : list A) :
  existsb p l = false -> existsb p (filter f l) = false.
Proof.
  induction l as [ | x rest IH]; intros Hn; [ reflexivity | ].
  cbn [existsb] in Hn. apply orb_false_iff in Hn. destruct Hn as [Hx Hrest].
  cbn [filter]. destruct (f x); cbn [existsb]; rewrite ?Hx; cbn [orb]; auto.
Qed.

Lemma existsb_firstn_false (A : Type) (p : A -> bool) (n : nat) (l : list A) :
  existsb p l = false -> existsb p (firstn n l) = false.
Proof.
  revert n. induction l as [ | x rest IH]; intros [ | n] Hn; try reflexivity.
  cbn [existsb] in Hn. apply orb_false_iff in Hn. destruct Hn as [Hx Hrest].
  cbn [firstn existsb]. rewrite Hx. cbn [orb]. apply IH, Hrest.
Qed.

(** *** Reading the history *)

(** [getHistory] always returns, and touches nothing but the console. *)
Lemma getHistory_returns (s : Store) :
  exists j s',
    getHistory s = (Normal j, s') /\
    item s' = item s /\ accessDenied s' = accessDenied s /\
    quotaExceeded s' = quotaExceeded s.
Proof.
  unfold getHistory, try_catch, bind, localStorage_getItem.
  destruct (accessDenied s) eqn:Ha.
  - eexists _, _. split; [ reflexivity | ]. cbn. auto.
  - destruct (item s) as [[ | | j] | ] eqn:Hi; cbn;
      (eexists _, _; split; [ reflexivity | cbn; auto ]).
Qed.

(** With access to the storage area, [getHistory] returns the array that
    [history_of] reads from the stored value. *)
Lemma getHistory_reads (s : Store) (items : list Json) :
  accessDenied s = false ->
  history_of (item s) = Some items ->
  exists s',
    getHistory s = (Normal (JArray items), s') /\
    item s' = item s /\ accessDenied s' = accessDenied s /\
    quotaExceeded s' = quotaExceeded s.
Proof.
  intros Ha Hh.
  unfold getHistory, try_catch, bind, localStorage_getItem. rewrite Ha.
  destruct (item s) as [[ | | j] | ] eqn:Hi; cbn in Hh |- *.
  - inversion Hh; subst. eexists. split; [ reflexivity | cbn; auto ].
  - inversion Hh; subst. eexists. split; [ reflexivity | cbn; auto ].
  - destruct j; try discriminate. inversion Hh; subst.
    eexists. split; [ reflexivity | cbn; auto ].
  - inversion Hh; subst. eexists. split; [ reflexivity | cbn; auto ].
Qed.

(** What [getHistory] returns as an array is what [history_of] reads. *)
Lemma getHistory_array (s s' : Store) (items : list Json) :
  accessDenied s = false ->
  getHistory s = (Normal (JArray items), s') ->
  history_of (item s) = Some items.
Proof.
  intros Ha. unfold getHistory, try_catch, bind, localStorage_getItem.
  rewrite Ha.
  destruct (item s) as [[ | | j] | ]; cbn; intros E; inversion E;
    reflexivity.
Qed.

(** With access, a stored value that parses is returned as it is. *)
Lemma getHistory_parsed (s : Store) (j : Json) :
  accessDenied s = false ->
  item s = Some (Encodes j) ->
  getHistory s = (Normal j, s).
Proof.
  intros Ha Hi.
  unfold getHistory, try_catch, bind, localStorage_getItem.
  rewrite Ha, Hi. reflexivity.
Qed.

(** *** The two filters *)

(** On elements that are not [null] the callback of the two filters does
    not throw, and the filter is the filter of lists. *)
Lemma filter_items_no_null (i : string) (items : list Json) (s : Store) :
  existsb is_null items = false ->
  filter_items (fun it => v <- get_id it ;; ret (strict_neq v i)) items s
  = (Normal (filter (fun it => strict_neq (id_of it) i) items), s).
Proof.
  induction items as [ | it rest IH]; intros Hn; [ reflexivity | ].
  cbn [existsb] in Hn. apply orb_false_iff in Hn. destruct Hn as [Hit Hrest].
  cbn [filter_items filter]. unfold bind at 1.
  destruct it; try discriminate; cbn;
    unfold bind at 1; rewrite (IH Hrest); reflexivity.
Qed.

(** On an array that holds [null] the filter throws, and leaves the store
    alone. *)
Lemma filter_items_null (i : string) (items : list Json) (s : Store) :
  existsb is_null items = true ->
  exists e,
    filter_items (fun it => v <- get_id it ;; ret (strict_neq v i)) items s
    = (Throw e, s).
Proof.
  induction items as [ | it rest IH]; intros Hn; [ discriminate Hn | ].
  cbn [existsb] in Hn. cbn [filter_items]. unfold bind at 1.
  destruct it; cbn in Hn |- *;
    try (destruct (IH Hn) as [e E]; unfold bind at 1; rewrite E;
         exists e; reflexivity).
  eexists. reflexivity.
Qed.

(** The filters leave the store alone. *)
Lemma filter_items_store (i : string) (items : list Json) (s : Store) :
  snd (filter_items (fun it => v <- get_id it ;; ret (strict_neq v i)) items s)
  = s.
Proof.
  induction items as [ | it rest IH]; [ reflexivity | ].
  cbn [filter_items]. unfold bind at 1.
  destruct it; cbn; try reflexivity; unfold bind at 1;
    destruct (filter_items _ rest s) as [[kept | e] s'] eqn:E;
    cbn in IH |- *; subst; reflexivity.
Qed.

(** A filter that returns has kept what the filter of lists keeps. *)
Lemma filter_items_normal (i : string) (items kept : list Json) (s s' : Store) :
  filter_items (fun it => v <- get_id it ;; ret (strict_neq v i)) items s
  = (Normal kept, s') ->
  kept = filter (fun it => strict_neq (id_of it) i) items.
Proof.
  revert kept. induction items as [ | it rest IH]; intros kept E.
  - inversion E. reflexivity.
  - cbn [filter_items] in E. unfold bind at 1 in E.
    destruct it; cbn in E; try discriminate;
      unfold bind at 1 in E;
      destruct (filter_items _ rest s) as [[k | e] s2] eqn:E2;
      try discriminate; cbn in E; inversion E; subst;
      cbn [filter id_of]; rewrite <- (IH k eq_refl); reflexivity.
Qed.

(** No element that the filter keeps, and none of the first [n] of them,
    carries the identifier filtered out. *)
Lemma no_id_left (i : string) (n : nat) (items : list Json) :
  filter (has_id i)
    (firstn n (filter (fun it => strict_neq (id_of it) i) items)) = [].
Proof.
  revert n. induction items as [ | it rest IH]; intros n.
  - cbn. rewrite firstn_nil. reflexivity.
  - cbn [filter]. destruct (strict_neq (id_of it) i) eqn:E; [ | apply IH ].
    destruct n as [ | n]; [ reflexivity | ].
    cbn [firstn filter]. unfold has_id at 1. rewrite E. cbn [negb]. apply IH.
Qed.

Lemma has_id_toJson (g : Generation) : has_id (id g) (toJson g) = true.
Proof.
  unfold has_id, toJson, id_of. cbn. rewrite String.eqb_refl. reflexivity.
Qed.

(** *** What one record computes *)

Lemma recorded_length (g : Generation) (items : list Json) :
  length (recorded g items) <= MAX_HISTORY_ITEMS.
Proof.
  unfold recorded, MAX_HISTORY_ITEMS. cbn [length].
  pose proof (firstn_le_length (5 - 1)
    (filter (fun it => strict_neq (id_of it) (id g)) items)). cbn in *. lia.
Qed.

Lemma recorded_no_writes_null (g : Generation) (items : list Json) :
  existsb writes_null items = false ->
  existsb writes_null (recorded g items) = false.
Proof.
  intros Hn. unfold recorded. cbn [existsb]. rewrite orb_false_iff.
  split; [ reflexivity | ].
  apply existsb_firstn_false, existsb_filter_false, Hn.
Qed.

(** What [saveGeneration] records holds the identifier of the generation
    once, at the front; and so does the array as it is written. *)
Lemma recorded_single (g : Generation) (items : list Json) :
  filter (has_id (id g)) (recorded g items) = [toJson g].
Proof.
  unfold recorded. cbn [filter]. rewrite has_id_toJson.
  rewrite no_id_left. reflexivity.
Qed.

Lemma written_recorded_single (g : Generation) (items : list Json) :
  filter (has_id (id g)) (map written (recorded g items)) = [toJson g].
Proof.
  rewrite filter_map_written by (intros it; apply has_id_written).
  rewrite recorded_single. reflexivity.
Qed.

(** *** Recording *)

(** With a working storage layer and a stored array, [saveGeneration]
    leaves the stored value alone when the array holds [null], and stores
    the array [recorded] computes, as it is written, when it holds none. *)
Lemma saveGeneration_working (g : Generation) (s : Store) (items : list Json) :
  working s ->
  history_of (item s) = Some items ->
  exists s',
    saveGeneration g s = (Normal tt, s') /\
    working s' /\
    item s' = if existsb is_null items then item s
              else Some (Encodes (JArray (map written (recorded g items)))).
Proof.
  intros [Ha Hq] Hh.
  destruct (getHistory_reads s Ha Hh) as (s1 & E1 & Hi1 & Ha1 & Hq1).
  unfold saveGeneration, try_catch. unfold bind at 1. rewrite E1.
  unfold bind at 1. unfold Array_filter.
  destruct (existsb is_null items) eqn:Hn.
  - destruct (filter_items_null (id g) items s1 Hn) as [e E]. rewrite E.
    eexists. split; [ reflexivity | ].
    cbn [console_error item accessDenied quotaExceeded].
    split; [ | exact Hi1 ].
    split; [ cbn; congruence | ].
    intros t. cbn [quotaExceeded]. rewrite Hq1. apply Hq.
  - rewrite (filter_items_no_null _ _ _ Hn).
    unfold localStorage_setItem, JSON_stringify. rewrite Ha1, Ha, Hq1, Hq.
    eexists. split; [ reflexivity | ]. cbn [item accessDenied quotaExceeded].
    split; [ split; [ reflexivity | exact Hq ] | reflexivity ].
Qed.

Lemma saveGeneration_records (g : Generation) (s : Store) (items : list Json) :
  working s ->
  history_of (item s) = Some items ->
  existsb is_null items = false ->
  exists s',
    saveGeneration g s = (Normal tt, s') /\
    item s' = Some (Encodes (JArray (map written (recorded g items)))) /\
    working s'.
Proof.
  intros Hw Hh Hn.
  destruct (saveGeneration_working g Hw Hh) as (s' & E & Hw' & Hi).
  rewrite Hn in Hi. exists s'. auto.
Qed.

(** Whatever the store and the storage layer, a call of [saveGeneration]
    returns; it either leaves the stored value as it is and reports on the
    console, or stores an array of at most [MAX_HISTORY_ITEMS] elements that
    starts with the new generation. *)
Lemma saveGeneration_outcome (g : Generation) (s : Store) :
  exists s',
    saveGeneration g s = (Normal tt, s') /\
    accessDenied s' = accessDenied s /\ quotaExceeded s' = quotaExceeded s /\
    ((item s' = item s /\
      exists pre e,
        console s' =
        (pre ++ [("Failed to save generation to localStorage:", e)])%list)
     \/
     exists rest,
       item s' = Some (Encodes (JArray (toJson g :: rest))) /\
       length (toJson g :: rest) <= MAX_HISTORY_ITEMS).
Proof.
  destruct (getHistory_returns s) as (j & s1 & E1 & Hi1 & Ha1 & Hq1).
  unfold saveGeneration, try_catch, bind. rewrite E1.
  assert (Hfail : forall e,
    exists s',
      console_error "Failed to save generation to localStorage:" e s1
      = (Normal tt, s') /\
      accessDenied s' = accessDenied s /\ quotaExceeded s' = quotaExceeded s /\
      ((item s' = item s /\
        exists pre e0,
          console s' =
          (pre ++ [("Failed to save generation to localStorage:", e0)])%list)
       \/
       exists rest,
         item s' = Some (Encodes (JArray (toJson g :: rest))) /\
         length (toJson g :: rest) <= MAX_HISTORY_ITEMS)).
  { intros e. eexists. split; [ reflexivity | ]. cbn.
    split; [ exact Ha1 | ]. split; [ exact Hq1 | ]. left.
    split; [ exact Hi1 | ]. eexists _, _. reflexivity. }
  destruct j; try apply Hfail.
  unfold Array_filter.
  pose proof (filter_items_store (id g) items s1) as Hs.
  destruct (filter_items _ items s1) as [[kept | e] s2]; cbn in Hs; subst s2;
    [ | apply Hfail ].
  unfold localStorage_setItem, JSON_stringify.
  destruct (accessDenied s1); [ apply Hfail | ].
  destruct (quotaExceeded s1 _); [ apply Hfail | ].
  eexists. split; [ reflexivity | ]. cbn [accessDenied quotaExceeded item].
  split; [ exact Ha1 | ]. split; [ exact Hq1 | ]. right.
  exists (map written (slice0 (MAX_HISTORY_ITEMS - 1) kept)).
  split; [ reflexivity | ].
  unfold slice0, MAX_HISTORY_ITEMS. cbn [length]. rewrite length_map.
  pose proof (firstn_le_length (5 - 1) kept). cbn in *. lia.
Qed.

(** [clearHistory] and [removeFromHistory] return as well. *)
Lemma clearHistory_outcome (s : Store) :
  exists s',
    clearHistory s = (Normal tt, s') /\
    accessDenied s' = accessDenied s /\ quotaExceeded s' = quotaExceeded s /\
    (item s' = None \/
     item s' = item s /\
     exists pre e, console s' = (pre ++ [("Failed to clear history:", e)])%list).
Proof.
  unfold clearHistory, try_catch, localStorage_removeItem.
  destruct (accessDenied s) eqn:Ha; eexists; (split; [ reflexivity | ]);
    cbn [accessDenied quotaExceeded item console_error];
    (split; [ auto | ]); (split; [ reflexivity | ]).
  - right. cbn. split; [ reflexivity | ]. eexists _, _. reflexivity.
  - left. reflexivity.
Qed.

(** Whatever the store, [removeFromHistory] returns, and what it leaves
    stored is what was stored or the filtered array it read, as it is
    written. *)
Lemma removeFromHistory_outcome (i : string) (s : Store) :
  exists s',
    removeFromHistory i s = (Normal tt, s') /\
    accessDenied s' = accessDenied s /\ quotaExceeded s' = quotaExceeded s /\
    ((exists old,
        history_of (item s) = Some old /\
        item s' = Some (Encodes (JArray
                    (map written
                       (filter (fun it => strict_neq (id_of it) i) old)))))
     \/
     item s' = item s /\
     exists pre e,
       console s' =
       (pre ++ [("Failed to remove item from history:", e)])%list).
Proof.
  destruct (getHistory_returns s) as (j & s1 & E1 & Hi1 & Ha1 & Hq1).
  unfold removeFromHistory, try_catch, bind. rewrite E1.
  assert (Hfail : forall e,
    exists s',
      console_error "Failed to remove item from history:" e s1
      = (Normal tt, s') /\
      accessDenied s' = accessDenied s /\ quotaExceeded s' = quotaExceeded s /\
      ((exists old,
          history_of (item s) = Some old /\
          item s' = Some (Encodes (JArray
                      (map written
                         (filter (fun it => strict_neq (id_of it) i) old)))))
       \/
       item s' = item s /\
       exists pre e0,
         console s' =
         (pre ++ [("Failed to remove item from history:", e0)])%list)).
  { intros e. eexists. split; [ reflexivity | ]. cbn.
    split; [ exact Ha1 | ]. split; [ exact Hq1 | ]. right.
    split; [ exact Hi1 | ]. eexists _, _. reflexivity. }
  destruct j; try apply Hfail.
  unfold Array_filter.
  pose proof (filter_items_store i items s1) as Hs.
  destruct (filter_items _ items s1) as [[kept | e] s2] eqn:Ef;
    cbn in Hs; subst s2; [ | apply Hfail ].
  apply filter_items_normal in Ef. subst kept.
  unfold localStorage_setItem, JSON_stringify.
  destruct (accessDenied s1) eqn:Had; [ apply Hfail | ].
  destruct (quotaExceeded s1 _); [ apply Hfail | ].
  eexists. split; [ reflexivity | ]. cbn [accessDenied quotaExceeded item].
  split; [ exact Ha1 | ]. split; [ exact Hq1 | ]. left.
  exists items. split; [ | reflexivity ].
  eapply getHistory_array; [ | exact E1 ]. congruence.
Qed.

(** On a stored value that parses to something that is no array, a record
    fails in [filter], reports on the console, and writes nothing. *)
Lemma saveGeneration_no_array (g : Generation) (s : Store) (j : Json) :
  working s ->
  item s = Some (Encodes j) ->
  (forall items, j <> JArray items) ->
  exists s' e,
    saveGeneration g s = (Normal tt, s') /\
    working s' /\ item s' = item s /\
    console s' =
    (console s ++ [("Failed to save generation to localStorage:", e)])%list.
Proof.
  intros [Ha Hq] Hi Hj.
  unfold saveGeneration, try_catch. unfold bind at 1.
  rewrite (getHistory_parsed s Ha Hi). unfold bind at 1.
  destruct j as [ | b | n | str | items | fields];
    try (eexists _, _; split; [ reflexivity | ]; cbn;
         split; [ split; [ exact Ha | exact Hq ] | split; reflexivity ]).
  exfalso. exact (Hj items eq_refl).
Qed.

Lemma saveAll_no_array (gs : list Generation) (s : Store) (j : Json) :
  working s ->
  item s = Some (Encodes j) ->
  (forall items, j <> JArray items) ->
  fst (saveAll gs s) = Normal tt /\
  item (snd (saveAll gs s)) = item s /\
  length (console (snd (saveAll gs s))) = length (console s) + length gs.
Proof.
  revert s. induction gs as [ | g rest IH]; intros s Hw Hi Hj.
  - cbn. auto.
  - destruct (saveGeneration_no_array g Hw Hi Hj)
      as (s' & e & E & Hw' & Hi' & Hc').
    cbn [saveAll]. unfold bind. rewrite E.
    assert (Hi2 : item s' = Some (Encodes j)) by congruence.
    destruct (IH s' Hw' Hi2 Hj) as (H1 & H2 & H3).
    split; [ exact H1 | ]. split; [ congruence | ].
    rewrite H3, Hc', length_app. cbn [length]. lia.
Qed.

(** *** The claims *)

(** C5.  [saveGeneration] does not recover from a stored value that parses
    to something that is no array: [getHistory] hands the value on as it
    is, [filter] throws, the catch absorbs the error and nothing is written.
    With a working storage layer, any number of records leaves such a value
    in place and reports each failure on the console.  With the object
    [{}] under the key, six records with distinct identifiers leave [{}]:
    no entry is stored, where the claim has the last five.  An array that
    holds a number beyond the range of the doubles is extended once, with
    the number written as [null], and every later record fails on that
    [null]: six records leave the first generation and [null]. *)
Theorem saveGeneration_fails_on_unchecked_value :
  (forall (s : Store) (j : Json) (gs : list Generation),
      working s ->
      item s = Some (Encodes j) ->
      (forall items, j <> JArray items) ->
      fst (saveAll gs s) = Normal tt /\
      item (snd (saveAll gs s)) = item s /\
      stored_entries (snd (saveAll gs s)) = None /\
      length (console (snd (saveAll gs s))) = length (console s) + length gs)
  /\
  (NoDup (map id six_samples) /\
   item (snd (saveAll six_samples
                (mkStore (Some (Encodes (JObject []))) false
                   (fun _ => false) [])))
   = Some (Encodes (JObject [])) /\
   stored_entries
     (snd (saveAll six_samples
             (mkStore (Some (Encodes (JObject []))) false (fun _ => false) [])))
   <> Some (map toJson (firstn 5 (rev six_samples))))
  /\
  stored_entries
    (snd (saveAll six_samples
            (mkStore (Some (Encodes (JArray [JNumber (Infinity false)])))
               false (fun _ => false) [])))
  = Some [toJson (sample "a" "1"); JNull].
Proof.
  split; [ | split; [ split; [ | split ] | ] ].
  - intros s j gs Hw Hi Hj.
    destruct (saveAll_no_array gs Hw Hi Hj) as (H1 & H2 & H3).
    split; [ exact H1 | ]. split; [ exact H2 | ]. split; [ | exact H3 ].
    unfold stored_entries. rewrite H2, Hi.
    destruct j; try reflexivity. exfalso. exact (Hj items eq_refl).
  - repeat constructor; cbn; intuition discriminate.
  - reflexivity.
  - discriminate.
  - reflexivity.
Qed.

(** C6, as amended.  With a working storage layer and a stored history
    (an array none of whose elements is, or is written as, [null]; or a
    value that is absent, empty or unparseable and reads as the empty
    history), two records with the same identifier leave the second at the
    front of the stored history, and it is the only entry with that
    identifier. *)
Theorem saveGeneration_replaces_same_id
    (s : Store) (g g' : Generation) :
  working s ->
  holds_entries (item s) ->
  id g' = id g ->
  exists rest,
    stored_entries (snd (saveGeneration g' (snd (saveGeneration g s))))
    = Some (toJson g' :: rest) /\
    filter (has_id (id g)) (toJson g' :: rest) = [toJson g'].
Proof.
  intros Hw (items & Hh & Hn) Hid.
  destruct (saveGeneration_records g Hw Hh (no_writes_null_no_null _ Hn))
    as (s1 & E1 & Hi1 & Hw1).
  assert (Hh1 : history_of (item s1) = Some (map written (recorded g items)))
    by (rewrite Hi1; reflexivity).
  assert (Hn1 : existsb is_null (map written (recorded g items)) = false).
  { rewrite is_null_map_written. apply recorded_no_writes_null, Hn. }
  destruct (saveGeneration_records g' Hw1 Hh1 Hn1) as (s2 & E2 & Hi2 & Hw2).
  rewrite E1. cbn [snd]. rewrite E2. cbn [snd].
  unfold stored_entries. rewrite Hi2.
  eexists. split; [ reflexivity | ].
  rewrite <- Hid.
  apply (written_recorded_single g' (map written (recorded g items))).
Qed.

Lemma saveGeneration_replaces_same_id_witness :
  exists rest,
    stored_entries
      (snd (saveGeneration (sample "a" "second")
              (snd (saveGeneration (sample "a" "first")
                      (mkStore
                         (Some (Encodes (JArray [toJson (sample "a" "old");
                                                 toJson (sample "b" "other")])))
                         false (fun _ => false) [])))))
    = Some (toJson (sample "a" "second") :: rest) /\
    filter (has_id (id (sample "a" "first")))
      (toJson (sample "a" "second") :: rest)
    = [toJson (sample "a" "second")].
Proof.
  apply (@saveGeneration_replaces_same_id
           (mkStore
              (Some (Encodes (JArray [toJson (sample "a" "old");
                                      toJson (sample "b" "other")])))
              false (fun _ => false) [])
           (sample "a" "first") (sample "a" "second")).
  - split; reflexivity.
  - eexists. split; reflexivity.
  - reflexivity.
Defined.

(** C6, as stated, fails when the storage layer refuses the writes: with a
    stored history that holds one entry [a] and a storage area that has no
    room for any value, both records are absorbed, and the entry with the
    identifier [a] is still the old one, not the second payload. *)
Lemma saveGeneration_replaces_same_id_counterexample :
  ~ (forall (s : Store) (g g' : Generation),
        holds_entries (item s) ->
        id g' = id g ->
        g' <> g ->
        exists rest,
          stored_entries (snd (saveGeneration g' (snd (saveGeneration g s))))
          = Some (toJson g' :: rest) /\
          filter (has_id (id g)) (toJson g' :: rest) = [toJson g']).
Proof.
  intros H.
  destruct (H (mkStore (Some (Encodes (JArray [toJson (sample "a" "old")])))
                 false (fun _ => true) [])
              (sample "a" "first") (sample "a" "second"))
    as (rest & E & _).
  - eexists. split; reflexivity.
  - reflexivity.
  - discriminate.
  - vm_compute in E. discriminate E.
Qed.

(** C7.  No operation of the history store throws, whatever the stored
    value and whatever the storage layer does.  [getHistory] returns, and
    returns the empty array when the key is absent or its content does not
    parse.  [saveGeneration], [clearHistory] and [removeFromHistory] return
    normally and have either done their write or left the stored value as it
    was and reported the failure on the console. *)
Theorem history_store_never_throws (s : Store) (g : Generation) (i : string) :
  (exists j, fst (getHistory s) = Normal j) /\
  (item s = None \/ (exists t, item s = Some t /\ forall j, t <> Encodes j) ->
   fst (getHistory s) = Normal (JArray [])) /\
  (fst (saveGeneration g s) = Normal tt /\
   ((exists rest,
       item (snd (saveGeneration g s))
       = Some (Encodes (JArray (toJson g :: rest))))
    \/
    item (snd (saveGeneration g s)) = item s /\
    exists pre e,
      console (snd (saveGeneration g s)) =
      (pre ++ [("Failed to save generation to localStorage:", e)])%list)) /\
  (fst (clearHistory s) = Normal tt /\
   (item (snd (clearHistory s)) = None
    \/
    item (snd (clearHistory s)) = item s /\
    exists pre e,
      console (snd (clearHistory s)) =
      (pre ++ [("Failed to clear history:", e)])%list)) /\
  (fst (removeFromHistory i s) = Normal tt /\
   ((exists items,
       item (snd (removeFromHistory i s)) = Some (Encodes (JArray items)))
    \/
    item (snd (removeFromHistory i s)) = item s /\
    exists pre e,
      console (snd (removeFromHistory i s)) =
      (pre ++ [("Failed to remove item from history:", e)])%list)).
Proof.
  split; [ | split; [ | split; [ | split ] ] ].
  - destruct (getHistory_returns s) as (j & s' & E & _).
    exists j. rewrite E. reflexivity.
  - intros H. unfold getHistory, try_catch, bind, localStorage_getItem.
    destruct (accessDenied s); [ reflexivity | ].
    destruct H as [H | (t & H & Ht)]; rewrite H; [ reflexivity | ].
    destruct t as [ | | j]; try reflexivity.
    exfalso. exact (Ht j eq_refl).
  - destruct (saveGeneration_outcome g s)
      as (s' & E & _ & _ & [[Hi Hc] | (rest & Hi & _)]);
      rewrite E; cbn [fst snd]; (split; [ reflexivity | ]).
    + right. split; assumption.
    + left. exists rest. exact Hi.
  - destruct (clearHistory_outcome s) as (s' & E & _ & _ & [Hi | [Hi Hc]]);
      rewrite E; cbn [fst snd]; (split; [ reflexivity | ]).
    + left. exact Hi.
    + right. split; assumption.
  - destruct (removeFromHistory_outcome i s)
      as (s' & E & _ & _ & [(old & _ & Hi) | [Hi Hc]]);
      rewrite E; cbn [fst snd]; (split; [ reflexivity | ]).
    + left. eexists. exact Hi.
    + right. split; assumption.
Qed.

Lemma history_store_never_throws_witness :
  fst (getHistory (mkStore (Some Malformed) false (fun _ => true) []))
  = Normal (JArray []).
Proof.
  apply (proj1 (proj2 (history_store_never_throws
                         (mkStore (Some Malformed) false (fun _ => true) [])
                         (sample "a" "1") "a"))).
  right. exists Malformed. split; [ reflexivity | discriminate ].
Defined.

End StorageUtilsSpec.
(** ** apiUtils *)

Module ApiUtilsSpec.
Import Js ApiUtils ApiLog.
Local Open Scope Q_scope.
Set Warnings "-notation-for-abbreviation".

Section Loop.

Variable random : nat -> Q.
Variable T : Type.
Variable fn : Thunk T.
Variable maxRetries : Z.
Variables baseDelay maxJitter : Q.

Notation loop := (attempts random fn maxRetries baseDelay maxJitter).

(** The environment in which attempt [attempt + 1] starts when the call of
    attempt [attempt] has left [env], and the timer that is waited on. *)
Notation backoff attempt env :=
  (baseDelay * 2 ^ (attempt - 1) + random (drawn env) * maxJitter).
Notation resumed attempt env :=
  (elapse (backoff attempt env) (snd (Math_random random env))).

(** *** One iteration, forwards *)

Lemma loop_exit (fuel : nat) (attempt : Z) (lastError : Thrown) (env : Env) :
  (maxRetries < attempt)%Z ->
  loop (S fuel) attempt lastError env = Some (mkRun (Rejected lastError) [] env).
Proof.
  intros H. cbn [attempts].
  destruct (Z.leb_spec attempt maxRetries); [ lia | reflexivity ].
Qed.

Lemma loop_fulfilled (fuel : nat) (attempt : Z) (lastError : Thrown)
    (env env1 : Env) (v : T) :
  (attempt <= maxRetries)%Z ->
  fn (Z.to_nat (attempt - 1)) env = (Fulfilled v, env1) ->
  loop (S fuel) attempt lastError env
  = Some (mkRun (Fulfilled v) [Invoked attempt (clock env) (Fulfilled v)] env1).
Proof.
  intros H Hfn. cbn [attempts].
  destruct (Z.leb_spec attempt maxRetries); [ | lia ].
  rewrite Hfn. reflexivity.
Qed.

Lemma loop_abort (fuel : nat) (attempt : Z) (lastError error : Thrown)
    (env env1 : Env) :
  (attempt <= maxRetries)%Z ->
  fn (Z.to_nat (attempt - 1)) env = (Rejected error, env1) ->
  isAbortError error = true ->
  loop (S fuel) attempt lastError env
  = Some (mkRun (Rejected error)
            [Invoked attempt (clock env) (Rejected error)] env1).
Proof.
  intros H Hfn Ha. cbn [attempts].
  destruct (Z.leb_spec attempt maxRetries); [ | lia ].
  rewrite Hfn, Ha. reflexivity.
Qed.

Lemma loop_give_up (fuel : nat) (attempt : Z) (lastError : Thrown)
    (e : Error) (env env1 : Env) :
  (attempt <= maxRetries)%Z ->
  fn (Z.to_nat (attempt - 1)) env = (Rejected (Obj e), env1) ->
  isAbortError (Obj e) = false ->
  isRetryableError e = false \/ attempt = maxRetries ->
  loop (S fuel) attempt lastError env
  = Some (mkRun (Rejected (Obj e))
            [Invoked attempt (clock env) (Rejected (Obj e))] env1).
Proof.
  intros H Hfn Ha Hstop. cbn [attempts].
  destruct (Z.leb_spec attempt maxRetries); [ | lia ].
  rewrite Hfn, Ha.
  destruct Hstop as [Hr | Hlast].
  - rewrite Hr. reflexivity.
  - subst attempt. rewrite Z.eqb_refl, orb_true_r. reflexivity.
Qed.

Lemma loop_retry (fuel : nat) (attempt : Z) (lastError : Thrown)
    (e : Error) (env env1 : Env) :
  (attempt < maxRetries)%Z ->
  fn (Z.to_nat (attempt - 1)) env = (Rejected (Obj e), env1) ->
  overload e = true ->
  loop (S fuel) attempt lastError env
  = after [Invoked attempt (clock env) (Rejected (Obj e));
           Waited attempt (clock env1) (backoff attempt env1)]
      (loop fuel (attempt + 1) (Obj e) (resumed attempt env1)).
Proof.
  intros H Hfn Ho. unfold overload in Ho.
  apply andb_true_iff in Ho. destruct Ho as [Ha Hr].
  apply negb_true_iff in Ha. cbn [attempts].
  destruct (Z.leb_spec attempt maxRetries); [ | lia ].
  rewrite Hfn, Ha, Hr.
  destruct (Z.eqb_spec attempt maxRetries); [ lia | ]. reflexivity.
Qed.

(** *** One iteration, backwards *)

(** The ways in which the loop can have produced a run. *)
Lemma loop_inv (fuel : nat) (attempt : Z) (lastError : Thrown) (env : Env)
    (run : Run T) :
  loop (S fuel) attempt lastError env = Some run ->
  ((maxRetries < attempt)%Z /\ run = mkRun (Rejected lastError) [] env)
  \/
  (attempt <= maxRetries)%Z /\
  exists settled env1,
    fn (Z.to_nat (attempt - 1)) env = (settled, env1) /\
    ((exists res,
        run = mkRun res [Invoked attempt (clock env) settled] env1 /\
        (forall error,
            settled = Rejected error -> isAbortError error = true ->
            res = Rejected error) /\
        (forall e,
            settled = Rejected (Obj e) -> overload e = true ->
            attempt = maxRetries))
     \/
     (exists e run',
        settled = Rejected (Obj e) /\ overload e = true /\
        (attempt < maxRetries)%Z /\
        loop fuel (attempt + 1) (Obj e) (resumed attempt env1) = Some run' /\
        run = mkRun (result run')
                ([Invoked attempt (clock env) settled;
                  Waited attempt (clock env1) (backoff attempt env1)]
                 ++ log run')
                (final run'))).
Proof.
  intros H. destruct (Z.leb_spec attempt maxRetries) as [Hle | Hgt].
  - right. split; [ exact Hle | ].
    destruct (fn (Z.to_nat (attempt - 1)) env) as [settled env1] eqn:Hfn.
    exists settled, env1. split; [ reflexivity | ].
    destruct settled as [v | error].
    { rewrite (loop_fulfilled _ _ Hle Hfn) in H. injection H as <-.
      left. eexists. split; [ reflexivity | ].
      split; intros ? E; discriminate E. }
    destruct (isAbortError error) eqn:Ha.
    { rewrite (loop_abort _ _ Hle Hfn Ha) in H. injection H as <-.
      left. eexists. split; [ reflexivity | ]. split.
      - intros ? E _. exact E.
      - intros e0 E Ho. injection E as ->. unfold overload in Ho.
        rewrite Ha in Ho. discriminate Ho. }
    destruct error as [ | e].
    { cbn [attempts] in H.
      destruct (Z.leb_spec attempt maxRetries); [ | lia ].
      rewrite Hfn in H. cbn in H. injection H as <-.
      left. eexists. split; [ reflexivity | ]. split.
      - intros ? E Ha'. injection E as <-. discriminate Ha'.
      - intros ? E. discriminate E. }
    destruct (isRetryableError e) eqn:Hr.
    + destruct (Z.eq_dec attempt maxRetries) as [Heq | Hne].
      * rewrite (loop_give_up _ _ Hle Hfn Ha (or_intror Heq)) in H.
        injection H as <-. left. eexists. split; [ reflexivity | ]. split.
        -- intros ? E Ha'. injection E as <-. congruence.
        -- intros. exact Heq.
      * assert (Ho : overload e = true)
          by (unfold overload; rewrite Ha, Hr; reflexivity).
        assert (Hlt : (attempt < maxRetries)%Z) by lia.
        rewrite (loop_retry _ _ Hlt Hfn Ho) in H.
        destruct (loop fuel (attempt + 1) (Obj e) (resumed attempt env1))
          as [run' | ] eqn:Erec; [ | discriminate H ].
        cbn [after] in H. injection H as <-.
        right. exists e, run'.
        split; [ reflexivity | ]. split; [ exact Ho | ].
        split; [ exact Hlt | ]. split; [ exact Erec | reflexivity ].
    + rewrite (loop_give_up _ _ Hle Hfn Ha (or_introl Hr)) in H.
      injection H as <-. left. eexists. split; [ reflexivity | ]. split.
      * intros ? E Ha'. injection E as <-. congruence.
      * intros e0 E Ho. injection E as <-. unfold overload in Ho.
        rewrite Hr, andb_false_r in Ho. discriminate Ho.
  - left. split; [ exact Hgt | ].
    rewrite (loop_exit _ _ _ Hgt) in H. injection H as <-. reflexivity.
Qed.

(** *** The loop terminates *)

Lemma loop_returns (fuel : nat) (attempt : Z) (lastError : Thrown) (env : Env) :
  (Z.to_nat (maxRetries - attempt + 1) < fuel)%nat ->
  exists run, loop fuel attempt lastError env = Some run.
Proof.
  revert attempt lastError env.
  induction fuel as [ | fuel IH]; intros attempt lastError env Hf; [ lia | ].
  destruct (Z.leb_spec attempt maxRetries) as [Hle | Hgt].
  - destruct (fn (Z.to_nat (attempt - 1)) env) as [settled env1] eqn:Hfn.
    destruct settled as [v | error].
    { rewrite (loop_fulfilled _ _ Hle Hfn). eauto. }
    destruct (isAbortError error) eqn:Ha.
    { rewrite (loop_abort _ _ Hle Hfn Ha). eauto. }
    destruct error as [ | e].
    { cbn [attempts]. destruct (Z.leb_spec attempt maxRetries); [ | lia ].
      rewrite Hfn. cbn. eauto. }
    destruct (isRetryableError e) eqn:Hr.
    + destruct (Z.eq_dec attempt maxRetries) as [Heq | Hne].
      * rewrite (loop_give_up _ _ Hle Hfn Ha (or_intror Heq)). eauto.
      * assert (Ho : overload e = true)
          by (unfold overload; rewrite Ha, Hr; reflexivity).
        assert (Hlt : (attempt < maxRetries)%Z) by lia.
        rewrite (loop_retry _ _ Hlt Hfn Ho).
        destruct (IH (attempt + 1)%Z (Obj e) (resumed attempt env1))
          as [run' E]; [ lia | ].
        rewrite E. cbn [after]. eauto.
    + rewrite (loop_give_up _ _ Hle Hfn Ha (or_introl Hr)). eauto.
  - rewrite (loop_exit _ _ _ Hgt). eauto.
Qed.

(** *** What every log looks like *)

(** Every wait follows an attempt that is not the last, and lasts the base
    delay doubled once per earlier attempt, plus a [Math.random()] share of
    the jitter bound. *)
Lemma loop_waits (fuel : nat) :
  forall (attempt : Z) (lastError : Thrown) (env : Env) (run : Run T)
         (n : Z) (from ms : Q),
    loop fuel attempt lastError env = Some run ->
    In (Waited n from ms) (log run) ->
    (attempt <= n < maxRetries)%Z /\
    exists i, ms = baseDelay * 2 ^ (n - 1) + random i * maxJitter.
Proof.
  induction fuel as [ | fuel IH]; intros attempt lastError env run n from ms
    Hrun Hin; [ discriminate Hrun | ].
  apply loop_inv in Hrun.
  destruct Hrun as [[_ ->] | (_ & settled & env1 & Hfn & [Hstop | Hretry])].
  - destruct Hin.
  - destruct Hstop as (res & -> & _). cbn [log] in Hin.
    destruct Hin as [E | []]. discriminate E.
  - destruct Hretry as (e & run' & -> & Ho & Hlt & Hrec & ->).
    cbn [log] in Hin.
    destruct Hin as [E | [E | Hin]]; [ discriminate E | | ].
    + injection E as <- _ <-. split; [ lia | ]. eexists. reflexivity.
    + destruct (IH _ _ _ _ _ _ _ Hrec Hin) as (Hn & i & Hms).
      split; [ lia | ]. exists i. exact Hms.
Qed.

(** An attempt that is made is the first thing in the log. *)
Lemma loop_first_event (fuel : nat) (attempt : Z) (lastError : Thrown)
    (env : Env) (run : Run T) :
  (attempt <= maxRetries)%Z ->
  loop fuel attempt lastError env = Some run ->
  exists o rest, log run = Invoked attempt (clock env) o :: rest.
Proof.
  intros Hle Hrun. destruct fuel as [ | fuel]; [ discriminate Hrun | ].
  apply loop_inv in Hrun.
  destruct Hrun as [[Hgt _] | (_ & settled & env1 & Hfn & [Hstop | Hretry])].
  - lia.
  - destruct Hstop as (res & -> & _). eexists _, _. reflexivity.
  - destruct Hretry as (e & run' & _ & _ & _ & _ & ->).
    eexists _, _. reflexivity.
Qed.

(** Every wait stands between the overloaded attempt it is counted with
    and the next attempt. *)
Lemma loop_wait_between (fuel : nat) :
  forall (attempt : Z) (lastError : Thrown) (env : Env) (run : Run T)
         (pre post : list (Event T)) (n : Z) (from ms : Q),
    loop fuel attempt lastError env = Some run ->
    log run = pre ++ Waited n from ms :: post ->
    (exists pre' t e,
        pre = pre' ++ [Invoked n t (Rejected (Obj e))] /\ overload e = true) /\
    (exists t' o post', post = Invoked (n + 1) t' o :: post').
Proof.
  induction fuel as [ | fuel IH]; intros attempt lastError env run pre post
    n from ms Hrun Hlog; [ discriminate Hrun | ].
  apply loop_inv in Hrun.
  destruct Hrun as [[_ ->] | (_ & settled & env1 & Hfn & [Hstop | Hretry])].
  - destruct pre; discriminate Hlog.
  - destruct Hstop as (res & -> & _). cbn [log] in Hlog.
    destruct pre as [ | ? [ | ? ?]]; discriminate Hlog.
  - destruct Hretry as (e & run' & -> & Ho & Hlt & Hrec & ->).
    cbn [log app] in Hlog.
    destruct pre as [ | ev1 [ | ev2 pre2]]; cbn [app] in Hlog.
    + discriminate Hlog.
    + injection Hlog as <- <- _ _ Hpost. split.
      * exists [], (clock env), e. split; [ reflexivity | exact Ho ].
      * assert (Hle : (attempt + 1 <= maxRetries)%Z) by lia.
        destruct (loop_first_event _ _ _ Hle Hrec) as (o & rest & Hfirst).
        rewrite <- Hpost, Hfirst. eexists _, _, _. reflexivity.
    + injection Hlog as <- <- Hrest.
      destruct (IH _ _ _ _ _ _ _ _ _ Hrec Hrest)
        as ((pre' & t & e' & -> & Ho') & Hnext).
      split; [ | exact Hnext ].
      exists (Invoked attempt (clock env) (Rejected (Obj e))
              :: Waited attempt (clock env1) (backoff attempt env1) :: pre'),
             t, e'.
      split; [ reflexivity | exact Ho' ].
Qed.

(** No run ends on a wait. *)
Lemma loop_ends_with_call (fuel : nat) :
  forall (attempt : Z) (lastError : Thrown) (env : Env) (run : Run T),
    loop fuel attempt lastError env = Some run ->
    ends_with_wait (log run) = false.
Proof.
  induction fuel as [ | fuel IH]; intros attempt lastError env run Hrun;
    [ discriminate Hrun | ].
  apply loop_inv in Hrun.
  destruct Hrun as [[_ ->] | (_ & settled & env1 & Hfn & [Hstop | Hretry])].
  - reflexivity.
  - destruct Hstop as (res & -> & _). reflexivity.
  - destruct Hretry as (e & run' & -> & Ho & Hlt & Hrec & ->).
    assert (Hle : (attempt + 1 <= maxRetries)%Z) by lia.
    destruct (loop_first_event _ _ _ Hle Hrec) as (o & rest & Hlog).
    cbn [log]. pose proof (IH _ _ _ _ Hrec) as Hend.
    rewrite Hlog in Hend |- *. exact Hend.
Qed.

(** *** The log against the thunk *)

(** The log of a run is what the loop did: it replays against the thunk,
    from the environment in which the loop started to the one in which it
    ended. *)
Lemma loop_replays (fuel : nat) :
  forall (attempt : Z) (lastError : Thrown) (env : Env) (run : Run T),
    loop fuel attempt lastError env = Some run ->
    replays random fn (log run) env (final run).
Proof.
  induction fuel as [ | fuel IH]; intros attempt lastError env run Hrun;
    [ discriminate Hrun | ].
  apply loop_inv in Hrun.
  destruct Hrun as [[_ ->] | (_ & settled & env1 & Hfn & [Hstop | Hretry])].
  - reflexivity.
  - destruct Hstop as (res & -> & _). cbn [log final replays].
    split; [ reflexivity | ]. exists env1. split; [ exact Hfn | reflexivity ].
  - destruct Hretry as (e & run' & -> & _ & _ & Hrec & ->).
    cbn [log final app replays].
    split; [ reflexivity | ]. exists env1. split; [ exact Hfn | ].
    split; [ reflexivity | ]. exact (IH _ _ _ _ Hrec).
Qed.

(** A run that stops at a call settles as the loop makes it of that call. *)
Lemma loop_stop_result (fuel : nat) (attempt : Z) (lastError : Thrown)
    (env env1 : Env) (settled : Settled T) (res : Settled T) :
  (attempt <= maxRetries)%Z ->
  fn (Z.to_nat (attempt - 1)) env = (settled, env1) ->
  loop (S fuel) attempt lastError env
  = Some (mkRun res [Invoked attempt (clock env) settled] env1) ->
  res = surfaced settled.
Proof.
  intros Hle Hfn Hrun. cbn [attempts] in Hrun.
  destruct (Z.leb_spec attempt maxRetries); [ | lia ].
  rewrite Hfn in Hrun.
  destruct settled as [v | [ | e]]; cbn in Hrun.
  - injection Hrun as <-. reflexivity.
  - injection Hrun as <-. reflexivity.
  - destruct (isDOMException e &&
              match name e with
              | Some n => String.eqb n "AbortError"
              | None => false
              end); [ injection Hrun as <-; reflexivity | ].
    destruct (negb (isRetryableError e) || (attempt =? maxRetries)%Z);
      [ injection Hrun as <-; reflexivity | ].
    exfalso.
    destruct (attempts random fn maxRetries baseDelay maxJitter fuel _ _ _)
      as [r | ]; [ | discriminate Hrun ].
    cbn in Hrun. discriminate Hrun.
Qed.

(** What follows a call in the log.  Either nothing does: the run stopped
    at the call and settles as the loop makes it of that call, and if the
    call was overloaded it was the last attempt.  Or the call was
    overloaded and not the last attempt, and what follows is the wait of
    that attempt and then the call of the next attempt, made when the wait
    is over. *)
Lemma loop_after_call (fuel : nat) :
  forall (attempt : Z) (lastError : Thrown) (env : Env) (run : Run T)
         (pre post : list (Event T)) (n : Z) (t : Q) (o : Settled T),
    loop fuel attempt lastError env = Some run ->
    log run = pre ++ Invoked n t o :: post ->
    (post = [] /\ result run = surfaced o /\
     (forall e, o = Rejected (Obj e) -> overload e = true -> n = maxRetries))
    \/
    (exists e from i t' o' post',
        o = Rejected (Obj e) /\ overload e = true /\ (n < maxRetries)%Z /\
        post = Waited n from (baseDelay * 2 ^ (n - 1) + random i * maxJitter)
               :: Invoked (n + 1) t' o' :: post' /\
        t' == from + (baseDelay * 2 ^ (n - 1) + random i * maxJitter)).
Proof.
  induction fuel as [ | fuel IH]; intros attempt lastError env run pre post
    n t o Hrun Hlog; [ discriminate Hrun | ].
  pose proof Hrun as Hrun0.
  apply loop_inv in Hrun.
  destruct Hrun as [[_ ->] | (Hle & settled & env1 & Hfn & [Hstop | Hretry])].
  - destruct pre; discriminate Hlog.
  - destruct Hstop as (res & -> & _ & Hlast). cbn [log result] in *.
    destruct pre as [ | ev pre]; cbn [app] in Hlog;
      [ | destruct pre; discriminate Hlog ].
    injection Hlog as <- <- <- <-. left.
    split; [ reflexivity | ].
    split; [ exact (loop_stop_result _ _ Hle Hfn Hrun0) | exact Hlast ].
  - destruct Hretry as (e & run' & -> & Ho & Hlt & Hrec & ->).
    cbn [log result app] in *.
    destruct pre as [ | ev1 [ | ev2 pre2]]; cbn [app] in Hlog.
    + injection Hlog as <- <- <- <-. right.
      assert (Hle' : (attempt + 1 <= maxRetries)%Z) by lia.
      destruct (loop_first_event _ _ _ Hle' Hrec) as (o' & rest & Hfirst).
      exists e, (clock env1), (drawn env1), (clock (resumed attempt env1)),
             o', rest.
      split; [ reflexivity | ]. split; [ exact Ho | ].
      split; [ exact Hlt | ]. split; [ rewrite Hfirst; reflexivity | ].
      cbn [elapse clock Math_random snd]. apply Qred_correct.
    + discriminate Hlog.
    + injection Hlog as _ _ Hrest.
      exact (IH _ _ _ _ _ _ _ _ _ Hrec Hrest).
Qed.

(** A run that makes an attempt ends with a call, and settles as the loop
    makes it of that call. *)
Lemma loop_result (fuel : nat) :
  forall (attempt : Z) (lastError : Thrown) (env : Env) (run : Run T),
    (attempt <= maxRetries)%Z ->
    loop fuel attempt lastError env = Some run ->
    exists pre n t o,
      log run = pre ++ [Invoked n t o] /\ result run = surfaced o.
Proof.
  induction fuel as [ | fuel IH]; intros attempt lastError env run Hle Hrun;
    [ discriminate Hrun | ].
  pose proof Hrun as Hrun0.
  apply loop_inv in Hrun.
  destruct Hrun as [[Hgt _] | (_ & settled & env1 & Hfn & [Hstop | Hretry])].
  - lia.
  - destruct Hstop as (res & -> & _).
    exists [], attempt, (clock env), settled.
    split; [ reflexivity | ]. exact (loop_stop_result _ _ Hle Hfn Hrun0).
  - destruct Hretry as (e & run' & -> & _ & Hlt & Hrec & ->).
    assert (Hle' : (attempt + 1 <= maxRetries)%Z) by lia.
    destruct (IH _ _ _ _ Hle' Hrec) as (pre & n & t & o & Hlog & Hres).
    eexists (_ :: _ :: pre), n, t, o. cbn [log result].
    rewrite Hlog. split; [ reflexivity | exact Hres ].
Qed.

(** An overloaded call at an attempt that is not the last: the loop waits
    on a timer set to the base delay doubled once per earlier attempt plus
    the jitter, which is the next number [Math.random()] returns times the
    bound, and then calls the thunk for the next attempt, in the
    environment in which that wait is over. *)
Lemma loop_overload_goes_on (fuel : nat) (attempt : Z) (lastError : Thrown)
    (e : Error) (env env1 : Env) :
  (attempt < maxRetries)%Z ->
  (Z.to_nat (maxRetries - attempt + 1) < fuel)%nat ->
  fn (Z.to_nat (attempt - 1)) env = (Rejected (Obj e), env1) ->
  overload e = true ->
  exists run o env2 rest,
    loop fuel attempt lastError env = Some run /\
    fn (Z.to_nat (attempt + 1 - 1)) (resumed attempt env1) = (o, env2) /\
    log run
    = Invoked attempt (clock env) (Rejected (Obj e))
      :: Waited attempt (clock env1) (backoff attempt env1)
      :: Invoked (attempt + 1) (clock (resumed attempt env1)) o :: rest /\
    clock (resumed attempt env1) == clock env1 + backoff attempt env1.
Proof.
  intros Hlt Hfuel Hfn Ho.
  destruct fuel as [ | fuel]; [ lia | ].
  rewrite (loop_retry _ _ Hlt Hfn Ho).
  destruct (loop_returns (attempt + 1) (Obj e) (resumed attempt env1)
              (fuel := fuel)) as [run' Hrun']; [ lia | ].
  rewrite Hrun'. cbn [after].
  assert (Hle : (attempt + 1 <= maxRetries)%Z) by lia.
  destruct (loop_first_event _ _ _ Hle Hrun') as (o & rest & Hfirst).
  pose proof (loop_replays _ _ _ _ Hrun') as Hrep.
  rewrite Hfirst in Hrep. cbn [replays] in Hrep.
  destruct Hrep as (_ & env2 & Hfn2 & _).
  eexists _, o, env2, rest. split; [ reflexivity | ].
  split; [ exact Hfn2 | ]. cbn [log app]. rewrite Hfirst.
  split; [ reflexivity | ].
  cbn [elapse clock Math_random snd]. apply Qred_correct.
Qed.

End Loop.

(** [retryWithBackoff] returns. *)
Lemma retryWithBackoff_returns (random : nat -> Q) (T : Type) (fn : Thunk T)
    (maxRetries : Z) (baseDelay maxJitter : Q) (env : Env) :
  exists run,
    retryWithBackoff random fn maxRetries baseDelay maxJitter env = Some run.
Proof.
  unfold retryWithBackoff. apply loop_returns. lia.
Qed.

(** Three overloads in a row, with [maxRetries = 3]. *)
Lemma three_overloads
    (random : nat -> Q) (T : Type) (fn : Thunk T)
    (baseDelay maxJitter : Q) (env : Env) :
  (forall k, rejects_with fn k overload) ->
  exists run t1 e1 f1 w1 t2 e2 f2 w2 t3 e3,
    attempts random fn 3 baseDelay maxJitter 4 1 Undefined env = Some run /\
    log run = [Invoked 1 t1 (Rejected (Obj e1)); Waited 1 f1 w1;
               Invoked 2 t2 (Rejected (Obj e2)); Waited 2 f2 w2;
               Invoked 3 t3 (Rejected (Obj e3))] /\
    invocations (log run) = 3%nat /\
    result run = Rejected (Obj e3).
Proof.
  intros Hall.
  destruct (Hall 0%nat env) as (e1 & env1 & Hfn1 & Ho1).
  rewrite (@loop_retry random T fn 3 baseDelay maxJitter
             3 1 Undefined e1 env env1 eq_refl Hfn1 Ho1).
  set (env1' := elapse _ _).
  destruct (Hall 1%nat env1') as (e2 & env2 & Hfn2 & Ho2).
  rewrite (@loop_retry random T fn 3 baseDelay maxJitter
             2 (1 + 1) (Obj e1) e2 env1' env2 eq_refl Hfn2 Ho2).
  set (env2' := elapse _ _).
  destruct (Hall 2%nat env2') as (e3 & env3 & Hfn3 & Ho3).
  assert (Ha3 : isAbortError (Obj e3) = false).
  { unfold overload in Ho3. apply andb_true_iff in Ho3.
    apply negb_true_iff, Ho3. }
  rewrite (@loop_give_up random T fn 3 baseDelay maxJitter
             1 (1 + 1 + 1) (Obj e2) e3 env2' env3
             ltac:(discriminate) Hfn3 Ha3 (or_intror eq_refl)).
  cbn [after log result app].
  eexists _, _, e1, _, _, _, e2, _, _, _, e3.
  repeat split.
Qed.

(** *** The claims *)



(** C3.  A call of the thunk that signals an [AbortError] ends the loop
    there and then.  At whatever iteration the call is made: the run
    rejects with that very error, the call is the only thing the iteration
    did, and the environment is the one the call left, so that no number
    was drawn and no time has passed since.  For [retryWithBackoff] as a
    whole: it returns; its log replays against the thunk, so that the calls
    in it are the calls that were made; a call that rejected with an
    [AbortError] has nothing after it, neither a call nor a wait, and the
    run rejects with its error; and a run that rejects with an
    [AbortError] has it from its last call. *)
Theorem retryWithBackoff_propagates_abort
    (random : nat -> Q) (T : Type) (fn : Thunk T) (maxRetries : Z)
    (baseDelay maxJitter : Q) :
  (forall (fuel : nat) (attempt : Z) (lastError error : Thrown)
          (env env1 : Env),
      (attempt <= maxRetries)%Z ->
      fn (Z.to_nat (attempt - 1)) env = (Rejected error, env1) ->
      isAbortError error = true ->
      attempts random fn maxRetries baseDelay maxJitter (S fuel) attempt
        lastError env
      = Some (mkRun (Rejected error)
                [Invoked attempt (clock env) (Rejected error)] env1))
  /\
  (forall env : Env,
      exists run,
        retryWithBackoff random fn maxRetries baseDelay maxJitter env
        = Some run /\
        replays random fn (log run) env (final run) /\
        (forall pre n t error post,
            log run = pre ++ Invoked n t (Rejected error) :: post ->
            isAbortError error = true ->
            post = [] /\ result run = Rejected error) /\
        (forall error,
            result run = Rejected error ->
            isAbortError error = true ->
            exists pre n t, log run = pre ++ [Invoked n t (Rejected error)])).
Proof.
  split.
  - intros fuel attempt lastError error env env1 Hle Hfn Ha.
    apply loop_abort; assumption.
  - intros env.
    destruct (retryWithBackoff_returns random fn maxRetries baseDelay
                maxJitter env) as [run Hrun].
    exists run. split; [ exact Hrun | ].
    unfold retryWithBackoff in Hrun.
    split; [ eapply loop_replays; exact Hrun | ]. split.
    + intros pre n t error post Hlog Ha.
      destruct (@loop_after_call random T fn maxRetries baseDelay maxJitter
                  _ _ _ _ _ _ _ _ _ _ Hrun Hlog)
        as [(Hpost & Hres & _) | (e & from & i & t' & o' & post' & Ho & Hov & _)].
      * split; [ exact Hpost | ]. rewrite Hres.
        destruct error as [ | e]; [ discriminate Ha | reflexivity ].
      * injection Ho as ->. unfold overload in Hov.
        rewrite Ha in Hov. discriminate Hov.
    + intros error Hres Ha.
      destruct (Z.leb_spec 1 maxRetries) as [Hle | Hgt].
      * destruct (@loop_result random T fn maxRetries baseDelay maxJitter
                    _ _ _ _ _ Hle Hrun) as (pre & n & t & o & Hlog & Hso).
        exists pre, n, t. rewrite Hlog. do 2 f_equal.
        rewrite Hres in Hso.
        destruct o as [v | [ | e]]; cbn [surfaced] in Hso.
        -- discriminate Hso.
        -- injection Hso as ->. discriminate Ha.
        -- injection Hso as ->. reflexivity.
      * rewrite (@loop_exit random T fn maxRetries baseDelay maxJitter) in Hrun
          by lia. injection Hrun as <-.
        cbn [result] in Hres. injection Hres as <-. discriminate Ha.
Qed.

Lemma retryWithBackoff_propagates_abort_witness :
  retryWithBackoff cancelled_random
    (flow_thunk cancelled_random cancelled_request) 3 500 100
    cancelled_early_env
  = Some (mkRun (Rejected (Obj requestAborted))
            [Invoked 1 0 (Rejected (Obj requestAborted))]
            (mkEnv 700 (Some 700) 1)).
Proof.
  apply (proj1 (retryWithBackoff_propagates_abort cancelled_random
                  (flow_thunk cancelled_random cancelled_request) 3 500 100)
           3%nat 1%Z Undefined (Obj requestAborted) cancelled_early_env
           (mkEnv 700 (Some 700) 1)).
  - discriminate.
  - reflexivity.
  - reflexivity.
Defined.

(** C10.  The test for an abort comes before the test for an overload.  A
    call that rejects with a [DOMException] named [AbortError] whose
    message contains the sentinel is retryable by its message, and still
    ends the loop at once, at whatever iteration: the run rejects with the
    error, nothing follows the call, and the environment is the one the
    call left.  The same message on an error that is no abort, at an
    attempt that is not the last, makes the loop wait and call the thunk
    again.  For [retryWithBackoff] as a whole the log replays against the
    thunk, and what follows a call in it is, in the first case, nothing,
    and in the second the wait and the next call. *)
Theorem abort_takes_precedence_over_overload
    (random : nat -> Q) (T : Type) (fn : Thunk T) (maxRetries : Z)
    (baseDelay maxJitter : Q) :
  (forall (fuel : nat) (attempt : Z) (lastError : Thrown) (e : Error)
          (m : string) (env env1 : Env),
      (attempt <= maxRetries)%Z ->
      fn (Z.to_nat (attempt - 1)) env = (Rejected (Obj e), env1) ->
      isDOMException e = true ->
      name e = Some "AbortError"%string ->
      message e = Some m ->
      includes "Model overloaded" m = true ->
      isRetryableError e = true /\
      attempts random fn maxRetries baseDelay maxJitter (S fuel) attempt
        lastError env
      = Some (mkRun (Rejected (Obj e))
                [Invoked attempt (clock env) (Rejected (Obj e))] env1))
  /\
  (forall (fuel : nat) (attempt : Z) (lastError : Thrown) (e : Error)
          (m : string) (env env1 : Env),
      (attempt < maxRetries)%Z ->
      (Z.to_nat (maxRetries - attempt + 1) < fuel)%nat ->
      fn (Z.to_nat (attempt - 1)) env = (Rejected (Obj e), env1) ->
      isAbortError (Obj e) = false ->
      message e = Some m ->
      includes "Model overloaded" m = true ->
      exists run t' o rest,
        attempts random fn maxRetries baseDelay maxJitter fuel attempt
          lastError env = Some run /\
        log run
        = Invoked attempt (clock env) (Rejected (Obj e))
          :: Waited attempt (clock env1)
               (baseDelay * 2 ^ (attempt - 1)
                + random (drawn env1) * maxJitter)
          :: Invoked (attempt + 1) t' o :: rest /\
        t' == clock env1
              + (baseDelay * 2 ^ (attempt - 1)
                 + random (drawn env1) * maxJitter))
  /\
  (forall env : Env,
      exists run,
        retryWithBackoff random fn maxRetries baseDelay maxJitter env
        = Some run /\
        replays random fn (log run) env (final run) /\
        (forall pre n t e m post,
            log run = pre ++ Invoked n t (Rejected (Obj e)) :: post ->
            isDOMException e = true ->
            name e = Some "AbortError"%string ->
            message e = Some m ->
            includes "Model overloaded" m = true ->
            post = [] /\ result run = Rejected (Obj e)) /\
        (forall pre n t e m post,
            log run = pre ++ Invoked n t (Rejected (Obj e)) :: post ->
            isAbortError (Obj e) = false ->
            message e = Some m ->
            includes "Model overloaded" m = true ->
            (n < maxRetries)%Z ->
            exists from ms t' o post',
              post = Waited n from ms :: Invoked (n + 1) t' o :: post' /\
              t' == from + ms)).
Proof.
  split; [ | split ].
  - intros fuel attempt lastError e m env env1 Hle Hfn Hdom Hname Hmsg Hinc.
    split.
    + unfold isRetryableError. rewrite Hmsg. exact Hinc.
    + apply loop_abort; [ exact Hle | exact Hfn | ].
      cbn [isAbortError]. rewrite Hdom, Hname. reflexivity.
  - intros fuel attempt lastError e m env env1 Hlt Hfuel Hfn Ha Hmsg Hinc.
    assert (Ho : overload e = true)
      by (unfold overload, isRetryableError; rewrite Ha, Hmsg, Hinc;
          reflexivity).
    destruct (@loop_overload_goes_on random T fn maxRetries baseDelay
                maxJitter fuel attempt lastError e env env1 Hlt Hfuel Hfn Ho)
      as (run & o & env2 & rest & Hrun & _ & Hlog & Ht).
    eexists run, _, o, rest.
    split; [ exact Hrun | ]. split; [ exact Hlog | exact Ht ].
  - intros env.
    destruct (retryWithBackoff_returns random fn maxRetries baseDelay
                maxJitter env) as [run Hrun].
    exists run. split; [ exact Hrun | ].
    unfold retryWithBackoff in Hrun.
    split; [ eapply loop_replays; exact Hrun | ]. split.
    + intros pre n t e m post Hlog Hdom Hname Hmsg Hinc.
      assert (Ha : isAbortError (Obj e) = true)
        by (cbn [isAbortError]; rewrite Hdom, Hname; reflexivity).
      destruct (@loop_after_call random T fn maxRetries baseDelay maxJitter
                  _ _ _ _ _ _ _ _ _ _ Hrun Hlog)
        as [(Hpost & Hres & _) | (e' & from & i & t' & o' & post' & Ho & Hov & _)].
      * split; [ exact Hpost | exact Hres ].
      * injection Ho as <-. unfold overload in Hov.
        rewrite Ha in Hov. discriminate Hov.
    + intros pre n t e m post Hlog Ha Hmsg Hinc Hn.
      assert (Ho : overload e = true)
        by (unfold overload, isRetryableError; rewrite Ha, Hmsg, Hinc;
            reflexivity).
      destruct (@loop_after_call random T fn maxRetries baseDelay maxJitter
                  _ _ _ _ _ _ _ _ _ _ Hrun Hlog)
        as [(_ & _ & Hlast)
           | (e' & from & i & t' & o' & post' & _ & _ & _ & Hpost & Ht')].
      * specialize (Hlast e eq_refl Ho). lia.
      * eexists from, _, t', o', post'. split; [ exact Hpost | exact Ht' ].
Qed.

Lemma abort_takes_precedence_over_overload_witness :
  isRetryableError aborted_overloaded = true /\
  attempts (fun _ => 1 # 2) aborting 3 500 100 2 2 (Obj overloaded)
    (mkEnv 1750 None 1)
  = Some (mkRun (Rejected (Obj aborted_overloaded))
            [Invoked 2 1750 (Rejected (Obj aborted_overloaded))]
            (elapse 10 (mkEnv 1750 None 1))).
Proof.
  apply (proj1 (abort_takes_precedence_over_overload (fun _ => 1 # 2)
                  aborting 3 500 100)
           1%nat 2%Z (Obj overloaded) aborted_overloaded
           "Model overloaded"%string (mkEnv 1750 None 1)
           (elapse 10 (mkEnv 1750 None 1))).
  - discriminate.
  - reflexivity.
  - reflexivity.
  - reflexivity.
  - reflexivity.
  - reflexivity.
Defined.

(** The jitter: a [Math.random()] share of a positive bound is in
    [[0, bound)]. *)
Lemma jitter_range (r bound : Q) :
  0 <= r < 1 -> 0 < bound -> 0 <= r * bound < bound.
Proof.
  intros [Hlo Hhi] Hb. split.
  - apply Qmult_le_0_compat; [ exact Hlo | apply Qlt_le_weak, Hb ].
  - apply Qlt_le_trans with (1 * bound).
    + apply Qmult_lt_compat_r; assumption.
    + rewrite Qmult_1_l. apply Qle_refl.
Qed.

(** C4.  When [Math.random()] returns numbers in [[0, 1)] and the jitter
    bound is positive.  At whatever iteration a call is overloaded that is
    not the last attempt, the loop draws one number, waits on a timer set to
    [baseDelay * 2 ^ (attempt - 1)] plus the jitter, which is that number
    times the bound and so in [[0, maxJitter)], and calls the thunk for the
    next attempt in the environment in which the wait is over.  For
    [retryWithBackoff] as a whole: it returns, its log replays against
    the thunk, and in it: a call of attempt [n] that was overloaded, with
    [n < maxRetries], is followed by a wait that lasts
    [baseDelay * 2 ^ (n - 1)] plus a jitter, the number [Math.random()]
    returned for it times the bound, which is in [[0, maxJitter)]; the call
    of attempt [n + 1] comes next and is made when that wait is over;
    every wait follows an overloaded call in this way, and no run ends on a
    wait.  With the default values the timer after attempt 1 is set to a
    time from 500 to 600 and the timer after attempt 2 to a time from 1000
    to 1100, and a thunk that is overloaded at every call is called three
    times and waited for twice.  The bounds on the timers are closed:
    the code adds the delay and the jitter in doubles, where the sum can
    be rounded to the upper bound. *)
Theorem backoff_delay_is_exponential_with_jitter
    (random : nat -> Q) (T : Type) (fn : Thunk T) (env : Env) :
  (forall i, 0 <= random i < 1) ->
  (forall (maxRetries : Z) (baseDelay maxJitter : Q) (fuel : nat)
          (attempt : Z) (lastError : Thrown) (e : Error) (env0 env1 : Env),
      0 < maxJitter ->
      (attempt < maxRetries)%Z ->
      (Z.to_nat (maxRetries - attempt + 1) < fuel)%nat ->
      fn (Z.to_nat (attempt - 1)) env0 = (Rejected (Obj e), env1) ->
      overload e = true ->
      let jitter := random (drawn env1) * maxJitter in
      let ms := baseDelay * 2 ^ (attempt - 1) + jitter in
      let env2 := elapse ms (snd (Math_random random env1)) in
      0 <= jitter < maxJitter /\
      clock env2 == clock env1 + ms /\
      drawn env2 = S (drawn env1) /\
      exists run o env3 rest,
        attempts random fn maxRetries baseDelay maxJitter fuel attempt
          lastError env0 = Some run /\
        fn (Z.to_nat (attempt + 1 - 1)) env2 = (o, env3) /\
        log run
        = Invoked attempt (clock env0) (Rejected (Obj e))
          :: Waited attempt (clock env1) ms
          :: Invoked (attempt + 1) (clock env2) o :: rest)
  /\
  (forall (maxRetries : Z) (baseDelay maxJitter : Q),
      0 < maxJitter ->
      exists run,
        retryWithBackoff random fn maxRetries baseDelay maxJitter env
        = Some run /\
        replays random fn (log run) env (final run) /\
        (forall pre n t e post,
            log run = pre ++ Invoked n t (Rejected (Obj e)) :: post ->
            overload e = true ->
            (n < maxRetries)%Z ->
            exists from i t' o post',
              post = Waited n from
                       (baseDelay * 2 ^ (n - 1) + random i * maxJitter)
                     :: Invoked (n + 1) t' o :: post' /\
              0 <= random i * maxJitter < maxJitter /\
              t' == from + (baseDelay * 2 ^ (n - 1) + random i * maxJitter)) /\
        (forall pre n from ms post,
            log run = pre ++ Waited n from ms :: post ->
            (1 <= n < maxRetries)%Z /\
            exists pre' t e,
              pre = pre' ++ [Invoked n t (Rejected (Obj e))] /\
              overload e = true) /\
        ends_with_wait (log run) = false)
  /\
  (exists run,
      retryWithBackoff random fn default_maxRetries default_baseDelay
        default_maxJitter env = Some run /\
      (forall n from ms,
          In (Waited n from ms) (log run) ->
          (n = 1%Z /\ 500 <= ms <= 600) \/ (n = 2%Z /\ 1000 <= ms <= 1100)) /\
      ((forall k, rejects_with fn k overload) ->
       invocations (log run) = 3%nat /\
       exists w1 w2, waits (log run) = [(1%Z, w1); (2%Z, w2)])).
Proof.
  intros Hrandom. split; [ | split ].
  - intros maxRetries baseDelay maxJitter fuel attempt lastError e env0 env1
      Hj Hlt Hfuel Hfn Ho jitter ms env2.
    destruct (@loop_overload_goes_on random T fn maxRetries baseDelay
                maxJitter fuel attempt lastError e env0 env1 Hlt Hfuel Hfn Ho)
      as (run & o & env3 & rest & Hrun & Hfn2 & Hlog & Ht).
    split; [ apply jitter_range; [ apply Hrandom | exact Hj ] | ].
    split; [ exact Ht | ]. split; [ reflexivity | ].
    exists run, o, env3, rest. auto.
  - intros maxRetries baseDelay maxJitter Hj.
    destruct (retryWithBackoff_returns random fn maxRetries baseDelay
                maxJitter env) as [run Hrun].
    exists run. split; [ exact Hrun | ].
    unfold retryWithBackoff in Hrun.
    split; [ eapply loop_replays; exact Hrun | ].
    split; [ | split ].
    + intros pre n t e post Hlog Ho Hn.
      destruct (@loop_after_call random T fn maxRetries baseDelay maxJitter
                  _ _ _ _ _ _ _ _ _ _ Hrun Hlog)
        as [(_ & _ & Hlast)
           | (e' & from & i & t' & o' & post' & _ & _ & _ & Hpost & Ht')].
      * specialize (Hlast e eq_refl Ho). lia.
      * exists from, i, t', o', post'. split; [ exact Hpost | ].
        split; [ | exact Ht' ].
        apply jitter_range; [ apply Hrandom | exact Hj ].
    + intros pre n from ms post Hlog.
      assert (Hin : In (Waited n from ms) (log run))
        by (rewrite Hlog; apply in_elt).
      destruct (@loop_waits random T fn maxRetries baseDelay maxJitter
                  _ _ _ _ _ _ _ _ Hrun Hin) as (Hn & _).
      split; [ exact Hn | ].
      eapply loop_wait_between; eassumption.
    + eapply loop_ends_with_call. exact Hrun.
  - destruct (retryWithBackoff_returns random fn default_maxRetries
                default_baseDelay default_maxJitter env) as [run Hrun].
    exists run. split; [ exact Hrun | ]. split.
    + intros n from ms Hin. unfold retryWithBackoff in Hrun.
      destruct (@loop_waits random T fn _ _ _
                  _ _ _ _ _ _ _ _ Hrun Hin) as (Hn & i & Hms).
      pose proof (jitter_range (bound := default_maxJitter)
                    (Hrandom i) eq_refl) as Hjit.
      unfold default_maxRetries in Hn.
      unfold default_baseDelay, default_maxJitter in Hms, Hjit.
      assert (Hcases : n = 1%Z \/ n = 2%Z) by lia.
      destruct Hcases as [-> | ->]; [ left | right ];
        (split; [ reflexivity | ]); subst ms;
        set (j := random i * 100) in *;
        [ change (2 ^ (1 - 1)) with 1 | change (2 ^ (2 - 1)) with 2 ];
        destruct Hjit; split; lra.
    + intros Hall.
      destruct (three_overloads random default_baseDelay
                  default_maxJitter env Hall)
        as (run' & t1 & e1 & f1 & w1 & t2 & e2 & f2 & w2 & t3 & e3
            & Hrun' & Hlog & Hcalls & _).
      unfold retryWithBackoff, default_maxRetries in Hrun.
      change (S (Z.to_nat 3)) with 4%nat in Hrun.
      rewrite Hrun in Hrun'.
      injection Hrun' as <-. split; [ exact Hcalls | ].
      rewrite Hlog. exists w1, w2. reflexivity.
Qed.

Lemma backoff_delay_is_exponential_with_jitter_witness :
  exists run,
    retryWithBackoff (fun _ => 1 # 2) always_overloaded default_maxRetries
      default_baseDelay default_maxJitter (mkEnv 0 None 0) = Some run /\
    (forall n from ms,
        In (Waited n from ms) (log run) ->
        (n = 1%Z /\ 500 <= ms <= 600) \/ (n = 2%Z /\ 1000 <= ms <= 1100)) /\
    ((forall k, rejects_with always_overloaded k overload) ->
     invocations (log run) = 3%nat /\
     exists w1 w2, waits (log run) = [(1%Z, w1); (2%Z, w2)]).
Proof.
  apply (fun H => proj2 (proj2 (@backoff_delay_is_exponential_with_jitter
                                  (fun _ => 1 # 2) nat always_overloaded
                                  (mkEnv 0 None 0) H))).
  intros i. split; [ discriminate | reflexivity ].
Defined.

(** The wait between two attempts is not interrupted: when the first call
    is overloaded and the signal is aborted during the wait that follows,
    the run still returns only after having called the thunk again, at a
    time after the abort. *)
Lemma backoff_runs_to_its_end
    (random : nat -> Q) (T : Type) (fn : Thunk T) (maxRetries : Z)
    (baseDelay maxJitter : Q) (env env1 : Env) (e : Error) (ta : Q) :
  (1 < maxRetries)%Z ->
  fn 0%nat env = (Rejected (Obj e), env1) ->
  overload e = true ->
  abortAt env1 = Some ta ->
  clock env1 < ta ->
  ta < clock env1 + (baseDelay * 2 ^ (1 - 1) + random (drawn env1) * maxJitter) ->
  exists run,
    retryWithBackoff random fn maxRetries baseDelay maxJitter env = Some run /\
    invoked_after ta (log run) = true.
Proof.
  intros Hmax Hfn Ho Hta Hlo Hhi. unfold retryWithBackoff.
  rewrite (@loop_retry random T fn maxRetries baseDelay maxJitter
             (Z.to_nat maxRetries) 1 Undefined e env env1 Hmax Hfn Ho).
  set (env2 := elapse _ _).
  destruct (@loop_returns random T fn maxRetries baseDelay maxJitter
              (Z.to_nat maxRetries) (1 + 1) (Obj e) env2) as [run' Hrun'];
    [ lia | ].
  rewrite Hrun'. cbn [after]. eexists. split; [ reflexivity | ].
  cbn [log app invoked_after existsb].
  assert (Hle : (1 + 1 <= maxRetries)%Z) by lia.
  destruct (@loop_first_event random T fn maxRetries baseDelay maxJitter
              _ _ _ _ _ Hle Hrun') as (o & rest & ->).
  cbn [existsb].
  assert (Hlt : Qlt_bool ta (clock env2) = true).
  { unfold Qlt_bool. apply negb_true_iff.
    destruct (Qle_bool (clock env2) ta) eqn:E; [ | reflexivity ].
    apply Qle_bool_iff in E. unfold env2 in E. cbn [clock elapse] in E.
    rewrite Qred_correct in E. cbn [Math_random snd clock] in E.
    exfalso. apply (Qlt_not_le _ _ Hhi). exact E. }
  rewrite Hlt. rewrite !orb_true_r. reflexivity.
Qed.

(** C1.  A generation flow with the thunk of the application: the first
    request is overloaded at 1500ms, the run waits 550ms, and the user
    aborts at 1800ms, during that wait.  The run waits on to 2050ms, calls
    the thunk again, whose listener never hears of the abort, and fulfils
    at 3550ms with the response of the second request. *)
Theorem retryWithBackoff_misses_abort_during_backoff :
  exists run w response,
    retryWithBackoff cancelled_random
      (flow_thunk cancelled_random cancelled_request) 3 500 100 cancelled_env
    = Some run /\
    abortAt cancelled_env = Some 1800 /\
    log run = [Invoked 1 0 (Rejected (Obj overloaded));
               Waited 1 1500 w;
               Invoked 2 2050 (Fulfilled response)] /\
    w == 550 /\
    invoked_after 1800 (log run) = true /\
    aborted_by 2050 cancelled_env = true /\
    result run = Fulfilled response /\
    clock (final run) = 3550.
Proof.
  eexists _, _, _. split; [ reflexivity | ].
  cbn [log result final]. repeat split.
Qed.

End ApiUtilsSpec.


(* ================================================================= *)
(** * Further properties *)

(** ** imageUtils *)

Module ImageUtilsFacts.
Import Js ImageUtils ImageUtilsSpec.
Local Open Scope Z_scope.

(** [Math.round] of a quotient of integers, in integer arithmetic. *)
Lemma Math_round_quotient (a b : Z) :
  0 < b -> Math_round (inject_Z a / inject_Z b) = (2 * a + b) / (2 * b).
Proof.
  intros Hb. unfold Math_round. rewrite Zdiv_Qdiv.
  apply Qfloor_comp.
  assert (~ (inject_Z b == 0)%Q)
    by (intros E; apply (inject_Z_injective b 0) in E; lia).
  rewrite !inject_Z_plus, !inject_Z_mult. change (inject_Z 2) with 2%Q.
  field. assumption.
Qed.

Lemma Math_round_eq (x y : Q) : (x == y)%Q -> Math_round x = Math_round y.
Proof.
  intros E. unfold Math_round. apply Qfloor_comp. rewrite E. reflexivity.
Qed.

Lemma targetDimensions_landscape_integer (w h maxDim : Z) :
  0 < h -> h < w -> maxDim < w ->
  targetDimensions w h maxDim = (maxDim, (2 * maxDim * h + w) / (2 * w)).
Proof.
  intros Hh Hwh Hw. unfold targetDimensions.
  destruct (Z.gtb_spec w maxDim); [ | lia ]. cbn [orb].
  destruct (Z.gtb_spec w h); [ | lia ]. f_equal.
  rewrite (Math_round_eq (y := inject_Z (maxDim * h) / inject_Z w)).
  - rewrite Math_round_quotient by lia. f_equal. lia.
  - assert (~ (inject_Z w == 0)%Q)
      by (intros E; apply (inject_Z_injective w 0) in E; lia).
    assert (~ (inject_Z h == 0)%Q)
      by (intros E; apply (inject_Z_injective h 0) in E; lia).
    rewrite inject_Z_mult. field. split; assumption.
Qed.

Lemma targetDimensions_portrait_integer (w h maxDim : Z) :
  0 < h -> w <= h -> maxDim < h ->
  targetDimensions w h maxDim = ((2 * maxDim * w + h) / (2 * h), maxDim).
Proof.
  intros Hh Hwh Hm. unfold targetDimensions.
  destruct (Z.gtb_spec h maxDim); [ | lia ]. rewrite orb_true_r.
  destruct (Z.gtb_spec w h); [ lia | ]. f_equal.
  rewrite (Math_round_eq (y := inject_Z (maxDim * w) / inject_Z h)).
  - rewrite Math_round_quotient by lia. f_equal. lia.
  - assert (~ (inject_Z h == 0)%Q)
      by (intros E; apply (inject_Z_injective h 0) in E; lia).
    rewrite inject_Z_mult. field. assumption.
Qed.

(** The target dimensions of the model, whose arithmetic is exact, in
    integers. *)
Lemma targetDimensions_closed_form (w h maxDim : Z) :
  0 < w -> 0 < h ->
  targetDimensions w h maxDim =
  if (w <=? maxDim) && (h <=? maxDim) then (w, h)
  else if h <? w then (maxDim, (2 * maxDim * h + w) / (2 * w))
  else ((2 * maxDim * w + h) / (2 * h), maxDim).
Proof.
  intros Hw Hh.
  destruct (Z.leb_spec w maxDim) as [Hwm | Hwm];
    destruct (Z.leb_spec h maxDim) as [Hhm | Hhm]; cbn [andb].
  - apply targetDimensions_within; assumption.
  - destruct (Z.ltb_spec h w); [ lia | ].
    apply targetDimensions_portrait_integer; lia.
  - destruct (Z.ltb_spec h w); [ | lia ].
    apply targetDimensions_landscape_integer; lia.
  - destruct (Z.ltb_spec h w).
    + apply targetDimensions_landscape_integer; lia.
    + apply targetDimensions_portrait_integer; lia.
Qed.

(** The rounded edge is between 0 and both the edge it replaces and the
    edge it is scaled to. *)
Lemma scaled_edge_bounds (maxDim short long : Z) :
  0 <= maxDim -> 0 < short -> short <= long -> maxDim < long ->
  0 <= (2 * maxDim * short + long) / (2 * long) <= Z.min short maxDim.
Proof.
  intros Hm Hs Hsl Hl. split.
  - apply Z.div_pos; nia.
  - assert ((2 * maxDim * short + long) / (2 * long) < short + 1)
      by (apply Z.div_lt_upper_bound; nia).
    assert ((2 * maxDim * short + long) / (2 * long) < maxDim + 1)
      by (apply Z.div_lt_upper_bound; nia).
    lia.
Qed.

(** Bounds on the target dimensions. *)
Lemma targetDimensions_bounds (w h maxDim : Z) :
  0 < w -> 0 < h -> 0 <= maxDim ->
  0 <= fst (targetDimensions w h maxDim) <= Z.min w maxDim /\
  0 <= snd (targetDimensions w h maxDim) <= Z.min h maxDim.
Proof.
  intros Hw Hh Hm. rewrite targetDimensions_closed_form by assumption.
  destruct (Z.leb_spec w maxDim) as [Hwm | Hwm];
    destruct (Z.leb_spec h maxDim) as [Hhm | Hhm]; cbn [andb fst snd];
    try (cbn [fst snd]; lia);
    destruct (Z.ltb_spec h w); cbn [fst snd]; try lia.
  - pose proof (@scaled_edge_bounds maxDim w h Hm Hw). lia.
  - pose proof (@scaled_edge_bounds maxDim h w Hm Hh). lia.
  - pose proof (@scaled_edge_bounds maxDim h w Hm Hh). lia.
  - pose proof (@scaled_edge_bounds maxDim w h Hm Hw). lia.
Qed.

(** X2.  Downscaling never enlarges: for an image of positive dimensions and
    a bound that is not negative, neither target dimension is negative and
    neither exceeds the dimension it replaces nor the bound. *)
Theorem targetDimensions_never_enlarges (w h maxDim : Z) :
  0 < w -> 0 < h -> 0 <= maxDim ->
  0 <= fst (targetDimensions w h maxDim) <= Z.min w maxDim /\
  0 <= snd (targetDimensions w h maxDim) <= Z.min h maxDim.
Proof. apply targetDimensions_bounds. Qed.

Lemma targetDimensions_never_enlarges_witness :
  0 <= fst (targetDimensions 3000 5000 1920) <= Z.min 3000 1920 /\
  0 <= snd (targetDimensions 3000 5000 1920) <= Z.min 5000 1920.
Proof.
  apply (@targetDimensions_never_enlarges 3000 5000 1920); lia.
Defined.

(** X3.  Downscaling what has been downscaled changes nothing. *)
Theorem targetDimensions_idempotent (w h maxDim : Z) :
  0 < w -> 0 < h -> 0 <= maxDim ->
  targetDimensions (fst (targetDimensions w h maxDim))
    (snd (targetDimensions w h maxDim)) maxDim
  = targetDimensions w h maxDim.
Proof.
  intros Hw Hh Hm.
  destruct (targetDimensions_bounds Hw Hh Hm) as [H1 H2].
  rewrite targetDimensions_within by lia.
  destruct (targetDimensions w h maxDim). reflexivity.
Qed.

Lemma targetDimensions_idempotent_witness :
  targetDimensions (fst (targetDimensions 5000 3000 1920))
    (snd (targetDimensions 5000 3000 1920)) 1920
  = targetDimensions 5000 3000 1920.
Proof.
  apply (@targetDimensions_idempotent 5000 3000 1920); lia.
Defined.

(** X4.  A very long or very tall image gets a canvas with an empty edge:
    with a positive bound, when the longer edge of the image is at least
    [2 * maxDim + 1] times the shorter, one target dimension is 0 (with the
    default bound, from 3841 times on); and when the longer edge is at most
    [2 * maxDim - 1] times the shorter, both target dimensions are
    positive.  Ratios between the two are left out: there the rounding of
    the quotient decides. *)
Theorem targetDimensions_empty_edge (w h maxDim : Z) :
  0 < w -> 0 < h -> 0 < maxDim ->
  ((2 * maxDim + 1) * Z.min w h <= Z.max w h ->
   fst (targetDimensions w h maxDim) = 0 \/
   snd (targetDimensions w h maxDim) = 0) /\
  (Z.max w h <= (2 * maxDim - 1) * Z.min w h ->
   0 < fst (targetDimensions w h maxDim) /\
   0 < snd (targetDimensions w h maxDim)).
Proof.
  intros Hw Hh Hm.
  assert (Hzero : (fst (targetDimensions w h maxDim) = 0 \/
                   snd (targetDimensions w h maxDim) = 0) <->
                  2 * maxDim * Z.min w h < Z.max w h).
  { rewrite targetDimensions_closed_form by assumption.
    assert (Hsmall : forall short long,
               0 < short -> 0 < long ->
               ((2 * maxDim * short + long) / (2 * long) = 0 <->
                2 * maxDim * short < long)).
    { intros short long Hs Hl. rewrite Z.div_small_iff by lia. nia. }
    destruct (Z.leb_spec w maxDim) as [Hwm | Hwm];
      destruct (Z.leb_spec h maxDim) as [Hhm | Hhm]; cbn [andb fst snd].
    - cbn [fst snd]. split; [ lia | nia ].
    - destruct (Z.ltb_spec h w); [ lia | ]. cbn [fst snd].
      rewrite (Hsmall w h Hw Hh), Z.min_l, Z.max_r by lia. lia.
    - destruct (Z.ltb_spec h w); [ | lia ]. cbn [fst snd].
      rewrite (Hsmall h w Hh Hw), Z.min_r, Z.max_l by lia. lia.
    - destruct (Z.ltb_spec h w); cbn [fst snd].
      + rewrite (Hsmall h w Hh Hw), Z.min_r, Z.max_l by lia. lia.
      + rewrite (Hsmall w h Hw Hh), Z.min_l, Z.max_r by lia. lia. }
  split.
  - intros Hlong. apply Hzero. nia.
  - intros Hshort.
    destruct (@targetDimensions_bounds w h maxDim Hw Hh) as [H1 H2];
      [ lia | ].
    assert (Hno : ~ (fst (targetDimensions w h maxDim) = 0 \/
                     snd (targetDimensions w h maxDim) = 0))
      by (rewrite Hzero; nia).
    lia.
Qed.

Lemma targetDimensions_empty_edge_witness :
  fst (targetDimensions 5000 1 1920) = 0 \/
  snd (targetDimensions 5000 1 1920) = 0.
Proof.
  apply (proj1 (@targetDimensions_empty_edge 5000 1 1920
                  ltac:(lia) ltac:(lia) ltac:(lia))).
  cbn. lia.
Defined.

(** The size test on the data URL, in integers. *)
Lemma too_large_iff (dataUrl : Z) :
  Qgt_bool (inject_Z dataUrl * (3 # 4)) (inject_Z MAX_FILE_SIZE) = true <->
  13981013 < dataUrl.
Proof.
  unfold Qgt_bool. rewrite negb_true_iff.
  destruct (Qle_bool (inject_Z dataUrl * (3 # 4)) (inject_Z MAX_FILE_SIZE))
    eqn:E.
  - apply Qle_bool_iff in E. unfold Qle in E. cbn in E.
    split; [ discriminate | lia ].
  - split; [ intros _ | reflexivity ].
    destruct (Z.lt_ge_cases 13981013 dataUrl) as [H | H]; [ exact H | ].
    assert (Hle : (inject_Z dataUrl * (3 # 4) <= inject_Z MAX_FILE_SIZE)%Q)
      by (unfold Qle; cbn; lia).
    apply Qle_bool_iff in Hle. congruence.
Qed.

(** X5.  How [downscaleImage] settles.  Without a 2d context it rejects
    before looking at the image; an image that does not decode rejects and
    leaves the canvas as it was; an image that decodes sizes the canvas to
    the target dimensions, and the promise fulfils exactly when the data
    URL has at most 13981013 characters (three quarters of which are the
    10 MiB ceiling), and rejects as too large otherwise. *)
Theorem downscaleImage_settles (b : Browser) (maxDim : Z) :
  (hasContext b = false ->
   downscaleImage b maxDim
   = (newCanvas, Rejected (Obj (newError "Cannot get canvas context")))) /\
  (hasContext b = true -> decoded b = None ->
   downscaleImage b maxDim
   = (newCanvas, Rejected (Obj (newError "Failed to load image")))) /\
  (forall w h,
      hasContext b = true -> decoded b = Some (w, h) ->
      let canvas := mkCanvas (fst (targetDimensions w h maxDim))
                             (snd (targetDimensions w h maxDim)) in
      fst (downscaleImage b maxDim) = canvas /\
      (dataUrlLength b canvas <= 13981013 ->
       snd (downscaleImage b maxDim) = Fulfilled (dataUrlLength b canvas)) /\
      (13981013 < dataUrlLength b canvas ->
       snd (downscaleImage b maxDim)
       = Rejected (Obj (newError
           "Processed image is still too large. Please use a smaller image.")))).
Proof.
  unfold downscaleImage. split; [ | split ].
  - intros ->. reflexivity.
  - intros -> ->. reflexivity.
  - intros w h -> ->. cbn [negb].
    destruct (targetDimensions w h maxDim) as [nw nh]. cbn [fst snd].
    pose proof (too_large_iff (dataUrlLength b (mkCanvas nw nh))) as Hlarge.
    destruct (Qgt_bool _ _).
    + split; [ reflexivity | ]. split; [ | reflexivity ].
      intros Hle. pose proof (proj1 Hlarge eq_refl). lia.
    + split; [ reflexivity | ]. split; [ reflexivity | ].
      intros Hgt. pose proof (proj2 Hlarge Hgt). discriminate.
Qed.

Lemma downscaleImage_settles_witness :
  snd (downscaleImage
         (mkBrowser true (Some (5000, 3000)) (fun _ => 13981014)) 1920)
  = Rejected (Obj (newError
      "Processed image is still too large. Please use a smaller image.")).
Proof.
  apply (proj2 (proj2 (proj2 (downscaleImage_settles
           (mkBrowser true (Some (5000, 3000)) (fun _ => 13981014)) 1920))
           5000 3000 eq_refl eq_refl)).
  cbn. lia.
Defined.

End ImageUtilsFacts.

(** ** FileUpload *)

Module FileUploadFacts.
Import Js ImageUtils FileUpload.
Local Open Scope string_scope.

Lemma validateImageFile_truthy (file : File) :
  truthy (validateImageFile file) = false -> validateImageFile file = None.
Proof.
  unfold validateImageFile.
  destruct (negb _); [ discriminate | ].
  destruct (size file >? MAX_FILE_SIZE)%Z; [ discriminate | reflexivity ].
Qed.

(** X6.  What [handleFile] does, whatever [instanceof] answers.  A file the
    validator rejects only gets its message shown: nothing is processed,
    whatever the browser would do with it.  Any other file is processed and
    the processing flag is lowered again on every path; the data URL is
    handed on when [downscaleImage] fulfils, and one of four messages is
    shown when it rejects. *)
Theorem handleFile_calls
    (instanceofError : Error -> bool) (file : File) (b : Browser) :
  (exists msg,
      validateImageFile file = Some msg /\
      (msg = "Please upload a PNG or JPG file" \/
       msg = "File size must be less than 10MB") /\
      forall b', handleFile instanceofError file b' = [SetError (Some msg)])
  \/
  (validateImageFile file = None /\
   exists dataUrl,
     snd (downscaleImage b MAX_IMAGE_DIMENSION) = Fulfilled dataUrl /\
     handleFile instanceofError file b
     = [SetError None; SetProcessing true; OnImageUpload dataUrl;
        SetProcessing false])
  \/
  (validateImageFile file = None /\
   exists reason msg,
     snd (downscaleImage b MAX_IMAGE_DIMENSION) = Rejected reason /\
     (msg = "Cannot get canvas context" \/ msg = "Failed to load image" \/
      msg = "Processed image is still too large. Please use a smaller image."
      \/ msg = "Failed to process image. Please try again.") /\
     handleFile instanceofError file b
     = [SetError None; SetProcessing true; SetError (Some msg);
        SetProcessing false]).
Proof.
  unfold handleFile.
  destruct (validateImageFile file) as [msg | ] eqn:Hv.
  - left. exists msg. split; [ reflexivity | ].
    unfold validateImageFile in Hv.
    destruct (negb _).
    + injection Hv as <-. split; [ left; reflexivity | reflexivity ].
    + destruct (size file >? MAX_FILE_SIZE)%Z; [ | discriminate Hv ].
      injection Hv as <-. split; [ right; reflexivity | reflexivity ].
  - right. cbn [truthy].
    destruct (snd (downscaleImage b MAX_IMAGE_DIMENSION))
      as [dataUrl | reason] eqn:Hd.
    + left. split; [ reflexivity | ]. exists dataUrl.
      split; reflexivity.
    + right. split; [ reflexivity | ].
      assert (Hreason :
        reason = Obj (newError "Cannot get canvas context") \/
        reason = Obj (newError "Failed to load image") \/
        reason = Obj (newError
          "Processed image is still too large. Please use a smaller image.")).
      { unfold downscaleImage in Hd.
        destruct (negb (hasContext b)); [ left; cbn in Hd; congruence | ].
        destruct (decoded b) as [[w h] | ];
          [ | right; left; cbn in Hd; congruence ].
        destruct (targetDimensions w h MAX_IMAGE_DIMENSION) as [nw nh].
        destruct (Qgt_bool _ _); cbn in Hd; [ | discriminate Hd ].
        right; right. congruence. }
      unfold errorMessage.
      destruct Hreason as [-> | [-> | ->]];
        (destruct (instanceofError _);
         eexists _, _; (split; [ reflexivity | ]); (split; [ | reflexivity ]);
         cbn; auto).
Qed.

End FileUploadFacts.


(** ** storageUtils *)

Module StorageUtilsFacts.
Import Js StorageUtils StorageUtilsSpec HistoryOps.
Local Open Scope string_scope.
Local Open Scope nat_scope.

(** *** Helpers *)

Lemma other_than_has_id (i : string) (it : Json) :
  other_than i it = negb (has_id i it).
Proof. unfold other_than, has_id. rewrite negb_involutive. reflexivity. Qed.

Lemma filter_other_than (i : string) (items : list Json) :
  filter (fun it => strict_neq (id_of it) i) items
  = filter (fun it => negb (has_id i it)) items.
Proof.
  apply filter_ext. intros it. apply (other_than_has_id i it).
Qed.

(** What a stored array is, [history_of] reads. *)
Lemma stored_entries_history (s : Store) (items : list Json) :
  stored_entries s = Some items -> history_of (item s) = Some items.
Proof.
  unfold stored_entries, history_of.
  destruct (item s) as [[ | | j] | ]; try discriminate.
  destruct j; try discriminate. intros E. exact E.
Qed.

Lemma history_without_entries (s : Store) (items : list Json) :
  history_of (item s) = Some items -> stored_entries s = None -> items = [].
Proof.
  unfold stored_entries, history_of.
  destruct (item s) as [[ | | j] | ];
    try (intros E _; inversion E; reflexivity).
  destruct j; discriminate || (intros _ E; discriminate E).
Qed.

(** A history that is read with an entry is a stored array. *)
Lemma history_with_entries (s : Store) (it : Json) (items : list Json) :
  history_of (item s) = Some (it :: items) ->
  stored_entries s = Some (it :: items).
Proof.
  unfold stored_entries, history_of.
  destruct (item s) as [[ | | j] | ]; try discriminate.
  destruct j; try discriminate. intros E. exact E.
Qed.

(** With a working storage layer and a stored array without [null],
    [removeFromHistory] stores the entries that do not carry the
    identifier, as they are written. *)
Lemma removeFromHistory_removes (i : string) (s : Store) (items : list Json) :
  working s ->
  history_of (item s) = Some items ->
  existsb is_null items = false ->
  exists s',
    removeFromHistory i s = (Normal tt, s') /\
    item s' = Some (Encodes (JArray
                (map written (filter (fun it => negb (has_id i it)) items)))) /\
    working s'.
Proof.
  intros [Ha Hq] Hh Hn.
  destruct (getHistory_reads s Ha Hh) as (s1 & E1 & Hi1 & Ha1 & Hq1).
  unfold removeFromHistory, try_catch. unfold bind at 1. rewrite E1.
  unfold bind at 1. unfold Array_filter.
  rewrite (filter_items_no_null _ _ _ Hn), filter_other_than.
  unfold localStorage_setItem, JSON_stringify.
  rewrite Ha1, Ha, Hq1, Hq.
  eexists. split; [ reflexivity | ]. cbn [item accessDenied quotaExceeded].
  split; [ reflexivity | ]. split; [ reflexivity | ].
  intros t. cbn [quotaExceeded]. apply Hq.
Qed.

Lemma filter_has_id_other (i : string) (items : list Json) :
  filter (has_id i) (filter (fun it => negb (has_id i it)) items) = [].
Proof.
  induction items as [ | it rest IH]; [ reflexivity | ].
  cbn [filter]. destruct (has_id i it) eqn:E; cbn [negb filter];
    rewrite ?E; exact IH.
Qed.

Lemma filter_swap (A : Type) (p q : A -> bool) (l : list A) :
  filter p (filter q l) = filter q (filter p l).
Proof.
  induction l as [ | x rest IH]; [ reflexivity | ].
  cbn [filter]. destruct (q x) eqn:Eq; destruct (p x) eqn:Ep;
    cbn [filter]; rewrite ?Eq, ?Ep, IH; reflexivity.
Qed.

Lemma filter_twice (A : Type) (p : A -> bool) (l : list A) :
  filter p (filter p l) = filter p l.
Proof.
  induction l as [ | x rest IH]; [ reflexivity | ].
  cbn [filter]. destruct (p x) eqn:Ep; cbn [filter]; rewrite ?Ep, IH;
    reflexivity.
Qed.

Lemma filter_firstn_filter (A : Type) (p : A -> bool) (n : nat) (l : list A) :
  filter p (firstn n (filter p l)) = firstn n (filter p l).
Proof.
  revert n. induction l as [ | x rest IH]; intros n.
  - cbn. rewrite firstn_nil. reflexivity.
  - cbn [filter]. destruct (p x) eqn:Ep; [ | apply IH ].
    destruct n as [ | n]; [ reflexivity | ].
    cbn [firstn filter]. rewrite Ep, IH. reflexivity.
Qed.

Lemma filter_none (A : Type) (p : A -> bool) (l : list A) :
  existsb p l = false -> filter (fun x => negb (p x)) l = l.
Proof.
  induction l as [ | x rest IH]; [ reflexivity | ].
  cbn [existsb filter]. intros H. apply orb_false_iff in H.
  destruct H as [Hx Hrest]. rewrite Hx. cbn [negb]. rewrite IH by exact Hrest.
  reflexivity.
Qed.

Lemma filter_all (A : Type) (p : A -> bool) (l : list A) :
  forallb p l = true -> filter p l = l.
Proof.
  induction l as [ | x rest IH]; [ reflexivity | ].
  cbn [forallb filter]. intros H. apply andb_true_iff in H.
  destruct H as [Hx Hrest]. rewrite Hx, IH by exact Hrest. reflexivity.
Qed.

Lemma count_id_filter_le (i : string) (p : Json -> bool) (items : list Json) :
  count_id i (filter p items) <= count_id i items.
Proof.
  unfold count_id. rewrite filter_swap. apply filter_length_le.
Qed.

Lemma count_id_firstn_le (i : string) (n : nat) (items : list Json) :
  count_id i (firstn n items) <= count_id i items.
Proof.
  unfold count_id. revert n.
  induction items as [ | it rest IH]; intros n.
  - rewrite firstn_nil. apply Nat.le_refl.
  - destruct n as [ | n]; [ cbn; lia | ].
    cbn [firstn filter]. specialize (IH n).
    destruct (has_id i it); cbn [length]; lia.
Qed.

Lemma count_id_written (i : string) (items : list Json) :
  count_id i (map written items) = count_id i items.
Proof.
  unfold count_id.
  rewrite filter_map_written by (intros it; apply has_id_written).
  apply length_map.
Qed.

(** The two filters on an array of generations. *)
Lemma has_id_generation (i : string) (g : Generation) :
  has_id i (toJson g) = String.eqb (id g) i.
Proof. unfold has_id, toJson, id_of. cbn. apply negb_involutive. Qed.

Lemma filter_generations (i : string) (gs : list Generation) :
  filter (fun it => negb (has_id i it)) (map toJson gs)
  = map toJson (filter (fun g => negb (String.eqb (id g) i)) gs).
Proof.
  induction gs as [ | g rest IH]; [ reflexivity | ].
  cbn [map filter]. rewrite has_id_generation.
  destruct (String.eqb (id g) i); cbn [negb map]; rewrite IH; reflexivity.
Qed.

(** *** Removing *)

(** X7.  With a working storage layer and a stored array without [null],
    [removeFromHistory] stores the elements that do not carry the
    identifier, in their order and as [JSON.stringify] writes them: none
    with the identifier is left, and when none carried it the array is
    stored again as it is written.  On an array of generations, which are
    written as they are, exactly the generations with another identifier
    remain. *)
Theorem removeFromHistory_drops_the_entry
    (i : string) (s : Store) (items : list Json) :
  working s ->
  history_of (item s) = Some items ->
  existsb is_null items = false ->
  stored_entries (snd (removeFromHistory i s))
  = Some (map written (filter (fun it => negb (has_id i it)) items)) /\
  (forall kept,
      stored_entries (snd (removeFromHistory i s)) = Some kept ->
      count_id i kept = 0) /\
  (existsb (has_id i) items = false ->
   stored_entries (snd (removeFromHistory i s)) = Some (map written items)) /\
  (forall gs,
      items = map toJson gs ->
      stored_entries (snd (removeFromHistory i s))
      = Some (map toJson (filter (fun g => negb (String.eqb (id g) i)) gs))).
Proof.
  intros Hw Hh Hn.
  destruct (removeFromHistory_removes i Hw Hh Hn) as (s' & E & Hi & _).
  rewrite E. cbn [snd]. unfold stored_entries. rewrite Hi.
  split; [ reflexivity | ]. split; [ | split ].
  - intros kept Hk. injection Hk as <-.
    rewrite count_id_written. unfold count_id.
    rewrite filter_has_id_other. reflexivity.
  - intros Hnone. rewrite (filter_none _ _ Hnone). reflexivity.
  - intros gs ->. rewrite filter_generations, map_written_toJson.
    reflexivity.
Qed.

Lemma removeFromHistory_drops_the_entry_witness :
  stored_entries
    (snd (removeFromHistory "b"
            (mkStore
               (Some (Encodes (JArray (map toJson
                  [sample "a" "1"; sample "b" "2"; sample "c" "3"]))))
               false (fun _ => false) [])))
  = Some (map toJson
            (filter (fun g => negb (String.eqb (id g) "b"))
               [sample "a" "1"; sample "b" "2"; sample "c" "3"])).
Proof.
  apply (proj2 (proj2 (proj2
           (@removeFromHistory_drops_the_entry "b"
              (mkStore
                 (Some (Encodes (JArray (map toJson
                    [sample "a" "1"; sample "b" "2"; sample "c" "3"]))))
                 false (fun _ => false) [])
              (map toJson [sample "a" "1"; sample "b" "2"; sample "c" "3"])
              (conj eq_refl (fun _ => eq_refl)) eq_refl eq_refl)))).
  reflexivity.
Defined.

(** X8.  Removing composes: with a working storage layer and a stored
    array none of whose elements is, or is written as, [null], removing an
    identifier twice leaves what removing it once leaves, and two
    identifiers can be removed in either order. *)
Theorem removeFromHistory_composes
    (i j : string) (s : Store) (items : list Json) :
  working s ->
  history_of (item s) = Some items ->
  existsb writes_null items = false ->
  item (snd (removeFromHistory i (snd (removeFromHistory i s))))
  = item (snd (removeFromHistory i s)) /\
  item (snd (removeFromHistory j (snd (removeFromHistory i s))))
  = item (snd (removeFromHistory i (snd (removeFromHistory j s)))).
Proof.
  intros Hw Hh Hn.
  assert (Hstep : forall k s0 l,
             working s0 -> history_of (item s0) = Some l ->
             existsb writes_null l = false ->
             working (snd (removeFromHistory k s0)) /\
             item (snd (removeFromHistory k s0))
             = Some (Encodes (JArray
                 (map written (filter (fun it => negb (has_id k it)) l)))) /\
             history_of (item (snd (removeFromHistory k s0)))
             = Some (map written (filter (fun it => negb (has_id k it)) l)) /\
             existsb writes_null
               (map written (filter (fun it => negb (has_id k it)) l)) = false).
  { intros k s0 l Hw0 Hh0 Hn0.
    destruct (removeFromHistory_removes k Hw0 Hh0
                (no_writes_null_no_null _ Hn0)) as (s' & E & Hi & Hw').
    rewrite E. cbn [snd]. rewrite Hi. repeat split; try apply Hw'.
    rewrite writes_null_map_written. apply existsb_filter_false, Hn0. }
  assert (Hfilter : forall k l,
             filter (fun it => negb (has_id k it)) (map written l)
             = map written (filter (fun it => negb (has_id k it)) l)).
  { intros k l. apply filter_map_written. intros it.
    rewrite has_id_written. reflexivity. }
  destruct (Hstep i s items Hw Hh Hn) as (Hwi & Hii & Hhi & Hni).
  destruct (Hstep j s items Hw Hh Hn) as (Hwj & Hij & Hhj & Hnj).
  destruct (Hstep i _ _ Hwi Hhi Hni) as (_ & Hiii & _).
  destruct (Hstep j _ _ Hwi Hhi Hni) as (_ & Hiji & _).
  destruct (Hstep i _ _ Hwj Hhj Hnj) as (_ & Hiij & _).
  split.
  - rewrite Hiii, Hii, Hfilter, map_written_idempotent, filter_twice.
    reflexivity.
  - rewrite Hiji, Hiij, !Hfilter, !map_written_idempotent, filter_swap.
    reflexivity.
Qed.

Lemma removeFromHistory_composes_witness :
  item (snd (removeFromHistory "b"
          (snd (removeFromHistory "a"
             (mkStore (Some (Encodes (JArray (map toJson
                [sample "a" "1"; sample "b" "2"; sample "c" "3"]))))
                false (fun _ => false) [])))))
  = item (snd (removeFromHistory "a"
          (snd (removeFromHistory "b"
             (mkStore (Some (Encodes (JArray (map toJson
                [sample "a" "1"; sample "b" "2"; sample "c" "3"]))))
                false (fun _ => false) []))))).
Proof.
  apply (proj2 (@removeFromHistory_composes "a" "b"
                  (mkStore (Some (Encodes (JArray (map toJson
                     [sample "a" "1"; sample "b" "2"; sample "c" "3"]))))
                     false (fun _ => false) [])
                  (map toJson [sample "a" "1"; sample "b" "2"; sample "c" "3"])
                  (conj eq_refl (fun _ => eq_refl)) eq_refl eq_refl)).
Defined.

(** *** Clearing *)

(** X9.  After a confirmed [handleClearHistory] the panel shows the empty
    history, whatever was stored and whatever the storage layer does: with
    access the key is removed, without access the stored value stays and
    the read that follows fails to the empty array as well.  An unconfirmed
    call does nothing.  With a working storage layer, a record after a
    clear leaves exactly that record, also when the stored value was no
    history. *)
Theorem clearHistory_empties (s : Store) (g : Generation) :
  fst (handleClearHistory true s) = Normal (Some (JArray [])) /\
  handleClearHistory false s = (Normal None, s) /\
  (accessDenied s = false -> item (snd (clearHistory s)) = None) /\
  (accessDenied s = true -> item (snd (clearHistory s)) = item s) /\
  (working s ->
   stored_entries (snd (saveGeneration g (snd (clearHistory s))))
   = Some [toJson g]).
Proof.
  split; [ | split; [ | split; [ | split ] ] ].
  - unfold handleClearHistory, bind, clearHistory, try_catch,
      localStorage_removeItem.
    destruct (accessDenied s) eqn:Ha; cbn;
      unfold getHistory, try_catch, bind, localStorage_getItem; cbn;
      rewrite ?Ha; reflexivity.
  - reflexivity.
  - intros Ha. unfold clearHistory, try_catch, localStorage_removeItem.
    rewrite Ha. reflexivity.
  - intros Ha. unfold clearHistory, try_catch, localStorage_removeItem.
    rewrite Ha. reflexivity.
  - intros [Ha Hq].
    assert (Hc : clearHistory s
                 = (Normal tt,
                    mkStore None (accessDenied s) (quotaExceeded s) (console s)))
      by (unfold clearHistory, try_catch, localStorage_removeItem;
          rewrite Ha; reflexivity).
    rewrite Hc. cbn [snd].
    destruct (@saveGeneration_records g
                (mkStore None (accessDenied s) (quotaExceeded s) (console s))
                [] (conj Ha Hq) eq_refl eq_refl) as (s' & E & Hi & _).
    rewrite E. cbn [snd]. unfold stored_entries. rewrite Hi. reflexivity.
Qed.

Lemma clearHistory_empties_witness :
  stored_entries
    (snd (saveGeneration (sample "a" "1")
            (snd (clearHistory
                    (mkStore (Some (Encodes (JObject []))) false
                       (fun _ => false) [])))))
  = Some [toJson (sample "a" "1")].
Proof.
  apply (proj2 (proj2 (proj2 (proj2
           (clearHistory_empties
              (mkStore (Some (Encodes (JObject []))) false (fun _ => false) [])
              (sample "a" "1")))))).
  split; reflexivity.
Defined.

(** *** Recording *)

(** X10.  What is recorded can be read back: with a working storage layer
    and a stored history, [getHistory] after [saveGeneration] returns the
    stored array, whose first element is the generation just recorded, and
    reading changes nothing. *)
Theorem getHistory_after_saveGeneration (g : Generation) (s : Store) :
  working s ->
  holds_history (item s) ->
  exists rest,
    stored_entries (snd (saveGeneration g s)) = Some (toJson g :: rest) /\
    fst (getHistory (snd (saveGeneration g s)))
    = Normal (JArray (toJson g :: rest)) /\
    item (snd (getHistory (snd (saveGeneration g s))))
    = item (snd (saveGeneration g s)).
Proof.
  intros Hw (items & Hh & Hn).
  destruct (saveGeneration_records g Hw Hh Hn) as (s1 & E1 & Hi1 & Hw1).
  rewrite E1. cbn [snd].
  assert (Hh1 : history_of (item s1) = Some (map written (recorded g items)))
    by (rewrite Hi1; reflexivity).
  destruct (getHistory_reads s1 (proj1 Hw1) Hh1) as (s2 & E2 & Hi2 & _).
  rewrite E2. cbn [fst snd]. unfold stored_entries. rewrite Hi1.
  exists (map written
            (firstn (MAX_HISTORY_ITEMS - 1)
               (filter (fun it => strict_neq (id_of it) (id g)) items))).
  split; [ reflexivity | ]. split; [ reflexivity | ].
  rewrite Hi2. exact Hi1.
Qed.

Lemma getHistory_after_saveGeneration_witness :
  exists rest,
    stored_entries
      (snd (saveGeneration (sample "a" "1")
              (mkStore (Some Malformed) false (fun _ => false) [])))
    = Some (toJson (sample "a" "1") :: rest) /\
    fst (getHistory
           (snd (saveGeneration (sample "a" "1")
                   (mkStore (Some Malformed) false (fun _ => false) []))))
    = Normal (JArray (toJson (sample "a" "1") :: rest)) /\
    item (snd (getHistory
                 (snd (saveGeneration (sample "a" "1")
                         (mkStore (Some Malformed) false (fun _ => false) [])))))
    = item (snd (saveGeneration (sample "a" "1")
                   (mkStore (Some Malformed) false (fun _ => false) []))).
Proof.
  apply (@getHistory_after_saveGeneration (sample "a" "1")
           (mkStore (Some Malformed) false (fun _ => false) [])).
  - split; reflexivity.
  - exists []. split; reflexivity.
Defined.

(** Recording a generation over the array that a record of the same
    generation has written computes that array again. *)
Lemma recorded_twice (g : Generation) (items : list Json) :
  recorded g (map written (recorded g items)) = map written (recorded g items).
Proof.
  assert (Hg : strict_neq (id_of (toJson g)) (id g) = false).
  { pose proof (has_id_toJson g) as H. unfold has_id in H.
    apply negb_true_iff in H. exact H. }
  unfold recorded. cbn [map]. rewrite written_toJson. f_equal.
  cbn [filter]. rewrite Hg.
  rewrite filter_map_written by (intros it; apply strict_neq_written).
  rewrite filter_firstn_filter, firstn_map, firstn_firstn.
  reflexivity.
Qed.

(** X11.  Recording the same generation twice in a row, as [handleGenerate]
    does, stores what recording it once stores. *)
Theorem saveGeneration_twice (g : Generation) (s : Store) :
  working s ->
  holds_history (item s) ->
  item (snd (saveGeneration g (snd (saveGeneration g s))))
  = item (snd (saveGeneration g s)).
Proof.
  intros Hw (items & Hh & Hn).
  destruct (saveGeneration_records g Hw Hh Hn) as (s1 & E1 & Hi1 & Hw1).
  assert (Hh1 : history_of (item s1) = Some (map written (recorded g items)))
    by (rewrite Hi1; reflexivity).
  destruct (saveGeneration_working g Hw1 Hh1) as (s2 & E2 & _ & Hi2).
  rewrite E1. cbn [snd]. rewrite E2. cbn [snd]. rewrite Hi2.
  destruct (existsb is_null (map written (recorded g items)));
    [ reflexivity | ].
  rewrite recorded_twice, map_written_idempotent. symmetry. exact Hi1.
Qed.

Lemma saveGeneration_twice_witness :
  item (snd (saveGeneration (sample "a" "1")
          (snd (saveGeneration (sample "a" "1")
                  (mkStore None false (fun _ => false) [])))))
  = item (snd (saveGeneration (sample "a" "1")
                 (mkStore None false (fun _ => false) []))).
Proof.
  apply (@saveGeneration_twice (sample "a" "1")
           (mkStore None false (fun _ => false) [])).
  - split; reflexivity.
  - exists []. split; reflexivity.
Defined.

(** X12.  Recording over a stored array without [null] that has at most
    five elements: when an element already carries the identifier, every
    other element is kept, in order and as it is written, behind the new
    generation; when none carries it and the array is full, the last
    element, the oldest, is the one that goes. *)
Theorem saveGeneration_who_goes
    (g : Generation) (s : Store) (items : list Json) :
  working s ->
  history_of (item s) = Some items ->
  existsb is_null items = false ->
  length items <= MAX_HISTORY_ITEMS ->
  (existsb (has_id (id g)) items = true ->
   stored_entries (snd (saveGeneration g s))
   = Some (toJson g
           :: map written
                (filter (fun it => negb (has_id (id g) it)) items))) /\
  (existsb (has_id (id g)) items = false ->
   length items = MAX_HISTORY_ITEMS ->
   stored_entries (snd (saveGeneration g s))
   = Some (toJson g :: map written (removelast items))).
Proof.
  intros Hw Hh Hn Hlen.
  destruct (saveGeneration_records g Hw Hh Hn) as (s1 & E1 & Hi1 & _).
  rewrite E1. cbn [snd]. unfold stored_entries. rewrite Hi1.
  unfold recorded. cbn [map]. rewrite written_toJson, filter_other_than.
  unfold MAX_HISTORY_ITEMS in *.
  split.
  - intros Hin. f_equal. f_equal. f_equal. apply firstn_all2.
    assert (Hlt : length (filter (fun it => negb (has_id (id g) it)) items)
                  < length items).
    { clear - Hin. induction items as [ | it rest IH]; [ discriminate Hin | ].
      cbn [existsb] in Hin. cbn [filter length].
      destruct (has_id (id g) it); cbn [negb orb length] in *.
      - pose proof (filter_length_le
                      (fun it => negb (has_id (id g) it)) rest). lia.
      - specialize (IH Hin). lia. }
    cbn. lia.
  - intros Hnone Hfull. rewrite (filter_none _ _ Hnone).
    rewrite removelast_firstn_len, Hfull. reflexivity.
Qed.

Lemma saveGeneration_who_goes_witness :
  stored_entries
    (snd (saveGeneration (sample "b" "new")
            (mkStore
               (Some (Encodes (JArray [toJson (sample "a" "1");
                                       toJson (sample "b" "2");
                                       toJson (sample "c" "3")])))
               false (fun _ => false) [])))
  = Some (toJson (sample "b" "new")
          :: map written
               (filter (fun it => negb (has_id (id (sample "b" "new")) it))
                  [toJson (sample "a" "1"); toJson (sample "b" "2");
                   toJson (sample "c" "3")])).
Proof.
  destruct (@saveGeneration_who_goes (sample "b" "new")
              (mkStore
                 (Some (Encodes (JArray [toJson (sample "a" "1");
                                         toJson (sample "b" "2");
                                         toJson (sample "c" "3")])))
                 false (fun _ => false) [])
              [toJson (sample "a" "1"); toJson (sample "b" "2");
               toJson (sample "c" "3")]) as [H _].
  - split; reflexivity.
  - reflexivity.
  - reflexivity.
  - unfold MAX_HISTORY_ITEMS. cbn. lia.
  - apply H. reflexivity.
Defined.

(** *** Invariants of the store *)

Lemma perform_bounded (op : Op) (s : Store) :
  bounded s ->
  exists s', perform op s = (Normal tt, s') /\ bounded s'.
Proof.
  intros Hb. destruct op as [g | i | | ]; cbn [perform].
  - destruct (saveGeneration_outcome g s)
      as (s' & E & _ & _ & [[Hi _] | (rest & Hi & Hl)]);
      exists s'; (split; [ exact E | ]); unfold bounded, stored_entries in *.
    + rewrite Hi. exact Hb.
    + rewrite Hi. exact Hl.
  - destruct (removeFromHistory_outcome i s)
      as (s' & E & _ & _ & [(old & Hh & Hi) | [Hi _]]);
      exists s'; (split; [ exact E | ]).
    + unfold bounded. unfold stored_entries at 1. rewrite Hi.
      rewrite length_map.
      pose proof (filter_length_le
                    (fun it => strict_neq (id_of it) i) old) as Hle.
      unfold bounded in Hb.
      destruct (stored_entries s) as [items | ] eqn:Hs.
      * apply stored_entries_history in Hs. rewrite Hs in Hh.
        injection Hh as <-. lia.
      * rewrite (history_without_entries _ Hh Hs). cbn. lia.
    + unfold bounded, stored_entries in *. rewrite Hi. exact Hb.
  - destruct (clearHistory_outcome s) as (s' & E & _ & _ & [Hi | [Hi _]]);
      exists s'; (split; [ exact E | ]); unfold bounded, stored_entries in *;
      rewrite Hi; [ exact I | exact Hb ].
  - destruct (getHistory_returns s) as (j & s' & E & Hi & _).
    exists s'. unfold bind. rewrite E. split; [ reflexivity | ].
    unfold bounded, stored_entries in *. rewrite Hi. exact Hb.
Qed.

(** X13.  The bound of five entries is an invariant of the module: when
    the stored array, if there is one, has at most five entries, then after
    any sequence of records, removals, clears and reads, on any storage
    layer, failing or not, the sequence has returned normally and the
    stored array, if there is one, has at most five entries. *)
Theorem history_stays_bounded (ops : list Op) (s : Store) :
  bounded s ->
  fst (performAll ops s) = Normal tt /\ bounded (snd (performAll ops s)).
Proof.
  revert s. induction ops as [ | op rest IH]; intros s Hb.
  - split; [ reflexivity | exact Hb ].
  - destruct (@perform_bounded op s Hb) as (s' & E & Hb').
    cbn [performAll]. unfold bind. rewrite E. apply IH, Hb'.
Qed.

Lemma history_stays_bounded_witness :
  fst (performAll [Save (sample "f" "6"); Remove "b"; Load;
                   Save (sample "g" "7"); Save (sample "c" "again")]
         (mkStore (Some (Encodes (JArray (map toJson (firstn 5 six_samples)))))
            false (fun _ => false) []))
  = Normal tt /\
  bounded
    (snd (performAll [Save (sample "f" "6"); Remove "b"; Load;
                      Save (sample "g" "7"); Save (sample "c" "again")]
            (mkStore
               (Some (Encodes (JArray (map toJson (firstn 5 six_samples)))))
               false (fun _ => false) []))).
Proof.
  apply (@history_stays_bounded
           [Save (sample "f" "6"); Remove "b"; Load;
            Save (sample "g" "7"); Save (sample "c" "again")]
           (mkStore
              (Some (Encodes (JArray (map toJson (firstn 5 six_samples)))))
              false (fun _ => false) [])).
  unfold bounded, MAX_HISTORY_ITEMS. cbn. lia.
Defined.

Lemma count_id_recorded (g : Generation) (i : string) (items : list Json) :
  (forall k, count_id k items <= 1) ->
  count_id i (recorded g items) <= 1.
Proof.
  intros Hu. destruct (String.eqb_spec i (id g)) as [-> | Hne].
  - unfold count_id. rewrite recorded_single. reflexivity.
  - unfold recorded, count_id. cbn [filter].
    assert (Hg : has_id i (toJson g) = false).
    { rewrite has_id_generation. apply String.eqb_neq. congruence. }
    rewrite Hg.
    pose proof (count_id_firstn_le i (MAX_HISTORY_ITEMS - 1)
                  (filter (fun it => strict_neq (id_of it) (id g)) items)).
    pose proof (count_id_filter_le i
                  (fun it => strict_neq (id_of it) (id g)) items).
    specialize (Hu i). unfold count_id in *. lia.
Qed.

(** X14.  Identifiers stay unique: with a working storage layer, when the
    stored array has no element that is, or is written as, [null] and no
    identifier is carried by more than one element, the same holds after
    any sequence of records, removals, clears and reads. *)
Theorem identifiers_stay_unique
    (ops : list Op) (s : Store) (items : list Json) :
  working s ->
  history_of (item s) = Some items ->
  existsb writes_null items = false ->
  (forall i, count_id i items <= 1) ->
  exists items',
    history_of (item (snd (performAll ops s))) = Some items' /\
    existsb writes_null items' = false /\
    forall i, count_id i items' <= 1.
Proof.
  revert s items. induction ops as [ | op rest IH]; intros s items Hw Hh Hn Hu.
  - exists items. auto.
  - cbn [performAll]. unfold bind.
    destruct op as [g | k | | ]; cbn [perform].
    + destruct (saveGeneration_records g Hw Hh (no_writes_null_no_null _ Hn))
        as (s' & E & Hi & Hw').
      rewrite E. apply (IH s' (map written (recorded g items)) Hw').
      * rewrite Hi. reflexivity.
      * rewrite writes_null_map_written. apply recorded_no_writes_null, Hn.
      * intros i. rewrite count_id_written. apply count_id_recorded, Hu.
    + destruct (removeFromHistory_removes k Hw Hh
                  (no_writes_null_no_null _ Hn)) as (s' & E & Hi & Hw').
      rewrite E.
      apply (IH s' (map written
                      (filter (fun it => negb (has_id k it)) items)) Hw').
      * rewrite Hi. reflexivity.
      * rewrite writes_null_map_written. apply existsb_filter_false, Hn.
      * intros i. rewrite count_id_written.
        pose proof (count_id_filter_le i
                      (fun it => negb (has_id k it)) items).
        specialize (Hu i). lia.
    + destruct Hw as [Ha Hq].
      assert (Hc : clearHistory s
                   = (Normal tt,
                      mkStore None (accessDenied s) (quotaExceeded s)
                        (console s)))
        by (unfold clearHistory, try_catch, localStorage_removeItem;
            rewrite Ha; reflexivity).
      rewrite Hc. apply (IH _ []).
      * split; [ exact Ha | exact Hq ].
      * reflexivity.
      * reflexivity.
      * intros i. cbn. lia.
    + destruct (getHistory_reads s (proj1 Hw) Hh) as (s' & E & Hi & Ha & Hq).
      unfold bind. rewrite E. apply (IH s' items).
      * destruct Hw as [Ha0 Hq0]. split; [ congruence | ].
        intros t. rewrite Hq. apply Hq0.
      * rewrite Hi. exact Hh.
      * exact Hn.
      * exact Hu.
Qed.

Lemma identifiers_stay_unique_witness :
  exists items',
    history_of
      (item (snd (performAll [Save (sample "a" "again"); Save (sample "d" "4");
                              Remove "b"]
                    (mkStore
                       (Some (Encodes (JArray (map toJson
                          [sample "a" "1"; sample "b" "2"; sample "c" "3"]))))
                       false (fun _ => false) []))))
    = Some items' /\
    existsb writes_null items' = false /\
    forall i, count_id i items' <= 1.
Proof.
  apply (@identifiers_stay_unique
           [Save (sample "a" "again"); Save (sample "d" "4"); Remove "b"]
           (mkStore
              (Some (Encodes (JArray (map toJson
                 [sample "a" "1"; sample "b" "2"; sample "c" "3"]))))
              false (fun _ => false) [])
           (map toJson [sample "a" "1"; sample "b" "2"; sample "c" "3"])).
  - split; reflexivity.
  - reflexivity.
  - reflexivity.
  - intros i. unfold count_id. cbn [map filter].
    rewrite !has_id_generation. cbn [id sample].
    destruct (String.eqb_spec "a" i) as [<- | _];
      [ cbn; lia | ].
    destruct (String.eqb_spec "b" i) as [<- | _];
      [ cbn; lia | ].
    destruct (String.eqb "c" i); cbn; lia.
Defined.

(** *** The last five records *)

(** The callback of the filter accepts a generation with another
    identifier. *)
Lemma keeps_generation (g h : Generation) :
  id h <> id g -> strict_neq (id_of (toJson h)) (id g) = true.
Proof.
  intros Hne. cbn. apply negb_true_iff, String.eqb_neq. exact Hne.
Qed.

Lemma keeps_generations (g : Generation) (hs : list Generation) :
  ~ In (id g) (map id hs) ->
  forallb (fun it => strict_neq (id_of it) (id g)) (map toJson hs) = true.
Proof.
  induction hs as [ | h rest IH]; intros Hnot; [ reflexivity | ].
  cbn [map forallb]. cbn [map In] in Hnot.
  rewrite keeps_generation by intuition congruence.
  apply IH. intuition.
Qed.

Lemma in_firstn (A : Type) (x : A) (n : nat) (l : list A) :
  In x (firstn n l) -> In x l.
Proof.
  intros H. rewrite <- (firstn_skipn n l). apply in_or_app. left. exact H.
Qed.

(** A record over an array that starts with the generations recorded so
    far, the last first, puts the new generation in front of them. *)
Lemma recorded_in_front (g : Generation) (hs : list Generation)
    (older : list Json) :
  ~ In (id g) (map id hs) ->
  exists older',
    map written
      (recorded g (map toJson (firstn MAX_HISTORY_ITEMS hs) ++ older)%list)
    = (map toJson (firstn MAX_HISTORY_ITEMS (g :: hs)) ++ older')%list.
Proof.
  intros Hnot.
  assert (Hkeep : forallb (fun it => strict_neq (id_of it) (id g))
                    (map toJson (firstn MAX_HISTORY_ITEMS hs)) = true).
  { apply keeps_generations. intros Hin. apply Hnot.
    apply in_map_iff in Hin. destruct Hin as (h & Hh & Hin).
    apply in_map_iff. exists h. split; [ exact Hh | ].
    eapply in_firstn. exact Hin. }
  unfold recorded, MAX_HISTORY_ITEMS in *. cbn [Nat.sub].
  rewrite filter_app, (filter_all _ _ Hkeep).
  rewrite firstn_app, firstn_map, firstn_firstn. cbn [Nat.min].
  eexists. cbn [map firstn app]. rewrite written_toJson. f_equal.
  rewrite map_app, map_written_toJson. reflexivity.
Qed.

Lemma saveAll_app (gs hs : list Generation) (s : Store) :
  fst (saveAll gs s) = Normal tt ->
  saveAll (gs ++ hs)%list s = saveAll hs (snd (saveAll gs s)).
Proof.
  revert s. induction gs as [ | g rest IH]; intros s H; [ reflexivity | ].
  cbn [app saveAll] in *. unfold bind in *.
  destruct (saveGeneration g s) as [[[] | e] s1]; [ | discriminate H ].
  apply IH, H.
Qed.

(** With a working storage layer and a stored history, the records of
    generations with pairwise distinct identifiers leave the last five of
    them in front of the stored array, the last one first; once a record
    has been made the array has at most five elements. *)
Lemma saveAll_in_front (gs : list Generation) :
  forall (s : Store) (items : list Json),
    working s ->
    history_of (item s) = Some items ->
    existsb writes_null items = false ->
    NoDup (map id gs) ->
    exists older,
      fst (saveAll gs s) = Normal tt /\
      working (snd (saveAll gs s)) /\
      history_of (item (snd (saveAll gs s)))
      = Some (map toJson (firstn MAX_HISTORY_ITEMS (rev gs)) ++ older)%list /\
      existsb writes_null
        (map toJson (firstn MAX_HISTORY_ITEMS (rev gs)) ++ older)%list = false /\
      (gs <> [] ->
       length (map toJson (firstn MAX_HISTORY_ITEMS (rev gs)) ++ older)%list
       <= MAX_HISTORY_ITEMS).
Proof.
  induction gs as [ | g gs IH] using rev_ind;
    intros s items Hw Hh Hn Hd.
  - exists items. cbn [saveAll rev map app fst snd ret firstn].
    split; [ reflexivity | ]. split; [ exact Hw | ].
    split; [ exact Hh | ]. split; [ exact Hn | ].
    intros H. exfalso. apply H. reflexivity.
  - rewrite map_app in Hd. cbn [map] in Hd.
    apply NoDup_remove in Hd. rewrite app_nil_r in Hd.
    destruct Hd as [Hd Hnot].
    destruct (IH s items Hw Hh Hn Hd)
      as (older & H1 & Hw1 & Hh1 & Hn1 & _).
    rewrite (saveAll_app _ _ _ H1).
    set (s1 := snd (saveAll gs s)) in *.
    cbn [saveAll]. unfold bind.
    destruct (saveGeneration_records g Hw1 Hh1 (no_writes_null_no_null _ Hn1))
      as (s2 & E2 & Hi2 & Hw2).
    rewrite E2. cbn [ret fst snd].
    assert (Hnot' : ~ In (id g) (map id (rev gs)))
      by (rewrite map_rev; intros Hin; apply in_rev in Hin; exact (Hnot Hin)).
    destruct (recorded_in_front g (rev gs) older Hnot') as (older' & Hrec).
    exists older'. rewrite rev_app_distr. cbn [rev app].
    split; [ reflexivity | ]. split; [ exact Hw2 | ].
    rewrite Hi2. cbn [history_of]. rewrite Hrec.
    split; [ reflexivity | ]. split.
    + rewrite <- Hrec, writes_null_map_written.
      apply recorded_no_writes_null, Hn1.
    + intros _. rewrite <- Hrec, length_map. apply recorded_length.
Qed.

(** X24.  With a working storage layer and a stored history, after the
    records of five or more generations with pairwise distinct identifiers
    exactly the last five of them are stored, the most recently recorded
    first: six records leave the last five. *)
Theorem saveAll_keeps_last_five (gs : list Generation) (s : Store) :
  working s ->
  holds_entries (item s) ->
  NoDup (map id gs) ->
  MAX_HISTORY_ITEMS <= length gs ->
  fst (saveAll gs s) = Normal tt /\
  stored_entries (snd (saveAll gs s))
  = Some (map toJson (firstn MAX_HISTORY_ITEMS (rev gs))).
Proof.
  intros Hw (items & Hh & Hn) Hd Hlen.
  destruct (@saveAll_in_front gs s items Hw Hh Hn Hd)
    as (older & H1 & _ & Hh1 & _ & Hle).
  split; [ exact H1 | ].
  unfold MAX_HISTORY_ITEMS in *.
  assert (Hgs : gs <> [])
    by (destruct gs; [ cbn in Hlen; lia | discriminate ]).
  specialize (Hle Hgs).
  rewrite length_app, length_map, length_firstn, length_rev in Hle.
  assert (Holder : older = [])
    by (destruct older; [ reflexivity | cbn [length] in Hle; lia ]).
  subst older. rewrite app_nil_r in Hh1.
  destruct (firstn 5 (rev gs)) as [ | h rest] eqn:Efirst.
  - apply (f_equal (@length _)) in Efirst.
    rewrite length_firstn, length_rev in Efirst. cbn [length] in Efirst. lia.
  - apply history_with_entries. exact Hh1.
Qed.

Lemma saveAll_keeps_last_five_witness :
  stored_entries
    (snd (saveAll six_samples
            (mkStore
               (Some (Encodes (JArray (map toJson
                  [sample "x" "old"; sample "c" "older"]))))
               false (fun _ => false) [])))
  = Some (map toJson (firstn MAX_HISTORY_ITEMS (rev six_samples))).
Proof.
  apply (@saveAll_keeps_last_five six_samples
           (mkStore
              (Some (Encodes (JArray (map toJson
                 [sample "x" "old"; sample "c" "older"]))))
              false (fun _ => false) [])).
  - split; reflexivity.
  - eexists. split; reflexivity.
  - repeat constructor; cbn; intuition discriminate.
  - unfold MAX_HISTORY_ITEMS. cbn. lia.
Defined.

End StorageUtilsFacts.

(** ** apiUtils *)

Module ApiUtilsFacts.
Import Js ApiUtils ApiUtilsSpec ApiLog.
Local Open Scope Q_scope.
Set Warnings "-notation-for-abbreviation".

Section LoopFacts.

Variable random : nat -> Q.
Variable T : Type.
Variable fn : Thunk T.
Variable maxRetries : Z.
Variables baseDelay maxJitter : Q.

Notation loop := (attempts random fn maxRetries baseDelay maxJitter).
Notation loop_cases := (@loop_inv random T fn maxRetries baseDelay maxJitter).

(** The calls of a run are numbered from the attempt the loop starts at,
    there is one call more than there are waits, and no attempt has a
    number above [maxRetries]. *)
Lemma loop_numbering (fuel : nat) :
  forall (attempt : Z) (lastError : Thrown) (env : Env) (run : Run T),
    (attempt <= maxRetries)%Z ->
    loop fuel attempt lastError env = Some run ->
    attempt_numbers (log run) = count_from attempt (invocations (log run)) /\
    invocations (log run) = S (length (waits (log run))) /\
    (attempt + Z.of_nat (invocations (log run)) <= maxRetries + 1)%Z.
Proof.
  induction fuel as [ | fuel IH]; intros attempt lastError env run Hle Hrun;
    [ discriminate Hrun | ].
  apply loop_cases in Hrun.
  destruct Hrun as [[Hgt _] | (_ & settled & env1 & Hfn & [Hstop | Hretry])].
  - lia.
  - destruct Hstop as (res & -> & _). cbn. repeat split; lia.
  - destruct Hretry as (e & run' & -> & Ho & Hlt & Hrec & ->).
    assert (Hle' : (attempt + 1 <= maxRetries)%Z) by lia.
    destruct (IH _ _ _ _ Hle' Hrec) as (Hnum & Hcount & Hmax).
    cbn [log app attempt_numbers waits length].
    unfold invocations in *. cbn [filter is_call length count_from].
    rewrite Hnum. repeat split; lia.
Qed.

(** A property of environments that the thunk keeps; waiting and drawing
    random numbers must keep it too. *)
Variable Inv : Env -> Prop.
Hypothesis Inv_fn : forall k e, Inv e -> Inv (snd (fn k e)).
Hypothesis Inv_elapse : forall ms e, Inv e -> Inv (elapse ms e).
Hypothesis Inv_random : forall e, Inv e -> Inv (snd (Math_random random e)).

(** A run that makes an attempt ends with a call of the thunk; every call
    before it was overloaded, and the run settles as that call did. *)
Lemma loop_last_call (fuel : nat) :
  forall (attempt : Z) (lastError : Thrown) (env : Env) (run : Run T),
    (attempt <= maxRetries)%Z ->
    Inv env ->
    loop fuel attempt lastError env = Some run ->
    exists pre n env0 settled,
      log run = pre ++ [Invoked n (clock env0) settled] /\
      fn (Z.to_nat (n - 1)) env0 = (settled, final run) /\
      result run = surfaced settled /\
      forallb is_overloaded_call (filter is_call pre) = true /\
      (forall e, settled = Rejected (Obj e) -> overload e = true ->
                 n = maxRetries) /\
      Inv env0 /\
      (n = attempt + Z.of_nat (invocations (log run)) - 1)%Z.
Proof.
  induction fuel as [ | fuel IH];
    intros attempt lastError env run Hle Hinv Hrun; [ discriminate Hrun | ].
  pose proof Hrun as Hrun0.
  apply loop_cases in Hrun.
  destruct Hrun as [[Hgt _] | (_ & settled & env1 & Hfn & [Hstop | Hretry])].
  - lia.
  - destruct Hstop as (res & -> & _ & Hlast).
    exists [], attempt, env, settled. cbn [log final result app].
    split; [ reflexivity | ]. split; [ exact Hfn | ].
    split; [ | split; [ reflexivity | split; [ exact Hlast | ] ] ].
    + cbn [attempts] in Hrun0.
      destruct (Z.leb_spec attempt maxRetries); [ | lia ].
      rewrite Hfn in Hrun0.
      destruct settled as [v | [ | e]]; cbn in Hrun0.
      * injection Hrun0 as <-. reflexivity.
      * injection Hrun0 as <-. reflexivity.
      * destruct (isDOMException e &&
                  match name e with
                  | Some n => String.eqb n "AbortError"
                  | None => false
                  end); [ injection Hrun0 as <-; reflexivity | ].
        destruct (negb (isRetryableError e) || (attempt =? maxRetries)%Z);
          [ injection Hrun0 as <-; reflexivity | ].
        exfalso.
        destruct (attempts random fn maxRetries baseDelay maxJitter fuel _ _ _)
          as [r | ]; [ | discriminate Hrun0 ].
        cbn in Hrun0. discriminate Hrun0.
    + split; [ exact Hinv | ]. cbn. lia.
  - destruct Hretry as (e & run' & -> & Ho & Hlt & Hrec & ->).
    assert (Hle' : (attempt + 1 <= maxRetries)%Z) by lia.
    assert (Hinv' : Inv (elapse
                           (baseDelay * 2 ^ (attempt - 1)
                            + random (drawn env1) * maxJitter)
                           (snd (Math_random random env1)))).
    { apply Inv_elapse, Inv_random.
      pose proof (Inv_fn (Z.to_nat (attempt - 1)) Hinv) as H.
      rewrite Hfn in H. exact H. }
    destruct (IH _ _ _ _ Hle' Hinv' Hrec)
      as (pre & n & env0 & settled & Hlog & Hfn0 & Hres & Hall & Hlast
          & Hinv0 & Hn).
    exists ([Invoked attempt (clock env) (Rejected (Obj e));
             Waited attempt (clock env1)
               (baseDelay * 2 ^ (attempt - 1) + random (drawn env1) * maxJitter)]
            ++ pre), n, env0, settled.
    cbn [log final result].
    split; [ rewrite Hlog; reflexivity | ]. split; [ exact Hfn0 | ].
    split; [ exact Hres | ]. split; [ | split; [ exact Hlast | ] ].
    + cbn [app filter is_call forallb is_overloaded_call]. rewrite Ho, Hall.
      reflexivity.
    + split; [ exact Hinv0 | ].
      unfold invocations in *. cbn [app filter is_call length]. lia.
Qed.

(** When no call takes more than [latency], a run is over after as many
    latencies as it made calls, plus the time it waited. *)
Variable latency : Q.
Hypothesis fn_latency :
  forall k e, Inv e -> clock (snd (fn k e)) <= clock e + latency.

Lemma loop_clock (fuel : nat) :
  forall (attempt : Z) (lastError : Thrown) (env : Env) (run : Run T),
    (attempt <= maxRetries)%Z ->
    Inv env ->
    loop fuel attempt lastError env = Some run ->
    clock (final run)
    <= clock env
       + inject_Z (Z.of_nat (invocations (log run))) * latency
       + total_wait (waits (log run)).
Proof.
  induction fuel as [ | fuel IH];
    intros attempt lastError env run Hle Hinv Hrun; [ discriminate Hrun | ].
  apply loop_cases in Hrun.
  destruct Hrun as [[Hgt _] | (_ & settled & env1 & Hfn & [Hstop | Hretry])].
  - lia.
  - destruct Hstop as (res & -> & _). cbn [log final waits total_wait].
    pose proof (fn_latency (Z.to_nat (attempt - 1)) Hinv) as Hl.
    rewrite Hfn in Hl. cbn [snd] in Hl.
    unfold invocations. cbn [filter is_call length Z.of_nat].
    change (inject_Z (Z.pos (Pos.of_succ_nat 0))) with 1. lra.
  - destruct Hretry as (e & run' & -> & Ho & Hlt & Hrec & ->).
    assert (Hle' : (attempt + 1 <= maxRetries)%Z) by lia.
    pose proof (Inv_fn (Z.to_nat (attempt - 1)) Hinv) as Hinv1.
    pose proof (fn_latency (Z.to_nat (attempt - 1)) Hinv) as Hl.
    rewrite Hfn in Hinv1, Hl. cbn [snd] in Hinv1, Hl.
    assert (Hinv' : Inv (elapse
                           (baseDelay * 2 ^ (attempt - 1)
                            + random (drawn env1) * maxJitter)
                           (snd (Math_random random env1))))
      by (apply Inv_elapse, Inv_random, Hinv1).
    pose proof (IH _ _ _ _ Hle' Hinv' Hrec) as Hrest.
    cbn [elapse clock Math_random snd] in Hrest.
    rewrite Qred_correct in Hrest.
    cbn [log final app waits total_wait].
    unfold invocations in *. cbn [filter is_call length].
    rewrite Nat2Z.inj_succ, <- Z.add_1_r, inject_Z_plus.
    change (inject_Z 1) with 1.
    set (k := inject_Z (Z.of_nat (length (filter is_call (log run'))))) in *.
    assert (E : (k + 1) * latency == k * latency + latency) by ring.
    rewrite E. set (kl := k * latency) in *.
    set (w := baseDelay * 2 ^ (attempt - 1) + random (drawn env1) * maxJitter)
      in *.
    lra.
Qed.

(** Powers of two. *)
Lemma pow2_pos (z : Z) : 0 < 2 ^ z.
Proof. apply Qpower_0_lt. reflexivity. Qed.

Lemma pow2_succ (z : Z) : 2 ^ (z + 1) == 2 * 2 ^ z.
Proof.
  rewrite Qpower_plus by discriminate. change (2 ^ 1) with 2. ring.
Qed.

Lemma pow2_mono (a b : Z) : (a <= b)%Z -> 2 ^ a <= 2 ^ b.
Proof.
  intros Hab. replace b with (a + Z.of_nat (Z.to_nat (b - a)))%Z by lia.
  induction (Z.to_nat (b - a)) as [ | k IH].
  - rewrite Z.add_0_r. apply Qle_refl.
  - rewrite Nat2Z.inj_succ.
    replace (a + Z.succ (Z.of_nat k))%Z with (a + Z.of_nat k + 1)%Z by lia.
    rewrite pow2_succ. pose proof (pow2_pos (a + Z.of_nat k)). lra.
Qed.

Hypothesis random_range : forall i, 0 <= random i < 1.
Hypothesis baseDelay_nonneg : 0 <= baseDelay.
Hypothesis maxJitter_nonneg : 0 <= maxJitter.

(** The waits of a run that starts at [attempt] add up to at most the base
    delay times the powers of two from [attempt - 1] to [maxRetries - 2],
    plus one jitter bound for each attempt that can be followed by a
    wait. *)
Lemma loop_total_wait (fuel : nat) :
  forall (attempt : Z) (lastError : Thrown) (env : Env) (run : Run T),
    (attempt <= maxRetries)%Z ->
    loop fuel attempt lastError env = Some run ->
    total_wait (waits (log run))
    <= baseDelay * (2 ^ (maxRetries - 1) - 2 ^ (attempt - 1))
       + inject_Z (maxRetries - attempt) * maxJitter.
Proof.
  induction fuel as [ | fuel IH]; intros attempt lastError env run Hle Hrun;
    [ discriminate Hrun | ].
  assert (Hpow : 2 ^ (attempt - 1) <= 2 ^ (maxRetries - 1))
    by (apply pow2_mono; lia).
  assert (Hcount : 0 <= inject_Z (maxRetries - attempt))
    by (change 0 with (inject_Z 0); rewrite <- Zle_Qle; lia).
  apply loop_cases in Hrun.
  destruct Hrun as [[Hgt _] | (_ & settled & env1 & Hfn & [Hstop | Hretry])].
  - lia.
  - destruct Hstop as (res & -> & _). cbn [log waits total_wait].
    assert (0 <= baseDelay * (2 ^ (maxRetries - 1) - 2 ^ (attempt - 1)))
      by (apply Qmult_le_0_compat; [ exact baseDelay_nonneg | lra ]).
    assert (0 <= inject_Z (maxRetries - attempt) * maxJitter)
      by (apply Qmult_le_0_compat; assumption).
    lra.
  - destruct Hretry as (e & run' & -> & Ho & Hlt & Hrec & ->).
    assert (Hle' : (attempt + 1 <= maxRetries)%Z) by lia.
    pose proof (IH _ _ _ _ Hle' Hrec) as Hrest.
    cbn [log app waits total_wait].
    replace (attempt + 1 - 1)%Z with (attempt - 1 + 1)%Z in Hrest by lia.
    rewrite pow2_succ in Hrest.
    replace (maxRetries - attempt)%Z
      with (maxRetries - (attempt + 1) + 1)%Z by lia.
    rewrite inject_Z_plus. change (inject_Z 1) with 1.
    destruct (random_range (drawn env1)) as [Hlo Hhi].
    assert (Hjit : random (drawn env1) * maxJitter <= 1 * maxJitter)
      by (apply Qmult_le_compat_r; [ apply Qlt_le_weak, Hhi
                                   | exact maxJitter_nonneg ]).
    set (j := random (drawn env1) * maxJitter) in *.
    set (X := 2 ^ (attempt - 1)) in *.
    set (Y := 2 ^ (maxRetries - 1)) in *.
    set (n := inject_Z (maxRetries - (attempt + 1))) in *.
    set (tw := total_wait (waits (log run'))) in *.
    assert (E1 : baseDelay * (Y - 2 * X) == baseDelay * Y - 2 * (baseDelay * X))
      by ring.
    assert (E2 : baseDelay * (Y - X) == baseDelay * Y - baseDelay * X) by ring.
    assert (E3 : (n + 1) * maxJitter == n * maxJitter + maxJitter) by ring.
    rewrite E1 in Hrest. rewrite E2, E3.
    set (A := baseDelay * X) in *. set (B := baseDelay * Y) in *.
    set (C := n * maxJitter) in *. lra.
Qed.

End LoopFacts.

(** X15.  With at least one attempt allowed, [retryWithBackoff] calls the
    thunk at least once and at most [maxRetries] times, the calls are
    attempts 1, 2, 3, ... without a gap, and there is a wait between two
    calls and nowhere else. *)
Theorem retryWithBackoff_attempts_numbered
    (random : nat -> Q) (T : Type) (fn : Thunk T) (maxRetries : Z)
    (baseDelay maxJitter : Q) (env : Env) :
  (1 <= maxRetries)%Z ->
  exists run,
    retryWithBackoff random fn maxRetries baseDelay maxJitter env = Some run /\
    attempt_numbers (log run) = count_from 1 (invocations (log run)) /\
    (1 <= Z.of_nat (invocations (log run)) <= maxRetries)%Z /\
    invocations (log run) = S (length (waits (log run))).
Proof.
  intros Hmax.
  destruct (retryWithBackoff_returns random fn maxRetries baseDelay maxJitter
              env) as [run Hrun].
  exists run. split; [ exact Hrun | ].
  unfold retryWithBackoff in Hrun.
  destruct (@loop_numbering random T fn maxRetries baseDelay maxJitter
              _ _ _ _ _ Hmax Hrun) as (Hnum & Hcount & Hbound).
  repeat split; try assumption; lia.
Qed.

Lemma retryWithBackoff_attempts_numbered_witness :
  exists run,
    retryWithBackoff (fun _ => 1 # 2) third_time_lucky 3 500 100
      (mkEnv 0 None 0) = Some run /\
    attempt_numbers (log run) = count_from 1 (invocations (log run)) /\
    (1 <= Z.of_nat (invocations (log run)) <= 3)%Z /\
    invocations (log run) = S (length (waits (log run))).
Proof.
  apply (@retryWithBackoff_attempts_numbered (fun _ => 1 # 2) nat
           third_time_lucky 3 500 100 (mkEnv 0 None 0)).
  lia.
Defined.

(** X16.  When no attempt is allowed ([maxRetries] is 0 or negative) the
    thunk is never called, nothing is waited for, and the promise rejects
    with [undefined], the error variable never having been assigned. *)
Theorem retryWithBackoff_without_attempts
    (random : nat -> Q) (T : Type) (fn : Thunk T) (maxRetries : Z)
    (baseDelay maxJitter : Q) (env : Env) :
  (maxRetries <= 0)%Z ->
  retryWithBackoff random fn maxRetries baseDelay maxJitter env
  = Some (mkRun (Rejected Undefined) [] env).
Proof.
  intros Hmax. unfold retryWithBackoff. apply loop_exit. lia.
Qed.

Lemma retryWithBackoff_without_attempts_witness :
  retryWithBackoff (fun _ => 1 # 2) always_overloaded 0 500 100
    (mkEnv 0 None 0)
  = Some (mkRun (Rejected Undefined) [] (mkEnv 0 None 0)).
Proof.
  apply (@retryWithBackoff_without_attempts (fun _ => 1 # 2) nat
           always_overloaded 0 500 100 (mkEnv 0 None 0)).
  lia.
Defined.

(** X17.  With at least one attempt allowed, a run ends with a call of the
    thunk and settles as that call did: it fulfils with the value the call
    fulfilled with and rejects with the object the call rejected with (with
    a [TypeError] when the call rejected with [undefined]).  Every call
    before the last was an overload, and a run that ends on an overload has
    used attempt [maxRetries]. *)
Theorem retryWithBackoff_settles_as_last_call
    (random : nat -> Q) (T : Type) (fn : Thunk T) (maxRetries : Z)
    (baseDelay maxJitter : Q) (env : Env) :
  (1 <= maxRetries)%Z ->
  exists run pre n env0 settled,
    retryWithBackoff random fn maxRetries baseDelay maxJitter env = Some run /\
    log run = pre ++ [Invoked n (clock env0) settled] /\
    fn (Z.to_nat (n - 1)) env0 = (settled, final run) /\
    result run = surfaced settled /\
    forallb is_overloaded_call (filter is_call pre) = true /\
    (forall e, settled = Rejected (Obj e) -> overload e = true ->
               n = maxRetries).
Proof.
  intros Hmax.
  destruct (retryWithBackoff_returns random fn maxRetries baseDelay maxJitter
              env) as [run Hrun].
  exists run. unfold retryWithBackoff in Hrun.
  destruct (@loop_last_call random T fn maxRetries baseDelay maxJitter
              (fun _ => True) (fun _ _ _ => I) (fun _ _ _ => I)
              (fun _ _ => I) _ _ _ _ _ Hmax I Hrun)
    as (pre & n & env0 & settled & H1 & H2 & H3 & H4 & H5 & _).
  exists pre, n, env0, settled. auto 10.
Qed.

Lemma retryWithBackoff_settles_as_last_call_witness :
  exists run pre n env0 settled,
    retryWithBackoff (fun _ => 1 # 2) third_time_lucky 3 500 100
      (mkEnv 0 None 0) = Some run /\
    log run = pre ++ [Invoked n (clock env0) settled] /\
    third_time_lucky (Z.to_nat (n - 1)) env0 = (settled, final run) /\
    result run = surfaced settled /\
    forallb is_overloaded_call (filter is_call pre) = true /\
    (forall e, settled = Rejected (Obj e) -> overload e = true -> n = 3%Z).
Proof.
  apply (@retryWithBackoff_settles_as_last_call (fun _ => 1 # 2) nat
           third_time_lucky 3 500 100 (mkEnv 0 None 0)).
  lia.
Defined.

(** X18.  When [Math.random()] returns numbers in [[0, 1)] and neither the
    base delay nor the jitter bound is negative, the waits of a run add up
    to at most [baseDelay * (2 ^ (maxRetries - 1) - 1)] plus
    [maxRetries - 1] jitter bounds: with the default values, to at most
    1700ms. *)
Theorem retryWithBackoff_total_wait
    (random : nat -> Q) (T : Type) (fn : Thunk T) (maxRetries : Z)
    (baseDelay maxJitter : Q) (env : Env) :
  (forall i, 0 <= random i < 1) ->
  0 <= baseDelay -> 0 <= maxJitter ->
  (1 <= maxRetries)%Z ->
  (exists run,
      retryWithBackoff random fn maxRetries baseDelay maxJitter env = Some run /\
      total_wait (waits (log run))
      <= baseDelay * (2 ^ (maxRetries - 1) - 1)
         + inject_Z (maxRetries - 1) * maxJitter) /\
  (exists run,
      retryWithBackoff random fn default_maxRetries default_baseDelay
        default_maxJitter env = Some run /\
      total_wait (waits (log run)) <= 1700).
Proof.
  intros Hr Hb Hj Hmax. split.
  - destruct (retryWithBackoff_returns random fn maxRetries baseDelay
                maxJitter env) as [run Hrun].
    exists run. split; [ exact Hrun | ].
    unfold retryWithBackoff in Hrun.
    exact (@loop_total_wait random T fn maxRetries baseDelay maxJitter
             Hr Hb Hj _ _ _ _ _ Hmax Hrun).
  - destruct (retryWithBackoff_returns random fn default_maxRetries
                default_baseDelay default_maxJitter env) as [run Hrun].
    exists run. split; [ exact Hrun | ].
    unfold retryWithBackoff in Hrun.
    assert (Hb0 : 0 <= default_baseDelay) by (cbv; discriminate).
    assert (Hj0 : 0 <= default_maxJitter) by (cbv; discriminate).
    assert (Hm0 : (1 <= default_maxRetries)%Z) by (cbv; discriminate).
    exact (@loop_total_wait random T fn default_maxRetries
             default_baseDelay default_maxJitter Hr Hb0 Hj0 _ _ _ _ _
             Hm0 Hrun).
Qed.

Lemma retryWithBackoff_total_wait_witness :
  exists run,
    retryWithBackoff (fun _ => 1 # 2) always_overloaded default_maxRetries
      default_baseDelay default_maxJitter (mkEnv 0 None 0) = Some run /\
    total_wait (waits (log run)) <= 1700.
Proof.
  destruct (@retryWithBackoff_total_wait (fun _ => 1 # 2) nat
              always_overloaded 3 500 100 (mkEnv 0 None 0)) as [_ H].
  - intros i. split; [ discriminate | reflexivity ].
  - discriminate.
  - discriminate.
  - lia.
  - exact H.
Defined.

(** *** mockApiCall *)

Lemma Qlt_bool_iff (x y : Q) : Qlt_bool x y = true <-> x < y.
Proof.
  unfold Qlt_bool. rewrite negb_true_iff. split.
  - intros H. apply Qnot_le_lt. intros Hle.
    apply Qle_bool_iff in Hle. congruence.
  - intros H. destruct (Qle_bool y x) eqn:E; [ | reflexivity ].
    apply Qle_bool_iff in E. exfalso. exact (Qlt_not_le _ _ H E).
Qed.

(** The listener of a call made at [t0] runs at [ta]. *)
Lemma abort_event_between_Some (t0 t1 ta : Q) (env : Env) :
  abort_event_between t0 t1 env = Some ta ->
  abortAt env = Some ta /\ t0 < ta /\ ta < t1.
Proof.
  unfold abort_event_between. destruct (abortAt env) as [ta' | ];
    [ | discriminate ].
  destruct (Qlt_bool t0 ta' && Qlt_bool ta' t1) eqn:E; [ | discriminate ].
  intros H. injection H as <-. apply andb_true_iff in E.
  destruct E as [E1 E2]. apply Qlt_bool_iff in E1, E2. auto.
Qed.

(** The index into [MOCK_IMAGES] is in range. *)
Lemma mock_image_chosen (r : Q) :
  0 <= r < 1 ->
  exists u,
    nth_error MOCK_IMAGES
      (Z.to_nat (Qfloor (r * inject_Z (Z.of_nat (length MOCK_IMAGES)))))
    = Some u /\ In u MOCK_IMAGES.
Proof.
  intros [Hlo Hhi].
  change (inject_Z (Z.of_nat (length MOCK_IMAGES))) with 5.
  assert (H0 : (0 <= Qfloor (r * 5))%Z).
  { change 0%Z with (Qfloor 0). apply Qfloor_resp_le. lra. }
  assert (H5 : (Qfloor (r * 5) < 5)%Z).
  { rewrite Zlt_Qlt. apply Qle_lt_trans with (r * 5);
      [ apply Qfloor_le | change (inject_Z 5) with 5; lra ]. }
  assert (Hk : (Z.to_nat (Qfloor (r * 5)) < 5)%nat) by lia.
  destruct (Z.to_nat (Qfloor (r * 5))) as [ | [ | [ | [ | [ | k]]]]];
    [ | | | | | lia ];
    (eexists; split; [ reflexivity | cbn; auto 10 ]).
Qed.

(** The ways in which [mockApiCall] settles. *)
Lemma mockApiCall_cases
    (random : nat -> Q) (request : ApiRequest) (signal : bool) (env : Env) :
  (forall i, 0 <= random i < 1) ->
  abortAt (snd (mockApiCall random request signal env)) = abortAt env /\
  ((exists r u,
       fst (mockApiCall random request signal env) = Fulfilled r /\
       res_prompt r = prompt request /\ res_style r = style request /\
       imageUrl r = Some u /\ In u MOCK_IMAGES /\
       createdAt r = clock (snd (mockApiCall random request signal env)) /\
       fst (id r) = clock (snd (mockApiCall random request signal env)))
   \/
   fst (mockApiCall random request signal env) = Rejected (Obj overloaded)
   \/
   (fst (mockApiCall random request signal env)
    = Rejected (Obj requestAborted) /\
    signal = true /\
    exists ta,
      abortAt env = Some ta /\ clock env < ta /\
      clock (snd (mockApiCall random request signal env)) == ta)).
Proof.
  intros Hr. unfold mockApiCall. cbn [Math_random].
  set (env1 := mkEnv (clock env) (abortAt env) (S (drawn env))).
  destruct (if signal
            then abort_event_between (clock env)
                   (clock env + (1000 + random (drawn env) * 1000)) env1
            else None) as [ta | ] eqn:Eab.
  - cbn [fst snd]. split; [ reflexivity | ]. right. right.
    destruct signal; [ | discriminate Eab ].
    apply abort_event_between_Some in Eab. destruct Eab as (Hta & Hlo & Hhi).
    split; [ reflexivity | ]. split; [ reflexivity | ].
    exists ta. split; [ exact Hta | ]. split; [ exact Hlo | ].
    cbn [resume_at clock]. apply Qred_correct.
  - subst env1. cbn [elapse clock abortAt drawn].
    destruct (Qlt_bool _ _).
    + cbn [fst snd abortAt]. split; [ reflexivity | ]. right. left.
      reflexivity.
    + cbn [fst snd clock abortAt].
      split; [ reflexivity | ]. left.
      destruct (mock_image_chosen (Hr (S (S (S (drawn env))))))
        as (u & Hu & Hin).
      eexists _, u. split; [ reflexivity | ].
      cbn [res_prompt res_style imageUrl createdAt id fst].
      repeat split; try reflexivity; assumption.
Qed.

(** X19.  What [mockApiCall] can do, when [Math.random()] returns numbers
    in [[0, 1)].  It fulfils with a response that echoes the prompt and the
    style of the request, carries one of the five mock images and is
    stamped with the time at which it settles; or it rejects with the
    overload object; or, only when a signal was passed and the abort comes
    strictly after the call was made, it rejects with the [AbortError], at
    the time of the abort.  It leaves the signal as it is. *)
Theorem mockApiCall_outcomes
    (random : nat -> Q) (request : ApiRequest) (signal : bool) (env : Env) :
  (forall i, 0 <= random i < 1) ->
  abortAt (snd (mockApiCall random request signal env)) = abortAt env /\
  ((exists r u,
       fst (mockApiCall random request signal env) = Fulfilled r /\
       res_prompt r = prompt request /\ res_style r = style request /\
       imageUrl r = Some u /\ In u MOCK_IMAGES /\
       createdAt r = clock (snd (mockApiCall random request signal env)) /\
       fst (id r) = clock (snd (mockApiCall random request signal env)))
   \/
   fst (mockApiCall random request signal env) = Rejected (Obj overloaded)
   \/
   (fst (mockApiCall random request signal env)
    = Rejected (Obj requestAborted) /\
    signal = true /\
    exists ta,
      abortAt env = Some ta /\ clock env < ta /\
      clock (snd (mockApiCall random request signal env)) == ta)).
Proof. apply mockApiCall_cases. Qed.

Lemma mockApiCall_outcomes_witness :
  abortAt (snd (mockApiCall cancelled_random cancelled_request true
                  cancelled_early_env))
  = abortAt cancelled_early_env.
Proof.
  apply (@mockApiCall_outcomes cancelled_random cancelled_request true
           cancelled_early_env).
  intros i. unfold cancelled_random.
  do 7 (destruct i as [ | i]; [ split; [ discriminate | reflexivity ] | ]).
  destruct i; split; (discriminate || reflexivity).
Defined.

(** When [mockApiCall] settles. *)
Lemma mockApiCall_clock
    (random : nat -> Q) (request : ApiRequest) (signal : bool) (env : Env) :
  (forall i, 0 <= random i < 1) ->
  clock env < clock (snd (mockApiCall random request signal env)) /\
  clock (snd (mockApiCall random request signal env)) <= clock env + 2000 /\
  (fst (mockApiCall random request signal env)
   <> Rejected (Obj requestAborted) ->
   clock env + 1000
   <= clock (snd (mockApiCall random request signal env))).
Proof.
  intros Hr. destruct (Hr (drawn env)) as [Hlo Hhi].
  unfold mockApiCall. cbn [Math_random].
  destruct (if signal
            then abort_event_between (clock env)
                   (clock env + (1000 + random (drawn env) * 1000))
                   (mkEnv (clock env) (abortAt env) (S (drawn env)))
            else None) as [ta | ] eqn:Eab.
  - destruct signal; [ | discriminate Eab ].
    apply abort_event_between_Some in Eab. destruct Eab as (_ & Hta1 & Hta2).
    cbn [fst snd resume_at clock]. rewrite Qred_correct.
    split; [ exact Hta1 | ]. split; [ lra | ].
    intros H. exfalso. apply H. reflexivity.
  - assert (Hclock :
      forall x : Settled ApiResponse * Env,
        clock (snd x)
        == clock env + (1000 + random (drawn env) * 1000) ->
        clock env < clock (snd x) /\ clock (snd x) <= clock env + 2000 /\
        (fst x <> Rejected (Obj requestAborted) ->
         clock env + 1000 <= clock (snd x))).
    { intros x Hx. rewrite Hx.
      split; [ lra | split; [ lra | intros _; lra ] ]. }
    apply Hclock. cbn [elapse clock abortAt drawn].
    destruct (Qlt_bool _ _); cbn [snd clock]; apply Qred_correct.
Qed.

(** X20.  How long [mockApiCall] takes, when [Math.random()] returns
    numbers in [[0, 1)]: the promise settles after the call and at most
    2000ms after it, and unless it rejects with the [AbortError] it settles
    no sooner than 1000ms after the call.  The upper bound is closed: the
    code computes the delay in doubles, where [1000 + r * 1000] is rounded
    to 2000 for the largest [r] below 1. *)
Theorem mockApiCall_latency
    (random : nat -> Q) (request : ApiRequest) (signal : bool) (env : Env) :
  (forall i, 0 <= random i < 1) ->
  clock env < clock (snd (mockApiCall random request signal env)) /\
  clock (snd (mockApiCall random request signal env)) <= clock env + 2000 /\
  (fst (mockApiCall random request signal env)
   <> Rejected (Obj requestAborted) ->
   clock env + 1000
   <= clock (snd (mockApiCall random request signal env))).
Proof. apply mockApiCall_clock. Qed.

Lemma mockApiCall_latency_witness :
  clock (mkEnv 0 None 0)
  < clock (snd (mockApiCall (fun _ => 1 # 2) cancelled_request true
                  (mkEnv 0 None 0))) /\
  clock (snd (mockApiCall (fun _ => 1 # 2) cancelled_request true
                (mkEnv 0 None 0)))
  <= clock (mkEnv 0 None 0) + 2000 /\
  (fst (mockApiCall (fun _ => 1 # 2) cancelled_request true (mkEnv 0 None 0))
   <> Rejected (Obj requestAborted) ->
   clock (mkEnv 0 None 0) + 1000
   <= clock (snd (mockApiCall (fun _ => 1 # 2) cancelled_request true
                    (mkEnv 0 None 0)))).
Proof.
  apply (@mockApiCall_latency (fun _ => 1 # 2) cancelled_request true
           (mkEnv 0 None 0)).
  intros i. split; [ discriminate | reflexivity ].
Defined.

(** X21.  [mockApiCall] does not look at the state of the signal, it only
    listens: called with a signal that is already aborted (or never will
    be), it does exactly what it does without a signal, and so does not
    reject with the [AbortError]. *)
Theorem mockApiCall_misses_earlier_abort
    (random : nat -> Q) (request : ApiRequest) (env : Env) :
  abortAt env = None \/ aborted_by (clock env) env = true ->
  mockApiCall random request true env = mockApiCall random request false env /\
  fst (mockApiCall random request true env) <> Rejected (Obj requestAborted).
Proof.
  intros H.
  assert (Hnone : forall t1 d,
             abort_event_between (clock env) t1
               (mkEnv (clock env) (abortAt env) d) = None).
  { intros t1 d. unfold abort_event_between. cbn [abortAt].
    destruct H as [-> | H]; [ reflexivity | ].
    unfold aborted_by in H. destruct (abortAt env) as [ta | ];
      [ | reflexivity ].
    unfold Qlt_bool at 1. rewrite H. reflexivity. }
  unfold mockApiCall. cbn [Math_random]. rewrite Hnone.
  split; [ reflexivity | ].
  destruct (Qlt_bool _ _); cbn [fst]; discriminate.
Qed.

Lemma mockApiCall_misses_earlier_abort_witness :
  mockApiCall cancelled_random cancelled_request true (mkEnv 2050 (Some 1800) 3)
  = mockApiCall cancelled_random cancelled_request false
      (mkEnv 2050 (Some 1800) 3) /\
  fst (mockApiCall cancelled_random cancelled_request true
         (mkEnv 2050 (Some 1800) 3))
  <> Rejected (Obj requestAborted).
Proof.
  apply (@mockApiCall_misses_earlier_abort cancelled_random cancelled_request
           (mkEnv 2050 (Some 1800) 3)).
  right. reflexivity.
Defined.

(** *** A generation flow: retryWithBackoff over mockApiCall *)

(** X22.  How a generation flow ends, when [Math.random()] returns numbers
    in [[0, 1)] and at least one attempt is allowed.  The run fulfils with
    a response to the request, stamped with the time at which the run is
    over; or it rejects with the overload object, and then it has made all
    [maxRetries] calls; or it rejects with the [AbortError], which takes an
    abort and happens at the time of the abort. *)
Theorem generation_flow_outcomes
    (random : nat -> Q) (request : ApiRequest) (maxRetries : Z)
    (baseDelay maxJitter : Q) (env : Env) :
  (forall i, 0 <= random i < 1) ->
  (1 <= maxRetries)%Z ->
  exists run,
    retryWithBackoff random (flow_thunk random request) maxRetries baseDelay
      maxJitter env = Some run /\
    ((exists r,
         result run = Fulfilled r /\
         res_prompt r = prompt request /\ res_style r = style request /\
         createdAt r = clock (final run))
     \/
     (result run = Rejected (Obj overloaded) /\
      Z.of_nat (invocations (log run)) = maxRetries)
     \/
     (result run = Rejected (Obj requestAborted) /\
      exists ta, abortAt env = Some ta /\ clock (final run) == ta)).
Proof.
  intros Hr Hmax.
  destruct (retryWithBackoff_returns random (flow_thunk random request)
              maxRetries baseDelay maxJitter env) as [run Hrun].
  exists run. split; [ exact Hrun | ].
  unfold retryWithBackoff in Hrun.
  assert (Hkeep : forall (k : nat) e,
             abortAt e = abortAt env ->
             abortAt (snd (flow_thunk random request k e)) = abortAt env).
  { intros k e He. unfold flow_thunk.
    rewrite (proj1 (@mockApiCall_cases random request true e Hr)). exact He. }
  destruct (@loop_last_call random ApiResponse (flow_thunk random request)
              maxRetries baseDelay maxJitter
              (fun e => abortAt e = abortAt env)
              Hkeep (fun _ _ He => He) (fun _ He => He)
              _ _ _ _ _ Hmax eq_refl Hrun)
    as (pre & n & env0 & settled & _ & Hfn & Hres & _ & Hlast & Hinv & Hn).
  unfold flow_thunk in Hfn.
  destruct (@mockApiCall_cases random request true env0 Hr) as [_ Hcases].
  rewrite Hfn in Hcases. cbn [fst snd] in Hcases.
  destruct Hcases as [(r & u & -> & Hp & Hs & _ & _ & Hc & _)
                     | [-> | (-> & _ & ta & Hta & _ & Hclock)]].
  - left. exists r. cbn [surfaced] in Hres. auto.
  - right. left. cbn [surfaced] in Hres. split; [ exact Hres | ].
    specialize (Hlast overloaded eq_refl eq_refl). lia.
  - right. right. cbn [surfaced] in Hres. split; [ exact Hres | ].
    exists ta. rewrite <- Hinv. auto.
Qed.

Lemma generation_flow_outcomes_witness :
  exists run,
    retryWithBackoff (fun _ => 1 # 2)
      (flow_thunk (fun _ => 1 # 2) cancelled_request) 3 500 100
      cancelled_early_env = Some run /\
    ((exists r,
         result run = Fulfilled r /\
         res_prompt r = prompt cancelled_request /\
         res_style r = style cancelled_request /\
         createdAt r = clock (final run))
     \/
     (result run = Rejected (Obj overloaded) /\
      Z.of_nat (invocations (log run)) = 3%Z)
     \/
     (result run = Rejected (Obj requestAborted) /\
      exists ta, abortAt cancelled_early_env = Some ta /\
                 clock (final run) == ta)).
Proof.
  apply (@generation_flow_outcomes (fun _ => 1 # 2) cancelled_request 3 500
           100 cancelled_early_env).
  - intros i. split; [ discriminate | reflexivity ].
  - lia.
Defined.

(** X23.  How long a generation flow takes, when [Math.random()] returns
    numbers in [[0, 1)] and neither the base delay nor the jitter bound is
    negative: at most 2000ms for each of the [maxRetries] calls, plus the
    waits; with the default values the flow is over within 7700ms of its
    start. *)
Theorem generation_flow_duration
    (random : nat -> Q) (request : ApiRequest) (maxRetries : Z)
    (baseDelay maxJitter : Q) (env : Env) :
  (forall i, 0 <= random i < 1) ->
  0 <= baseDelay -> 0 <= maxJitter ->
  (1 <= maxRetries)%Z ->
  (exists run,
      retryWithBackoff random (flow_thunk random request) maxRetries baseDelay
        maxJitter env = Some run /\
      clock (final run)
      <= clock env + inject_Z maxRetries * 2000
         + baseDelay * (2 ^ (maxRetries - 1) - 1)
         + inject_Z (maxRetries - 1) * maxJitter) /\
  (exists run,
      retryWithBackoff random (flow_thunk random request) default_maxRetries
        default_baseDelay default_maxJitter env = Some run /\
      clock (final run) <= clock env + 7700).
Proof.
  intros Hr Hb Hj Hmax.
  assert (Hgen : forall mr bd mj,
             0 <= bd -> 0 <= mj -> (1 <= mr)%Z ->
             exists run,
               retryWithBackoff random (flow_thunk random request) mr bd mj env
               = Some run /\
               clock (final run)
               <= clock env + inject_Z mr * 2000
                  + bd * (2 ^ (mr - 1) - 1) + inject_Z (mr - 1) * mj).
  { intros mr bd mj Hbd Hmj Hmr.
    destruct (retryWithBackoff_returns random (flow_thunk random request)
                mr bd mj env) as [run Hrun].
    exists run. split; [ exact Hrun | ].
    unfold retryWithBackoff in Hrun.
    pose proof (@loop_clock random ApiResponse (flow_thunk random request)
                  mr bd mj (fun _ => True)
                  (fun _ _ _ => I) (fun _ _ _ => I) (fun _ _ => I) 2000)
      as Hclock.
    specialize (Hclock
      (fun k e _ =>
         proj1 (proj2 (@mockApiCall_clock random request true e Hr)))
      _ _ _ _ _ Hmr I Hrun).
    pose proof (@loop_total_wait random ApiResponse
                  (flow_thunk random request) mr bd mj Hr Hbd Hmj
                  _ _ _ _ _ Hmr Hrun) as Hwait.
    destruct (@loop_numbering random ApiResponse (flow_thunk random request)
                mr bd mj _ _ _ _ _ Hmr Hrun) as (_ & _ & Hcalls).
    assert (Hk : inject_Z (Z.of_nat (invocations (log run))) <= inject_Z mr)
      by (rewrite <- Zle_Qle; lia).
    assert (Hk2 : inject_Z (Z.of_nat (invocations (log run))) * 2000
                  <= inject_Z mr * 2000)
      by (apply Qmult_le_compat_r; [ exact Hk | discriminate ]).
    change (2 ^ (1 - 1)) with 1 in Hwait.
    set (k := inject_Z (Z.of_nat (invocations (log run))) * 2000) in *.
    set (m := inject_Z mr * 2000) in *.
    set (w := total_wait (waits (log run))) in *.
    set (b := bd * (2 ^ (mr - 1) - 1)) in *.
    set (j := inject_Z (mr - 1) * mj) in *.
    lra. }
  split.
  - apply Hgen; assumption.
  - destruct (Hgen default_maxRetries default_baseDelay default_maxJitter)
      as (run & Hrun & Hclock);
      [ cbv; discriminate | cbv; discriminate | cbv; discriminate | ].
    exists run. split; [ exact Hrun | ].
    eapply Qle_trans; [ exact Hclock | ].
    unfold default_maxRetries, default_baseDelay, default_maxJitter.
    change (2 ^ (3 - 1)) with 4. change (inject_Z 3) with 3.
    change (inject_Z (3 - 1)) with 2. lra.
Qed.

Lemma generation_flow_duration_witness :
  exists run,
    retryWithBackoff (fun _ => 1 # 2)
      (flow_thunk (fun _ => 1 # 2) cancelled_request) default_maxRetries
      default_baseDelay default_maxJitter (mkEnv 0 None 0) = Some run /\
    clock (final run) <= clock (mkEnv 0 None 0) + 7700.
Proof.
  destruct (@generation_flow_duration (fun _ => 1 # 2) cancelled_request
              3 500 100 (mkEnv 0 None 0)) as [_ H].
  - intros i. split; [ discriminate | reflexivity ].
  - discriminate.
  - discriminate.
  - lia.
  - exact H.
Defined.

End ApiUtilsFacts.
